(** * Symphony: solution reconciliation core

    A shallow embedding of the parts of the repository that the
    specification talks about, followed by the proofs of its properties.

    Definitions:
    - [Strconv]: the functions of Go's [strconv] that the code calls
      ([ParseInt] and [FormatInt] in base 10 on 64 bits, [ParseBool]);
    - [Strings]: [Index], [Contains], [Split] and [Join] of Go's
      [strings];
    - [States], [MemoryState]: [memorystate.go], the in-memory state
      provider;
    - [Model]: the records of the [model] package that the manager uses;
    - [Solution]: [solution-manager.go] ([sortByDepedencies],
      [canSkipStep], [getPreviousState], [Get], [Reconcile]);
    - [Mqtt]: the MQTT target provider (response handler and [Apply]);
    - [InstanceReconciler]: the update path of [instance_reconciler.go];
    - [Reference]: one set of collaborators of the manager, and the
      concrete inputs on which the statements are exercised.

    Go's [int64] is a [Z] with the wrap-around written out, Go maps are
    stdpp [gmap]s, slices are lists, and [interface{}] values are the
    inductive [gval].  A call that can fail returns its error beside its
    value, as in Go; a panic is a result of its own.

    Properties: [StrconvFacts], [MemoryStateProofs], [MqttProofs],
    [InstanceReconcilerProofs], [SkipProofs], [ReconcileProofs],
    [SortProofs]; then, of the rest of these files, [StoreProofs],
    [StringsFacts], [FilterProofs] and [ListProofs] ([Get], [Delete],
    [List] and its filters), [GetProofs], [RunProofs] and [InitProofs]
    (the manager), [MqttCallProofs], [InstancePathProofs]. *)

From Stdlib Require Import ZArith String Ascii List Bool Lia.
From stdpp Require Import gmap strings list fin_maps relations.

Set Warnings "-register-all,-clear-no-such-hyp".
Local Open Scope string_scope.
Local Open Scope list_scope.
Local Open Scope Z_scope.

(** ** Results of Go calls *)

(** Modelled from the spec: [v1alpha2.State], whose declaration is not
    part of the sources at hand: the tagged enum of error kinds
    (NotFound, BadRequest, BadConfig, InternalError) with the two success
    states OK(200) and Accepted(202); any other numeric status is
    [OtherState]. *)
Inductive State : Type :=
| OK
| Accepted
| BadRequest
| NotFound
| BadConfig
| InternalError
| OtherState (code : Z).

Definition State_eqb (a b : State) : bool :=
  match a, b with
  | OK, OK | Accepted, Accepted | BadRequest, BadRequest
  | NotFound, NotFound | BadConfig, BadConfig
  | InternalError, InternalError => true
  | OtherState x, OtherState y => (x =? y)%Z
  | _, _ => false
  end.

(** A Go [error] value: either [v1alpha2.NewCOAError(nil, msg, state)],
    which carries its message and its state, or an error of some other
    package (a broker token error, [errors.New]). *)
Inductive error : Type :=
| NewCOAError (Message : string) (state : State)
| ForeignError (text : string).

(** What a call does: return a value, return an error, or panic. *)
Inductive outcome (A : Type) : Type :=
| Returns (a : A)
| Fails (e : error)
| Panics.
Arguments Returns {A} a.
Arguments Fails {A} e.
Arguments Panics {A}.

(** ** strconv *)

Module Strconv.

Definition MaxInt64 : Z := 2 ^ 63 - 1.
Definition MinInt64 : Z := - 2 ^ 63.

(** Two's complement wrap-around of [int64] arithmetic. *)
Definition wrap64 (z : Z) : Z := (z + 2 ^ 63) mod 2 ^ 64 - 2 ^ 63.

Definition is_digit (c : ascii) : bool :=
  (48 <=? Z.of_nat (nat_of_ascii c)) && (Z.of_nat (nat_of_ascii c) <=? 57).

Definition digit_val (c : ascii) : Z := Z.of_nat (nat_of_ascii c) - 48.

(** The digit loop of [ParseUint] in base 10: any other byte (also the
    underscore, accepted only with base 0) is a syntax error. *)
Fixpoint parse_digits (s : string) (acc : Z) : option Z :=
  match s with
  | EmptyString => Some acc
  | String c r =>
      if is_digit c then parse_digits r (acc * 10 + digit_val c) else None
  end.

(** [strconv.ParseInt(s, 10, 64)]: an optional sign, at least one
    digit, and a value inside [int64]; [None] is the syntax or range
    error.  The bound on the magnitude is checked on the final value,
    which rejects the same strings as the checks inside the loop. *)
Definition ParseInt (s : string) : option Z :=
  match s with
  | EmptyString => None
  | String c r =>
      let neg := Ascii.eqb c "-" in
      let body := if Ascii.eqb c "+" || Ascii.eqb c "-" then r else s in
      match body with
      | EmptyString => None
      | _ =>
          match parse_digits body 0 with
          | None => None
          | Some un =>
              if neg
              then if un <=? 2 ^ 63 then Some (- un) else None
              else if un <? 2 ^ 63 then Some un else None
          end
      end
  end.

Definition digit_char (d : Z) : ascii := ascii_of_nat (Z.to_nat (48 + d)).

(** The digits of [n], most significant first, in front of [acc]. *)
Fixpoint format_digits (fuel : nat) (n : Z) (acc : string) : string :=
  match fuel with
  | O => acc
  | S f =>
      let acc' := String (digit_char (n mod 10)) acc in
      if n <? 10 then acc' else format_digits f (n / 10) acc'
  end.

(** [strconv.FormatInt(v, 10)] for a 64-bit [v] (at most 19 digits). *)
Definition FormatInt (v : Z) : string :=
  if v <? 0 then String "-" (format_digits 20 (- v) EmptyString)
  else format_digits 20 v EmptyString.

(** [strconv.ParseBool]: the twelve spellings it accepts; [None] is the
    syntax error. *)
Definition ParseBool (str : string) : option bool :=
  if existsb (String.eqb str) ["1"; "t"; "T"; "TRUE"; "true"; "True"] then Some true
  else if existsb (String.eqb str) ["0"; "f"; "F"; "FALSE"; "false"; "False"]
       then Some false
       else None.

End Strconv.

(** ** strings *)

Module Strings.

(** [strings.Index(s, substr)]: the index of the first instance of
    [substr] in [s], or -1 when there is none. *)
Fixpoint Index (s substr : string) : Z :=
  if String.prefix substr s then 0
  else match s with
       | EmptyString => -1
       | String _ r => let i := Index r substr in if i <? 0 then -1 else i + 1
       end.

(** [strings.Contains(s, substr)], which is [Index(s, substr) >= 0]. *)
Definition Contains (s substr : string) : bool := 0 <=? Index s substr.

(** [strings.Split] on a separator that is not empty, read from left
    to right: [cur] is the part under way, [skip] counts the bytes of a
    separator that has just been found and are still to be passed. *)
Fixpoint splitFrom (sep : string) (skip : nat) (s cur : string) : list string :=
  match s with
  | EmptyString => [cur]
  | String c r =>
      match skip with
      | S k => splitFrom sep k r cur
      | O =>
          if String.prefix sep s
          then cur :: splitFrom sep (String.length sep - 1) r EmptyString
          else splitFrom sep 0 r (cur +:+ String c EmptyString)
      end
  end.

(** [strings.Split(s, sep)].  On an empty separator Go splits after each
    UTF-8 sequence, which is after each byte of an ASCII string; the
    code at hand only splits on [","], ["."], ["="] and ["!="]. *)
Definition Split (s sep : string) : list string :=
  match sep with
  | EmptyString => map (fun c => String c EmptyString) (list_ascii_of_string s)
  | _ => splitFrom sep 0 s EmptyString
  end.

(** [strings.Join(elems, sep)]. *)
Fixpoint Join (elems : list string) (sep : string) : string :=
  match elems with
  | [] => EmptyString
  | [x] => x
  | x :: rest => x +:+ sep +:+ Join rest sep
  end.

(** The byte [c] does not occur in [s]. *)
Fixpoint lacks (c : ascii) (s : string) : bool :=
  match s with
  | EmptyString => true
  | String x r => negb (Ascii.eqb x c) && lacks c r
  end.

End Strings.

(** ** Dynamic values ([interface{}]) and their JSON round trip *)

(** The values an [interface{}] holds in this code: generic JSON values
    (as [json.Unmarshal] builds them), a typed nil map, and struct values,
    which carry the fields under which [json.Marshal] writes them (the
    names of the fields of one struct are distinct). *)
Inductive gval : Type :=
| GNil
| GBool (b : bool)
| GNum (z : Z)
| GStr (s : string)
| GSlice (l : list gval)
| GMap (m : gmap string gval)
| GNilMap
| GStruct (fields : list (string * gval)).

(** [json.Marshal] followed by [json.Unmarshal] into an [interface{}]:
    structs and maps come back as maps, a nil map comes back as nil. *)
Fixpoint json_generic (v : gval) : gval :=
  match v with
  | GSlice l => GSlice (map json_generic l)
  | GMap m => GMap (json_generic <$> m)
  | GNilMap => GNil
  | GStruct fs =>
      GMap (list_to_map (map (fun kv => (fst kv, json_generic (snd kv))) fs))
  | _ => v
  end.

(** [json.Unmarshal(jBody, &mapType)] with [mapType] a nil
    [map[string]interface{}]: only a JSON object fills it; on null and on
    the (ignored) error of any other JSON value it stays nil. *)
Definition unmarshal_map (v : gval) : option (gmap string gval) :=
  match json_generic v with
  | GMap m => Some m
  | _ => None
  end.

(** [m[k]] on a possibly nil [map[string]interface{}]: nil when absent. *)
Definition map_index (m : option (gmap string gval)) (k : string) : gval :=
  match m with
  | Some m => default GNil (m !! k)
  | None => GNil
  end.

(** ** fmt

    [fmt]'s [%v] verb prints nil, strings, booleans and integers as
    below; how it prints slices, maps and structs is left to
    [SprintComposite]. *)
Class Fmt : Type := { SprintComposite : gval → string }.

(** [fmt.Sprint(v)] and [fmt.Sprintf("%v", v)]. *)
Definition Sprint `{Fmt} (v : gval) : string :=
  match v with
  | GNil => "<nil>"
  | GStr s => s
  | GBool true => "true"
  | GBool false => "false"
  | GNum z => Strconv.FormatInt z
  | _ => SprintComposite v
  end.

(** ** The state provider interface ([states] package) *)

Module States.

(** [states.StateEntry], [states.UpsertOption], [states.UpsertRequest]. *)
Record StateEntry : Type := mkStateEntry {
  ID : string;
  Body : gval;
  ETag : string
}.

Record UpsertOption : Type := { UpdateStateOnly : bool }.

Record UpsertRequest : Type := {
  Value : StateEntry;
  Metadata : gmap string gval;
  Options : UpsertOption
}.

(** The fields of [states.ListRequest] that [List] reads. *)
Record ListRequest : Type := mkListRequest {
  FilterType : string;
  FilterValue : string
}.

End States.

(** ** memorystate.go *)

Module MemoryState.
Import States.

(** A cell of [Data map[string]interface{}]: a [states.StateEntry], or
    a value of another type (the type assertion [.(states.StateEntry)]
    tells them apart). *)
Inductive stored : Type :=
| Entry (e : StateEntry)
| Foreign.

(** The provider; only [Data] changes after [Init]. *)
Record MemoryStateProvider : Type := { Data : gmap string stored }.

Definition Init : MemoryStateProvider := {| Data := ∅ |}.

(** Lines 89-96 of [Upsert]: the tag written on the entry is computed
    from the tag carried by the request. *)
Definition nextETag (etag : string) : string :=
  if String.eqb etag "" then "1"
  else match Strconv.ParseInt etag with
       | Some v => Strconv.FormatInt (Strconv.wrap64 (v + 1))
       | None => "1"
       end.

Definition notFoundMessage (id : string) : string :=
  "entry '" +:+ id +:+ "' is not found".
Definition invalidEntryMessage (id : string) : string :=
  "entry '" +:+ id +:+ "' is not a valid state entry".

(** Lines 117-119: [mapRef] is the map the stored entry holds, so the
    store sees the new empty status at once. *)
Definition ensureStatus (mapRef : gmap string gval) : gmap string gval :=
  match default GNil (mapRef !! "status") with
  | GNil => <["status" := GMap ∅]> mapRef
  | _ => mapRef
  end.

(** Lines 120-122: the range expression asserts that the new status is
    a map; each iteration asserts that the old status is a map and
    assigns into it (a nil map cannot be assigned into).  The
    assignments go to distinct keys, so their order does not matter:
    the old status becomes [new ∪ old], the new values winning. *)
Definition mergeStatus (mapRef : gmap string gval) (newStatus : gval)
  : option (gmap string gval) :=
  match newStatus with
  | GMap new =>
      if decide (new = ∅) then Some mapRef
      else match default GNil (mapRef !! "status") with
           | GMap old => Some (<["status" := GMap (new ∪ old)]> mapRef)
           | _ => None
           end
  | GNilMap => Some mapRef
  | _ => None
  end.

(** [Upsert].  The second component is the provider after the call.
    The body of an entry is a value of its own: no map object is taken
    to be shared between the bodies of two entries of the store. *)
Definition Upsert (s : MemoryStateProvider) (entry : UpsertRequest)
  : outcome string * MemoryStateProvider :=
  let id := ID (Value entry) in
  let tag := nextETag (ETag (Value entry)) in
  if UpdateStateOnly (Options entry) then
    match Data s !! id with
    | None => (Fails (NewCOAError (notFoundMessage id) NotFound), s)
    | Some Foreign =>
        (Fails (NewCOAError (invalidEntryMessage id) InternalError), s)
    | Some (Entry existingEntry) =>
        match Body existingEntry with
        | GMap mapRef =>
            let mapType := unmarshal_map (Body (Value entry)) in
            let mapRef1 := ensureStatus mapRef in
            let touched :=
              {| Data := <[id := Entry (mkStateEntry (ID existingEntry)
                                          (GMap mapRef1)
                                          (ETag existingEntry))]> (Data s) |} in
            match mergeStatus mapRef1 (map_index mapType "status") with
            | Some mapRef2 =>
                (Returns id,
                 {| Data := <[id := Entry (mkStateEntry id (GMap mapRef2) tag)]>
                              (Data s) |})
            | None => (Panics, touched)
            end
        | GNilMap =>
            (* reading a nil map gives nil, so line 118 assigns into
               it, which panics *)
            (Panics, s)
        | _ => (Panics, s)
        end
    end
  else
    (Returns id,
     {| Data := <[id := Entry (mkStateEntry id (Body (Value entry)) tag)]>
                  (Data s) |}).

(** [Get]. *)
Definition Get (s : MemoryStateProvider) (id : string) : outcome StateEntry :=
  match Data s !! id with
  | Some (Entry vE) => Returns vE
  | Some Foreign => Fails (NewCOAError (invalidEntryMessage id) InternalError)
  | None => Fails (NewCOAError (notFoundMessage id) NotFound)
  end.

(** [Delete]. *)
Definition Delete (s : MemoryStateProvider) (id : string)
  : option error * MemoryStateProvider :=
  match Data s !! id with
  | None => (Some (NewCOAError (notFoundMessage id) NotFound), s)
  | Some _ => (None, {| Data := delete id (Data s) |})
  end.

(** *** ETag monotonicity, as the specification words it

    Every successful [Upsert] returns the new ETag of the entry, and
    that ETag is strictly greater, as an integer, than the one any
    earlier successful [Upsert] returned for the same id. *)
Definition returns_new_etag : Prop :=
  ∀ s req r s' e,
    Upsert s req = (Returns r, s') →
    Data s' !! ID (Value req) = Some (Entry e) →
    r = ETag e.

Definition etag_strictly_increases : Prop :=
  ∀ s req1 req2 r1 r2 s1 s2,
    ID (Value req1) = ID (Value req2) →
    Upsert s req1 = (Returns r1, s1) →
    Upsert s1 req2 = (Returns r2, s2) →
    ∃ v1 v2, Strconv.ParseInt r1 = Some v1 ∧ Strconv.ParseInt r2 = Some v2 ∧ v1 < v2.

Definition etag_monotonicity : Prop :=
  returns_new_etag ∧ etag_strictly_increases.

(** *** The two maps that [UpdateStateOnly] merges *)

(** Does the type assertion [.(map[string]interface{})] succeed? *)
Definition isMap (v : gval) : bool :=
  match v with
  | GMap _ | GNilMap => true
  | _ => false
  end.

(** [mapType["status"]], the status of the new body after its JSON
    round trip. *)
Definition newStatus (entry : UpsertRequest) : gval :=
  map_index (unmarshal_map (Body (Value entry))) "status".

(** The old status map of a body; a body without status (or with a nil
    status) has the empty one. *)
Definition oldStatus (mapRef : gmap string gval) : option (gmap string gval) :=
  match default GNil (mapRef !! "status") with
  | GNil => Some ∅
  | GMap old => Some old
  | _ => None
  end.

(** *** Stores written through the provider *)

(** A call that writes to the store. *)
Inductive Operation : Type :=
| DoUpsert (entry : UpsertRequest)
| DoDelete (id : string).

Definition perform (s : MemoryStateProvider) (op : Operation) : MemoryStateProvider :=
  match op with
  | DoUpsert entry => snd (Upsert s entry)
  | DoDelete id => snd (Delete s id)
  end.

(** The provider after [Init] and the calls [ops], in order. *)
Definition history (ops : list Operation) : MemoryStateProvider :=
  foldl perform Init ops.

(** What the calls keep true of the store: every cell is a state entry
    filed under its own id, whose tag is the decimal form of an [int64]. *)
Definition wellFormed (s : MemoryStateProvider) : Prop :=
  ∀ id cell, Data s !! id = Some cell →
    ∃ e, cell = Entry e ∧ ID e = id ∧ is_Some (Strconv.ParseInt (ETag e)).

(** *** traceDownField and simulateK8sFilter *)

(** The error of [json.Unmarshal] into a [map[string]interface{}] for a
    JSON value that is neither an object nor null. *)
Definition unmarshalTypeError (kind : string) : error :=
  ForeignError ("json: cannot unmarshal " +:+ kind
                +:+ " into Go value of type map[string]interface {}").

(** [json.Marshal(v)] followed by [json.Unmarshal(j, &dict)] for a
    [dict] of type [map[string]interface{}]: an object fills the map,
    null sets it to nil ([None]), any other JSON value is an error. *)
Definition unmarshal_dict (v : gval) : option (gmap string gval) * option error :=
  match json_generic v with
  | GMap m => (Some m, None)
  | GBool _ => (None, Some (unmarshalTypeError "bool"))
  | GNum _ => (None, Some (unmarshalTypeError "number"))
  | GStr _ => (None, Some (unmarshalTypeError "string"))
  | GSlice _ => (None, Some (unmarshalTypeError "array"))
  | _ => (None, None)
  end.

Definition selectorError (filter : string) : error :=
  NewCOAError ("filter '" +:+ filter +:+ "' is not a valid selector") BadRequest.

(** [traceDownField] with [fuel] nested calls left.  The result is the
    triple that Go returns; the outer [None] stands for a run that is cut
    short: the fuel is used up, or [parts] has no first element (a panic
    in Go).  [entity] is [None] for a nil map. *)
Fixpoint traceDown (fuel : nat) (entity : option (gmap string gval)) (filter : string)
  : option (option (gmap string gval) * string * option error) :=
  if negb (Strings.Contains filter ".") then Some (entity, filter, None)
  else
    match fuel with
    | O => None
    | S fuel' =>
        match Strings.Split filter "." with
        | [] => None
        | part :: parts =>
            match entity ≫= (fun m => m !! part) with
            | Some v =>
                match unmarshal_dict v with
                | (_, Some err) => Some (None, filter, Some err)
                | (dict, None) => traceDown fuel' dict (Strings.Join parts ".")
                end
            | None => Some (None, filter, Some (selectorError filter))
            end
        end
    end.

(** [traceDownField]: every nested call works on a shorter filter, so
    the length of the filter bounds their number
    ([traceDownField_total]). *)
Definition traceDownField (entity : option (gmap string gval)) (filter : string)
  : option (option (gmap string gval) * string * option error) :=
  traceDown (String.length filter) entity filter.

(** [x != nil] and [x == s] for an [interface{}] [x] and a string [s]:
    a value of another dynamic type than string differs from [s]. *)
Definition notNil (x : gval) : bool :=
  match x with
  | GNil => false
  | _ => true
  end.

Definition equalsString (x : gval) (s : string) : bool :=
  match x with
  | GStr y => String.eqb y s
  | _ => false
  end.

(** Lines 152-161 and 168-177: the test of one selector [key op value];
    [equal] tells [=] from [!=]. *)
Definition compareField (equal : bool) (entity : option (gmap string gval))
    (field value : string) : option (bool * option error) :=
  match traceDownField entity field with
  | None => None
  | Some (_, _, Some err) => Some (false, Some err)
  | Some (dict, key, None) =>
      if notNil (map_index dict key)
      then if equal
           then Some (equalsString (map_index dict key) value, None)
           else Some (negb (equalsString (map_index dict key) value), None)
      else Some (false, None)
  end.

(** [simulateK8sFilter]; the outer [None] is that of [traceDownField]. *)
Definition simulateK8sFilter (entity : option (gmap string gval)) (filter : string)
  : option (bool * option error) :=
  if 0 <? Strings.Index filter "!=" then
    match Strings.Split filter "!=" with
    | [field; value] => compareField false entity field value
    | _ => Some (false, Some (selectorError filter))
    end
  else if 0 <? Strings.Index filter "=" then
    match Strings.Split filter "=" with
    | [field; value] => compareField true entity field value
    | _ => Some (false, Some (selectorError filter))
    end
  else Some (false, Some (selectorError filter)).

(** *** List *)

(** What the body of the loop of [List] does with one entry: append it,
    go on without it ([continue]), or return with an error. *)
Inductive Verdict : Type :=
| Keep
| Drop
| Stop (err : error).

Definition verdictOf (matched : option (bool * option error)) : option Verdict :=
  match matched with
  | None => None
  | Some (_, Some err) => Some (Stop err)
  | Some (true, None) => Some Keep
  | Some (false, None) => Some Drop
  end.

(** Lines 236-253, the filters on [status] and on [spec]:
    [JsonPathQuery] is [utils.JsonPathQuery], which is not part of the
    sources at hand. *)
Definition queryVerdict (JsonPathQuery : gmap string gval → string → gval * option error)
    (dict : option (gmap string gval)) (section filter : string) : Verdict :=
  match map_index dict section with
  | GMap part =>
      match JsonPathQuery part filter with
      | (_, Some _) => Drop
      | (v, None) => if notNil v then Keep else Drop
      end
  | _ => Keep
  end.

(** Lines 200-256: the filter applied to one entry. *)
Definition filterEntry (JsonPathQuery : gmap string gval → string → gval * option error)
    (request : ListRequest) (vE : StateEntry) : option Verdict :=
  if negb (String.eqb (FilterType request) "") && negb (String.eqb (FilterValue request) "")
  then
    match unmarshal_dict (Body vE) with
    | (_, Some _) =>
        Some (Stop (NewCOAError "failed to unmarshal state entry" InternalError))
    | (dict, None) =>
        if String.eqb (FilterType request) "label" then
          match map_index dict "metadata" with
          | GMap metadata =>
              match default GNil (metadata !! "labels") with
              | GMap labels =>
                  verdictOf (simulateK8sFilter (Some labels) (FilterValue request))
              | GNilMap => verdictOf (simulateK8sFilter None (FilterValue request))
              | _ => Some Keep
              end
          | _ => Some Keep
          end
        else if String.eqb (FilterType request) "field" then
          verdictOf (simulateK8sFilter dict (FilterValue request))
        else if String.eqb (FilterType request) "status" then
          Some (queryVerdict JsonPathQuery dict "status" (FilterValue request))
        else if String.eqb (FilterType request) "spec" then
          Some (queryVerdict JsonPathQuery dict "spec" (FilterValue request))
        else Some Keep
    end
  else Some Keep.

(** Lines 197-262, the loop over the cells of [Data] in the order
    [cells]; [entities] is the slice built so far. *)
Fixpoint listCells (JsonPathQuery : gmap string gval → string → gval * option error)
    (request : ListRequest) (cells : list stored) (entities : list StateEntry)
  : option (list StateEntry * option error) :=
  match cells with
  | [] => Some (entities, None)
  | Foreign :: _ =>
      Some (entities, Some (NewCOAError "found invalid state entry" InternalError))
  | Entry vE :: rest =>
      match filterEntry JsonPathQuery request vE with
      | None => None
      | Some (Stop err) => Some (entities, Some err)
      | Some Drop => listCells JsonPathQuery request rest entities
      | Some Keep => listCells JsonPathQuery request rest (entities ++ [vE])
      end
  end.

(** [List]: the entities and the error (the token returned between them
    is always empty).  Go visits the cells of a map in an order of its
    choice: [visit] is that order, a permutation of the cells. *)
Definition List (JsonPathQuery : gmap string gval → string → gval * option error)
    (s : MemoryStateProvider) (request : ListRequest) (visit : list (string * stored))
  : option (list StateEntry * option error) :=
  listCells JsonPathQuery request (snd <$> visit) [].

(** The JSON object of a body (nil for a body that is null), when the
    body has one, and its labels: [metadata.labels] of that object, when
    metadata and labels are JSON objects. *)
Definition objectOf (body : gval) : option (option (gmap string gval)) :=
  match unmarshal_dict body with
  | (dict, None) => Some dict
  | (_, Some _) => None
  end.

Definition labelsOf (body : gval) : option (gmap string gval) :=
  match map_index (fst (unmarshal_dict body)) "metadata" with
  | GMap metadata =>
      match metadata !! "labels" with
      | Some (GMap labels) => Some labels
      | _ => None
      end
  | _ => None
  end.

(** The orders in which [List] can visit the store. *)
Definition visits (s : MemoryStateProvider) (visit : list (string * stored)) : Prop :=
  visit ≡ₚ map_to_list (Data s).

End MemoryState.

(** ** The data model of the manager ([model] package)

    The declarations of the [model] package are not part of the sources
    at hand; the records below carry the fields that the code reads and
    writes. *)

Module Model.

Record ComponentSpec : Type := mkComponent {
  Name : string;
  Type_ : string;
  Properties : gmap string gval;
  Dependencies : list string
}.

(** Modelled from the spec: [model.ComponentAction], of which the source
    only shows the constant [model.ComponentDelete]; an action is
    [update] or [delete]. *)
Inductive ComponentAction : Type := ComponentUpdate | ComponentDelete.

Record ComponentStep : Type := mkComponentStep {
  Action : ComponentAction;
  Component : ComponentSpec
}.

Record DeploymentStep : Type := mkStep {
  Target : string;
  Components : list ComponentStep;
  Role : string
}.

Record DeploymentPlan : Type := { Steps : list DeploymentStep }.

Record DeploymentState : Type := mkDeploymentState {
  StateComponents : list ComponentSpec;      (* [Components] *)
  TargetComponent : gmap string string
}.

(** [model.TargetState]: [Spec.Components] is what [findAgent] reads;
    the rest of the target (bindings, properties) is kept opaque. *)
Record TargetState : Type := mkTargetState {
  TargetSpecComponents : list ComponentSpec;
  TargetBinding : gval
}.

Record DeploymentSpec : Type := mkDeployment {
  InstanceName : string;                     (* [Instance.Spec.Name] *)
  InstanceMetadata : gmap string string;     (* [Instance.Spec.Metadata] *)
  SolutionMetadata : gmap string string;     (* [Solution.Spec.Metadata] *)
  SolutionComponents : list ComponentSpec;   (* [Solution.Spec.Components] *)
  Targets : gmap string TargetState;
  Generation : string;
  ActiveTarget : string
}.

Record ComponentResultSpec : Type := {
  ResultStatus : State;
  ResultMessage : string
}.

Record TargetResultSpec : Type := mkTargetResult {
  Status : string;
  Message : string;
  ComponentResults : gmap string ComponentResultSpec
}.

Record SummarySpec : Type := mkSummary {
  TargetCount : Z;
  SuccessCount : Z;
  TargetResults : gmap string TargetResultSpec;
  SummaryMessage : string;
  Skipped : bool;
  IsRemoval : bool;
  AllAssignedDeployed : bool
}.

(** [model.SummaryResult]; [Time] is a point in time in nanoseconds. *)
Record SummaryResult : Type := mkSummaryResult {
  Summary : SummarySpec;
  SummaryGeneration : string;                (* [Generation] *)
  Time : Z
}.

Definition set_SummaryMessage (m : string) (s : SummarySpec) : SummarySpec :=
  mkSummary (TargetCount s) (SuccessCount s) (TargetResults s) m
            (Skipped s) (IsRemoval s) (AllAssignedDeployed s).
Definition set_SuccessCount (n : Z) (s : SummarySpec) : SummarySpec :=
  mkSummary (TargetCount s) n (TargetResults s) (SummaryMessage s)
            (Skipped s) (IsRemoval s) (AllAssignedDeployed s).
Definition set_AllAssignedDeployed (b : bool) (s : SummarySpec) : SummarySpec :=
  mkSummary (TargetCount s) (SuccessCount s) (TargetResults s) (SummaryMessage s)
            (Skipped s) (IsRemoval s) b.
Definition set_Skipped (b : bool) (s : SummarySpec) : SummarySpec :=
  mkSummary (TargetCount s) (SuccessCount s) (TargetResults s) (SummaryMessage s)
            b (IsRemoval s) (AllAssignedDeployed s).
Definition set_IsRemoval (b : bool) (s : SummarySpec) : SummarySpec :=
  mkSummary (TargetCount s) (SuccessCount s) (TargetResults s) (SummaryMessage s)
            (Skipped s) b (AllAssignedDeployed s).

(** Modelled from the spec: [SummarySpec.UpdateTargetResult], which is
    not part of the sources at hand.  A step records its result "into
    the target's TargetResultSpec"; the call site notes that this keeps
    only the last error on the target. *)
Definition UpdateTargetResult (target : string) (spec : TargetResultSpec)
    (s : SummarySpec) : SummarySpec :=
  mkSummary (TargetCount s) (SuccessCount s)
            (<[target := spec]> (TargetResults s)) (SummaryMessage s)
            (Skipped s) (IsRemoval s) (AllAssignedDeployed s).

Definition set_ActiveTarget (t : string) (d : DeploymentSpec) : DeploymentSpec :=
  mkDeployment (InstanceName d) (InstanceMetadata d) (SolutionMetadata d)
               (SolutionComponents d) (Targets d) (Generation d) t.
Definition set_InstanceMetadata (m : gmap string string) (d : DeploymentSpec)
  : DeploymentSpec :=
  mkDeployment (InstanceName d) m (SolutionMetadata d)
               (SolutionComponents d) (Targets d) (Generation d) (ActiveTarget d).

(** The zero value of [TargetState], which indexing [Targets] with an
    unknown name gives. *)
Definition zeroTargetState : TargetState := mkTargetState [] GNil.

(** Modelled from the spec: the constant [model.ContainerImage], the
    [container.image] property. *)
Definition ContainerImage : string := "container.image".

End Model.


(** ** solution-manager.go *)

Module Solution.
Import States Model.

Definition SYMPHONY_AGENT : string := "/symphony-agent:".
Definition ENV_NAME : string := "SYMPHONY_AGENT_ADDRESS".

Record SolutionManagerDeploymentState : Type := mkManagerState {
  Spec : DeploymentSpec;
  DState : DeploymentState                     (* [State] *)
}.

(** [fmt.Sprintf("%s::%s", name, target)]. *)
Definition componentKey (name target : string) : string :=
  name +:+ "::" +:+ target.

(** [strings.HasPrefix] and [strings.Contains]. *)
Definition HasPrefix (s p : string) : bool := String.prefix p s.

Fixpoint Contains (s sub : string) : bool :=
  String.prefix sub s ||
  match s with
  | EmptyString => false
  | String _ r => Contains r sub
  end.

(** *** sortByDepedencies *)

(** Lines 629-635: does [c] list [name] among its dependencies? *)
Definition dependsOn (c : ComponentSpec) (name : string) : bool :=
  existsb (fun d => String.eqb d name) (Dependencies c).

(** Lines 628-642, the inner loop after [name] has been emitted.  The
    loop visits [components] and [inDegrees] at the same index [i]; the
    result is the new [inDegrees] and the indices appended to the queue,
    in the order of the appends. *)
Fixpoint release (name : string) (components : list ComponentSpec)
    (inDegrees : list Z) (i : nat) : list Z * list nat :=
  match components, inDegrees with
  | c :: cs, d :: ds =>
      let '(ds', ready) := release name cs ds (S i) in
      if dependsOn c name
      then ((d - 1) :: ds', if d - 1 =? 0 then i :: ready else ready)
      else (d :: ds', ready)
  | _, _ => (inDegrees, [])
  end.

(** Lines 625-643, the loop [for len(queue) > 0].  [None] stands for a run
    that is cut short: the fuel is used up, or the queue holds an index
    outside [components] (a panic in Go). *)
Fixpoint drain (fuel : nat) (components : list ComponentSpec)
    (inDegrees : list Z) (queue : list nat) (ret : list ComponentSpec)
  : option (list ComponentSpec) :=
  match queue with
  | [] => Some ret
  | q :: queue' =>
      match fuel with
      | O => None
      | S fuel' =>
          match components !! q with
          | None => None
          | Some c =>
              let '(inDegrees', ready) := release (Name c) components inDegrees 0 in
              drain fuel' components inDegrees' (queue' ++ ready) (ret ++ [c])
          end
      end
  end.

(** Lines 616-623: the in-degrees and the first queue. *)
Definition initialDegrees (components : list ComponentSpec) : list Z :=
  map (fun c => Z.of_nat (length (Dependencies c))) components.

Fixpoint initialQueue (inDegrees : list Z) (i : nat) : list nat :=
  match inDegrees with
  | [] => []
  | d :: ds => if d =? 0 then i :: initialQueue ds (S i) else initialQueue ds (S i)
  end.

Definition sortError : error :=
  ForeignError "circular dependencies or unresolved dependencies detected in components".

(** [sortByDepedencies]: [Returns ret] for [(ret, nil)], [Fails] for
    [(nil, err)].  Each component enters the queue at most once, so
    [length components] rounds are enough ([sortByDepedencies_total]). *)
Definition sortByDepedencies (components : list ComponentSpec)
  : option (outcome (list ComponentSpec)) :=
  let size := length components in
  let inDegrees := initialDegrees components in
  let queue := initialQueue inDegrees 0 in
  match drain size components inDegrees queue [] with
  | None => None
  | Some ret =>
      if decide (length ret = size) then Some (Returns ret)
      else Some (Fails sortError)
  end.

(** The dependency graph of a list of components: an edge from each
    component to the components named in its [Dependencies]. *)
Definition dependency (components : list ComponentSpec) (c d : ComponentSpec) : Prop :=
  c ∈ components ∧ d ∈ components ∧ Name d ∈ Dependencies c.

Definition resolved (components : list ComponentSpec) : Prop :=
  ∀ c n, c ∈ components → n ∈ Dependencies c → ∃ d, d ∈ components ∧ Name d = n.

Definition acyclic (components : list ComponentSpec) : Prop :=
  ∀ c, ¬ tc (dependency components) c c.

(** The data model's conditions on a list of components: names are
    unique, and the dependencies of a component form a set. *)
Definition distinctNames (components : list ComponentSpec) : Prop :=
  NoDup (Name <$> components).

Definition dependencySets (components : list ComponentSpec) : Prop :=
  ∀ c, c ∈ components → NoDup (Dependencies c).

(** The components of the indices that left the queue. *)
Definition emitted (components : list ComponentSpec) (done : list nat)
  : list ComponentSpec :=
  omap (fun i => components !! i) done.

(** The loop keeps the in-degrees, the queue and the indices [done] that
    left the queue in this relation: no index is in the queue twice or
    again, and the indices that entered the queue are those whose
    in-degree is not positive. *)
Definition queueInvariant (components : list ComponentSpec) (inDegrees : list Z)
    (queue done : list nat) : Prop :=
  length inDegrees = length components
  ∧ NoDup (done ++ queue)
  ∧ (∀ i, i ∈ done ++ queue → (i < length components)%nat)
  ∧ (∀ i d, inDegrees !! i = Some d → (i ∈ done ++ queue ↔ d <= 0)).

(** The number of dependencies of [c] that are not among [names]. *)
Definition unmet (names : list string) (c : ComponentSpec) : Z :=
  Z.of_nat (length (filter (fun x => x ∉ names) (Dependencies c))).

Definition degreeInvariant (components : list ComponentSpec) (inDegrees : list Z)
    (ret : list ComponentSpec) : Prop :=
  ∀ i c d, components !! i = Some c → inDegrees !! i = Some d →
           d = unmet (Name <$> ret) c.

(** Every component comes after the components it depends on. *)
Definition dependencyOrdered (ret : list ComponentSpec) : Prop :=
  ∀ pre c post, ret = pre ++ c :: post →
    ∀ x, x ∈ Dependencies c → x ∈ (Name <$> pre).

(** What the loop keeps when names are distinct and dependencies are
    sets: an in-degree counts the dependencies that are not emitted yet,
    and the emitted list is in dependency order. *)
Definition sortInvariant (components : list ComponentSpec) (inDegrees : list Z)
    (queue : list nat) (ret : list ComponentSpec) : Prop :=
  ∃ popped, ret = emitted components popped
    ∧ queueInvariant components inDegrees queue popped
    ∧ degreeInvariant components inDegrees ret
    ∧ dependencyOrdered ret.

(** Topological completeness, as the specification words it. *)
Definition sortByDepedencies_as_specified : Prop :=
  ∀ components : list ComponentSpec,
    ((∃ ret, sortByDepedencies components = Some (Returns ret)
             ∧ ret ≡ₚ components ∧ length ret = length components)
     ↔ resolved components ∧ acyclic components)
    ∧ (¬ (resolved components ∧ acyclic components) →
       sortByDepedencies components = Some (Fails sortError)).

(** *** canSkipStep *)

Definition lookupRole (state : DeploymentState) (key : string) : string :=
  default "" (TargetComponent state !! key).

(** Lines 461-465: [true] when the loop reaches [return false]. *)
Fixpoint stillExists (currentComponents : list ComponentSpec) (name key : string)
    (state : DeploymentState) : bool :=
  match currentComponents with
  | [] => false
  | c :: cs =>
      if String.eqb (Name c) name && negb (String.eqb (lookupRole state key) "")
      then true
      else stillExists cs name key state
  end.

(** Lines 468-481: [true] when the step can still be skipped after this
    component, [false] when one of the two [return false] is reached. *)
Fixpoint unchanged (IsComponentChanged : ComponentSpec → ComponentSpec → bool)
    (currentComponents : list ComponentSpec) (desired : ComponentSpec)
    (key : string) (state : DeploymentState) : bool :=
  match currentComponents with
  | [] => false
  | c :: cs =>
      if String.eqb (Name c) (Name desired)
         && negb (String.eqb (lookupRole state key) "")
         && negb (HasPrefix (lookupRole state key) "-")
      then negb (IsComponentChanged c desired)
      else unchanged IsComponentChanged cs desired key state
  end.

Fixpoint canSkipComponents (IsComponentChanged : ComponentSpec → ComponentSpec → bool)
    (stepComponents : list ComponentStep) (target : string)
    (currentComponents : list ComponentSpec) (state : DeploymentState) : bool :=
  match stepComponents with
  | [] => true
  | newCom :: rest =>
      let key := componentKey (Name (Component newCom)) target in
      match Action newCom with
      | ComponentDelete =>
          if stillExists currentComponents (Name (Component newCom)) key state
          then false
          else canSkipComponents IsComponentChanged rest target currentComponents state
      | ComponentUpdate =>
          if unchanged IsComponentChanged currentComponents (Component newCom) key state
          then canSkipComponents IsComponentChanged rest target currentComponents state
          else false
      end
  end.

(** [canSkipStep]; [IsComponentChanged] is the rule that
    [provider.GetValidationRule(ctx)] returns. *)
Definition canSkipStep (step : DeploymentStep) (target : string)
    (IsComponentChanged : ComponentSpec → ComponentSpec → bool)
    (currentComponents : list ComponentSpec) (state : DeploymentState) : bool :=
  canSkipComponents IsComponentChanged (Components step) target currentComponents state.

(** What the specification requires of one entry of a step: for a
    delete, no current component of that name is bound to the target;
    for an update, some current component of that name is bound with a
    role that is not a tombstone, and the rule reports it unchanged. *)
Definition entrySkippable (IsComponentChanged : ComponentSpec → ComponentSpec → bool)
    (target : string) (currentComponents : list ComponentSpec)
    (state : DeploymentState) (newCom : ComponentStep) : Prop :=
  let key := componentKey (Name (Component newCom)) target in
  match Action newCom with
  | ComponentDelete =>
      ¬ ∃ c, c ∈ currentComponents ∧ Name c = Name (Component newCom)
             ∧ lookupRole state key ≠ ""
  | ComponentUpdate =>
      ∃ c, c ∈ currentComponents ∧ Name c = Name (Component newCom)
           ∧ lookupRole state key ≠ ""
           ∧ HasPrefix (lookupRole state key) "-" = false
           ∧ IsComponentChanged c (Component newCom) = false
  end.

(** The same with the update case read on the code: the component that
    the rule compares is the first one of that name. *)
Definition firstNamed (name : string) (currentComponents : list ComponentSpec)
  : option ComponentSpec :=
  List.find (fun c => String.eqb (Name c) name) currentComponents.

Definition entrySkippableFirst (IsComponentChanged : ComponentSpec → ComponentSpec → bool)
    (target : string) (currentComponents : list ComponentSpec)
    (state : DeploymentState) (newCom : ComponentStep) : Prop :=
  let key := componentKey (Name (Component newCom)) target in
  match Action newCom with
  | ComponentDelete =>
      ¬ ∃ c, c ∈ currentComponents ∧ Name c = Name (Component newCom)
             ∧ lookupRole state key ≠ ""
  | ComponentUpdate =>
      ∃ c, firstNamed (Name (Component newCom)) currentComponents = Some c
           ∧ lookupRole state key ≠ ""
           ∧ HasPrefix (lookupRole state key) "-" = false
           ∧ IsComponentChanged c (Component newCom) = false
  end.

(** Skip correctness, as the specification words it. *)
Definition canSkipStep_as_specified : Prop :=
  ∀ (IsComponentChanged : ComponentSpec → ComponentSpec → bool)
    (step : DeploymentStep) (target : string)
    (currentComponents : list ComponentSpec) (state : DeploymentState),
    canSkipStep step target IsComponentChanged currentComponents state = true
    ↔ ∀ newCom, newCom ∈ Components step →
        entrySkippable IsComponentChanged target currentComponents state newCom.

(** *** The collaborators of the manager

    [Reconcile] and [Get] call functions of other packages and methods
    of interfaces (state provider, target providers) that are not part
    of the sources at hand.  They are the fields of [Collaborators]; the
    world outside the manager (the state store, the targets, the clock)
    is a value of type [World] that every effectful call receives and
    returns. *)
Class Collaborators : Type := {
  World : Type;
  Provider : Type;                             (* [tgt.ITargetProvider] *)
  EvalContext : Type;                          (* [*utils.EvaluationContext] *)
  formatting :: Fmt;
  (* [err.Error()] *)
  ErrorText : error → string;
  (* pure functions of the package and of [api_utils] *)
  NewDeploymentState : DeploymentSpec → DeploymentState * option error;
  MergeDeploymentStates : DeploymentState → DeploymentState → DeploymentState;
  MarkRemoveAll : DeploymentState → DeploymentState;
  ClearAllRemoved : DeploymentState → DeploymentState;
  PlanForDeployment : DeploymentSpec → DeploymentState → DeploymentPlan * option error;
  MergeCollection : gmap string string → gmap string string → gmap string string;
  EvaluateDeployment : EvalContext → DeploymentSpec → string → DeploymentSpec * option error;
  (* a struct stored in an [interface{}], and [json.Unmarshal] of a
     marshalled body into a [SolutionManagerDeploymentState] *)
  boxManagerState : SolutionManagerDeploymentState → gval;
  boxSummaryResult : SummaryResult → gval;
  unmarshalManagerState : gval → option SolutionManagerDeploymentState;
  (* [IStateProvider]: [Get(ID, namespace)] and [Upsert] *)
  stateGet : string → string → World → StateEntry * option error;
  stateUpsert : UpsertRequest → World → World;
  (* [time.Now().UTC()] *)
  now : World → Z;
  (* target providers *)
  CreateProviderForTargetRole : string → TargetState → World → World * (Provider + error);
  providerGet : Provider → DeploymentSpec → list ComponentStep → World
                → World * (list ComponentSpec * option error);
  providerApply : Provider → DeploymentSpec → DeploymentStep → bool → World
                  → World * (gmap string ComponentResultSpec * option error);
  IsComponentChanged : Provider → ComponentSpec → ComponentSpec → bool
}.

(** The fields of [SolutionManager] that [Reconcile] and [Get] read. *)
Record SolutionManager `{Collaborators} : Type := mkManager {
  TargetProviders : gmap string Provider;
  IsTarget : bool;
  TargetNames : list string;
  EvaluationContext : option EvalContext       (* nil when there is no vendor context *)
}.
Arguments mkManager {_} _ _ _ _.

(** What a run does to the outside, in order: the calls to [saveSummary],
    to [Apply] (with the error returned) and to [StateProvider.Upsert] of
    the deployment state, and the steps that skip detection left out. *)
Inductive Event : Type :=
| EvSaveSummary (summary : SummarySpec)
| EvApply (step : DeploymentStep) (dep : DeploymentSpec) (err : option error)
| EvSkip (step : DeploymentStep)
| EvSaveState (state : SolutionManagerDeploymentState).

Record Run `{Collaborators} : Type := mkRun {
  world : World;
  events : list Event
}.
Arguments mkRun {_} _ _.

Definition namespaceMetadata (namespace : string) : gmap string gval :=
  {[ "namespace" := GStr namespace ]}.

(** Modelled from the spec: [api_utils.ContainsString], the membership
    test of the target-mode allow-list. *)
Definition ContainsString (names : list string) (name : string) : bool :=
  existsb (String.eqb name) names.

(** [getPreviousState]: [None] is the nil pointer. *)
Definition getPreviousState `{Collaborators} (instance namespace : string)
    (w : World) : option SolutionManagerDeploymentState :=
  match stateGet instance namespace w with
  | (state, None) => unmarshalManagerState (Body state)
  | (_, Some _) => None
  end.

(** [getTargetStateForStep]. *)
Definition getTargetStateForStep (step : DeploymentStep) (deployment : DeploymentSpec)
    (previousDeploymentState : option SolutionManagerDeploymentState) : TargetState :=
  match Targets deployment !! Target step with
  | Some targetSpec => targetSpec
  | None =>
      match previousDeploymentState with
      | Some previous => default zeroTargetState (Targets (Spec previous) !! Target step)
      | None => zeroTargetState
      end
  end.

(** [saveSummary]: the result of [Upsert] is dropped. *)
Definition saveSummary `{Collaborators} (deployment : DeploymentSpec)
    (summary : SummarySpec) (namespace : string) (σ : Run) : Run :=
  let request :=
    {| Value := mkStateEntry ("summary-" +:+ InstanceName deployment)
                  (boxSummaryResult
                     (mkSummaryResult summary (Generation deployment) (now (world σ))))
                  "";
       Metadata := namespaceMetadata namespace;
       Options := {| UpdateStateOnly := false |} |} in
  mkRun (stateUpsert request (world σ)) (events σ ++ [EvSaveSummary summary]).

(** [findAgent]. *)
Fixpoint findAgentIn `{Collaborators} (components : list ComponentSpec) : string :=
  match components with
  | [] => ""
  | c :: cs =>
      match Properties c !! ContainerImage with
      | Some v => if Contains (Sprint v) SYMPHONY_AGENT then Name c else findAgentIn cs
      | None => findAgentIn cs
      end
  end.

Definition findAgent `{Collaborators} (target : TargetState) : string :=
  findAgentIn (TargetSpecComponents target).

(** Lines 284-290 and 511-516: is the step left out by the target-mode
    allow-list or by [targetName]? *)
Definition filteredOut `{Collaborators} (s : SolutionManager) (targetName : string)
    (step : DeploymentStep) : bool :=
  (IsTarget s && negb (ContainsString (TargetNames s) (Target step)))
  || (negb (String.eqb targetName "") && negb (String.eqb targetName (Target step))).

(** *** Get *)

(** Lines 542-559: record the components observed on one target. *)
Fixpoint observe (components : list ComponentSpec) (target : string)
    (ret : DeploymentState) (retComponents : list ComponentSpec)
  : DeploymentState * list ComponentSpec :=
  match components with
  | [] => (ret, retComponents)
  | c :: cs =>
      let key := componentKey (Name c) target in
      let role := if String.eqb (Type_ c) "" then "container" else Type_ c in
      let ret' := mkDeploymentState (StateComponents ret)
                    (<[key := role]> (TargetComponent ret)) in
      let found := existsb (fun rc => String.eqb (Name rc) (Name c)) retComponents in
      observe cs target ret' (if found then retComponents else retComponents ++ [c])
  end.

(** Lines 510-560, the loop over the steps of the plan. *)
Fixpoint getSteps `{Collaborators} (s : SolutionManager) (targetName : string)
    (steps : list DeploymentStep) (deployment : DeploymentSpec)
    (ret : DeploymentState) (retComponents : list ComponentSpec) (w : World)
  : World * (DeploymentState * list ComponentSpec * option error) :=
  match steps with
  | [] => (w, (ret, retComponents, None))
  | step :: rest =>
      if filteredOut s targetName step
      then getSteps s targetName rest deployment ret retComponents w
      else
        let deployment := set_ActiveTarget (Target step) deployment in
        let created :=
          match TargetProviders s !! Target step with
          | Some override => (w, inl override)
          | None =>
              CreateProviderForTargetRole (Role step)
                (default zeroTargetState (Targets deployment !! Target step)) w
          end in
        match created with
        | (w1, inr err) => (w1, (ret, [], Some err))
        | (w1, inl provider) =>
            match providerGet provider deployment (Components step) w1 with
            | (w2, (_, Some err)) => (w2, (ret, [], Some err))
            | (w2, (components, None)) =>
                let '(ret', retComponents') :=
                  observe components (Target step) ret retComponents in
                getSteps s targetName rest deployment ret' retComponents' w2
            end
        end
  end.

(** [Get]. *)
Definition Get `{Collaborators} (s : SolutionManager) (deployment : DeploymentSpec)
    (targetName : string) (w : World)
  : World * (DeploymentState * list ComponentSpec * option error) :=
  let zero := mkDeploymentState [] ∅ in
  match NewDeploymentState deployment with
  | (_, Some err) => (w, (zero, [], Some err))
  | (state, None) =>
      match PlanForDeployment deployment state with
      | (_, Some err) => (w, (zero, [], Some err))
      | (plan, None) =>
          getSteps s targetName (Steps plan) deployment
            (mkDeploymentState (StateComponents state) ∅) [] w
      end
  end.

(** *** Reconcile *)

(** Line 328. *)
Definition retryCount : nat := 1.

(** The variables of [Reconcile] that the loop over the steps updates.
    [col] is the map that [dep.Instance.Spec.Metadata] refers to. *)
Record LoopVars : Type := mkLoop {
  summary : SummarySpec;
  targetResult : gmap string Z;
  plannedCount : Z;
  planSuccessCount : Z;
  someStepsRan : bool;
  col : gmap string string
}.

(** Lines 372-375 and 417-420: the sum of the values of [targetResult]. *)
Definition sumResults (targetResult : gmap string Z) : Z :=
  map_fold (fun _ v acc => acc + v) 0 targetResult.

(** The loop over the steps either goes on or returns from [Reconcile]. *)
Inductive Flow `{Collaborators} : Type :=
| Continue (v : LoopVars) (σ : Run)
| Return (summary : SummarySpec) (err : error) (σ : Run).

(** Lines 355-368, the retry loop with [n] attempts left;
    [componentResults] and [stepError] are the variables of lines 331-332
    ([time.Sleep] has no effect on the result). *)
Fixpoint attempts `{Collaborators} (n : nat) (provider : Provider)
    (dep : DeploymentSpec) (step : DeploymentStep)
    (componentResults : gmap string ComponentResultSpec) (stepError : option error)
    (v : LoopVars) (σ : Run)
  : gmap string ComponentResultSpec * option error * LoopVars * Run :=
  match n with
  | O => (componentResults, stepError, v, σ)
  | S n' =>
      let '(w, (componentResults, stepError)) :=
        providerApply provider dep step false (world σ) in
      let σ := mkRun w (events σ ++ [EvApply step dep stepError]) in
      match stepError with
      | None =>
          let summary :=
            UpdateTargetResult (Target step) (mkTargetResult "OK" "" componentResults)
              (set_AllAssignedDeployed (plannedCount v =? planSuccessCount v) (summary v)) in
          (componentResults, None,
           mkLoop summary (<[Target step := 1]> (targetResult v)) (plannedCount v)
                  (planSuccessCount v) (someStepsRan v) (col v),
           σ)
      | Some e =>
          let summary :=
            UpdateTargetResult (Target step)
              (mkTargetResult "Error" (ErrorText e) componentResults)
              (set_AllAssignedDeployed false (summary v)) in
          attempts n' provider dep step componentResults (Some e)
            (mkLoop summary (<[Target step := 0]> (targetResult v)) (plannedCount v)
                    (planSuccessCount v) (someStepsRan v) (col v))
            σ
      end
  end.

(** Lines 284-382, the body of the loop for one step. *)
Definition reconcileStep `{Collaborators} (s : SolutionManager)
    (deployment : DeploymentSpec) (namespace targetName : string)
    (previousDesiredState : option SolutionManagerDeploymentState)
    (currentState : DeploymentState)
    (step : DeploymentStep) (v : LoopVars) (σ : Run) : Flow :=
  if filteredOut s targetName step then Continue v σ
  else
    let plannedCount := plannedCount v + 1 in
    let agent := findAgent (default zeroTargetState (Targets deployment !! Target step)) in
    let col := if negb (String.eqb agent "")
               then <[ENV_NAME := agent]> (col v)
               else delete ENV_NAME (col v) in
    let dep := set_ActiveTarget (Target step) (set_InstanceMetadata col deployment) in
    let created :=
      match TargetProviders s !! Target step with
      | Some override => (world σ, inl override)
      | None =>
          CreateProviderForTargetRole (Role step)
            (getTargetStateForStep step deployment previousDesiredState) (world σ)
      end in
    match created with
    | (w1, inr err) =>
        let summary :=
          set_SummaryMessage ("failed to create provider:" +:+ ErrorText err) (summary v) in
        Return summary err (saveSummary deployment summary namespace (mkRun w1 (events σ)))
    | (w1, inl provider) =>
        let skip :=
          match previousDesiredState with
          | Some previous =>
              let testState := MergeDeploymentStates (DState previous) currentState in
              canSkipStep step (Target step) (IsComponentChanged provider)
                (StateComponents (DState previous)) testState
          | None => false
          end in
        if skip
        then Continue (mkLoop (summary v) (<[Target step := 1]> (targetResult v))
                         plannedCount (planSuccessCount v + 1) (someStepsRan v) col)
                      (mkRun w1 (events σ ++ [EvSkip step]))
        else
          let v1 := mkLoop (summary v) (targetResult v) plannedCount
                      (planSuccessCount v) true col in
          let '(_, stepError, v2, σ2) :=
            attempts retryCount provider dep step ∅ None v1 (mkRun w1 (events σ)) in
          match stepError with
          | Some e =>
              let summary :=
                set_AllAssignedDeployed (plannedCount =? planSuccessCount v2)
                  (set_SuccessCount (sumResults (targetResult v2)) (summary v2)) in
              Return summary e (saveSummary deployment summary namespace σ2)
          | None =>
              Continue (mkLoop (summary v2) (targetResult v2) (Solution.plannedCount v2)
                          (planSuccessCount v2 + 1) (someStepsRan v2) (Solution.col v2))
                       σ2
          end
    end.

(** Lines 283-383, the loop over [plan.Steps]. *)
Fixpoint reconcileSteps `{Collaborators} (s : SolutionManager)
    (deployment : DeploymentSpec) (namespace targetName : string)
    (previousDesiredState : option SolutionManagerDeploymentState)
    (currentState : DeploymentState)
    (steps : list DeploymentStep) (v : LoopVars) (σ : Run) : Flow :=
  match steps with
  | [] => Continue v σ
  | step :: rest =>
      match reconcileStep s deployment namespace targetName previousDesiredState
              currentState step v σ with
      | Continue v' σ' =>
          reconcileSteps s deployment namespace targetName previousDesiredState
            currentState rest v' σ'
      | Return summary err σ' => Return summary err σ'
      end
  end.

(** Lines 219-226: the deployment after evaluation, with its error. *)
Definition evaluate `{Collaborators} (s : SolutionManager) (deployment : DeploymentSpec)
    (namespace : string) : DeploymentSpec * option error :=
  match EvaluationContext s with
  | Some context => EvaluateDeployment context deployment namespace
  | None => (deployment, None)
  end.

(** Lines 255-262: the desired state. *)
Definition desiredStateOf `{Collaborators}
    (previousDesiredState : option SolutionManagerDeploymentState)
    (currentDesiredState : DeploymentState) (remove : bool) : DeploymentState :=
  let desiredState :=
    match previousDesiredState with
    | Some previous => MergeDeploymentStates (DState previous) currentDesiredState
    | None => currentDesiredState
    end in
  if remove then MarkRemoveAll desiredState else desiredState.

(** What lines 212-272 hand over to the loop. *)
Record Prepared `{Collaborators} : Type := mkPrepared {
  evaluated : DeploymentSpec;
  previous : option SolutionManagerDeploymentState;
  observed : DeploymentState;                  (* [currentState] *)
  desired : DeploymentState;                   (* [desiredState] *)
  merged : DeploymentState;                    (* [mergedState] *)
  plan : DeploymentPlan;
  first : SummarySpec;                         (* [summary] of line 212 *)
  before : World
}.
Arguments mkPrepared {_} _ _ _ _ _ _ _ _.

Definition newSummary (deployment : DeploymentSpec) : SummarySpec :=
  mkSummary (Z.of_nat (size (Targets deployment))) 0 ∅ "" false false false.

Definition failWith `{Collaborators} (deployment : DeploymentSpec)
    (summary : SummarySpec) (message : string) (err : error) (namespace : string)
    (w : World) : Run * (SummarySpec * option error) :=
  let summary := set_SummaryMessage (message +:+ ErrorText err) summary in
  (saveSummary deployment summary namespace (mkRun w []), (summary, Some err)).

(** Lines 212-272: everything before the loop; [inl] is an early return. *)
Definition prepare `{Collaborators} (s : SolutionManager) (deployment : DeploymentSpec)
    (remove : bool) (namespace targetName : string) (w : World)
  : Run * (SummarySpec * option error) + Prepared :=
  let summary := newSummary deployment in
  let '(deployment, err) := evaluate s deployment namespace in
  match (if remove then None else err) with
  | Some e =>
      inl (failWith deployment summary "failed to evaluate deployment spec: " e namespace w)
  | None =>
      let previousDesiredState := getPreviousState (InstanceName deployment) namespace w in
      match NewDeploymentState deployment with
      | (_, Some e) =>
          inl (failWith deployment summary
                 "failed to create target manager state from deployment spec: " e namespace w)
      | (currentDesiredState, None) =>
          match Get s deployment targetName w with
          | (w1, (_, _, Some e)) =>
              inl (failWith deployment summary "failed to get current state: " e namespace w1)
          | (w1, (currentState, _, None)) =>
              let desiredState :=
                desiredStateOf previousDesiredState currentDesiredState remove in
              let mergedState := MergeDeploymentStates currentState desiredState in
              match PlanForDeployment deployment mergedState with
              | (_, Some e) =>
                  inl (failWith deployment summary "failed to plan for deployment: " e
                         namespace w1)
              | (plan, None) =>
                  inr (mkPrepared deployment previousDesiredState currentState
                         desiredState mergedState plan summary w1)
              end
          end
      end
  end.

(** Lines 385-425: after the loop. *)
Definition finish `{Collaborators} (p : Prepared) (remove : bool) (namespace : string)
    (v : LoopVars) (σ : Run) : Run * (SummarySpec * option error) :=
  let deployment := evaluated p in
  let mergedState := ClearAllRemoved (merged p) in
  let managerState := mkManagerState deployment mergedState in
  let request :=
    {| Value := mkStateEntry (InstanceName deployment) (boxManagerState managerState) "";
       Metadata := namespaceMetadata namespace;
       Options := {| UpdateStateOnly := false |} |} in
  let σ := mkRun (stateUpsert request (world σ)) (events σ ++ [EvSaveState managerState]) in
  let summary := set_Skipped (negb (someStepsRan v)) (summary v) in
  let summary := if Skipped summary
                 then set_SuccessCount (TargetCount summary) summary
                 else summary in
  let summary := set_IsRemoval remove summary in
  let successCount := sumResults (targetResult v) in
  let summary := set_SuccessCount successCount summary in
  let summary := set_AllAssignedDeployed (plannedCount v =? planSuccessCount v) summary in
  (saveSummary deployment summary namespace σ, (summary, None)).

(** Lines 274-383: the loop, started from the prepared values. *)
Definition execute `{Collaborators} (s : SolutionManager) (p : Prepared)
    (namespace targetName : string) : Flow :=
  let deployment := evaluated p in
  let col := MergeCollection (SolutionMetadata deployment) (InstanceMetadata deployment) in
  reconcileSteps s deployment namespace targetName (previous p) (observed p)
    (Steps (plan p)) (mkLoop (first p) ∅ 0 0 false col) (mkRun (before p) []).

(** [Reconcile].  The lock, the heartbeat goroutine, the tracing span and
    the log lines have no effect on what is returned or stored. *)
Definition Reconcile `{Collaborators} (s : SolutionManager) (deployment : DeploymentSpec)
    (remove : bool) (namespace targetName : string) (w : World)
  : Run * (SummarySpec * option error) :=
  match prepare s deployment remove namespace targetName w with
  | inl returned => returned
  | inr p =>
      match execute s p namespace targetName with
      | Return summary err σ => (σ, (summary, Some err))
      | Continue v σ => finish p remove namespace v σ
      end
  end.


(** The steps that a run applied, and the steps it skipped. *)
Definition appliedSteps (evs : list Event) : list DeploymentStep :=
  omap (fun ev => match ev with EvApply step _ _ => Some step | _ => None end) evs.

Definition skippedSteps (evs : list Event) : list DeploymentStep :=
  omap (fun ev => match ev with EvSkip step => Some step | _ => None end) evs.

(** The steps of a plan that the loop counts in [plannedCount]. *)
Definition plannedSteps `{Collaborators} (s : SolutionManager) (targetName : string)
    (steps : list DeploymentStep) : list DeploymentStep :=
  filter (fun step => filteredOut s targetName step = false) steps.

(** *** Init *)

(** The results of the calls that [Init] makes outside the sources at
    hand: [Manager.Init], [GetStateProvider], [GetExtConfigProvider] and
    [GetSecretProvider] ([None] for a nil error). *)
Record InitCalls : Type := {
  managerInit : option error;
  getStateProvider : option error;
  getExtConfigProvider : option error;
  getSecretProvider : option error
}.

Definition targetModeError : error :=
  ForeignError "target mode is set but target name is not set".

(** [Init]: the manager after the call, and the error.  [properties] is
    [config.Properties]; a provider of [providers] that is a target
    provider is [Some] of it; [env] is the value of
    [SYMPHONY_TARGET_NAME]. *)
Definition Init `{Collaborators} (calls : InitCalls) (properties : gmap string string)
    (providers : gmap string (option Provider)) (env : string) (s : SolutionManager)
  : SolutionManager * option error :=
  match managerInit calls with
  | Some err => (s, Some err)
  | None =>
      let s := mkManager (omap id providers) (IsTarget s) (TargetNames s)
                 (EvaluationContext s) in
      match getStateProvider calls with
      | Some err => (s, Some err)
      | None =>
          match getExtConfigProvider calls with
          | Some err => (s, Some err)
          | None =>
              match getSecretProvider calls with
              | Some err => (s, Some err)
              | None =>
                  let isTarget :=
                    match properties !! "isTarget" ≫= Strconv.ParseBool with
                    | Some b => b
                    | None => IsTarget s
                    end in
                  let targetNames :=
                    match properties !! "targetNames" with
                    | Some v => Strings.Split v ","
                    | None => TargetNames s
                    end in
                  let targetNames :=
                    if isTarget && (length targetNames =? 0)%nat
                       && negb (String.eqb env "")
                    then Strings.Split env ","
                    else targetNames in
                  let s := mkManager (TargetProviders s) isTarget targetNames
                             (EvaluationContext s) in
                  if isTarget && (length targetNames =? 0)%nat
                  then (s, Some targetModeError)
                  else (s, None)
              end
          end
      end
  end.

(** The steps that a run went through, applied or skipped, in order. *)
Definition stepOf (ev : Event) : option DeploymentStep :=
  match ev with
  | EvApply step _ _ => Some step
  | EvSkip step => Some step
  | _ => None
  end.

Definition processedSteps (evs : list Event) : list DeploymentStep := omap stepOf evs.

(** Lines 274-300: the metadata that [Apply] receives for a step on
    [target]: the merged collection, in which [SYMPHONY_AGENT_ADDRESS]
    names the agent of the target, or is absent when the target has no
    agent. *)
Definition stepMetadata `{Collaborators} (deployment : DeploymentSpec) (target : string)
  : gmap string string :=
  let col := MergeCollection (SolutionMetadata deployment) (InstanceMetadata deployment) in
  let agent := findAgent (default zeroTargetState (Targets deployment !! target)) in
  if String.eqb agent "" then delete ENV_NAME col else <[ENV_NAME := agent]> col.

(** The deployment that [Apply] receives for a step on [target]: [dep]
    of line 275, with the active target of line 294. *)
Definition stepDeployment `{Collaborators} (deployment : DeploymentSpec) (target : string)
  : DeploymentSpec :=
  set_ActiveTarget target (set_InstanceMetadata (stepMetadata deployment target) deployment).

(** The events of the loop over the steps: a skip, or an [Apply] with
    the deployment of its step. *)
Definition stepEvent `{Collaborators} (deployment : DeploymentSpec) (ev : Event) : Prop :=
  match ev with
  | EvSkip _ => True
  | EvApply step dep _ => dep = stepDeployment deployment (Target step)
  | _ => False
  end.

(** The targets of a list of steps. *)
Definition targetsOf (steps : list DeploymentStep) : gset string :=
  list_to_set (Target <$> steps).

(** What the loop keeps true of its variables at the start of every
    round: as many steps planned as succeeded, a summary that is not
    flagged as deployed, and a collection that differs from the merged
    one at most in the address of the agent. *)
Definition loopInvariant `{Collaborators} (deployment : DeploymentSpec) (v : LoopVars)
  : Prop :=
  plannedCount v = planSuccessCount v
  ∧ AllAssignedDeployed (summary v) = false
  ∧ ∀ k, k ≠ ENV_NAME →
      col v !! k
      = MergeCollection (SolutionMetadata deployment) (InstanceMetadata deployment) !! k.

End Solution.

(** ** The MQTT target provider *)

Module Mqtt.

(** [v1alpha2.COAResponse], after [json.Unmarshal] of the message. *)
Record COAResponse : Type := {
  RState : State;                              (* [State] *)
  RBody : string;                              (* [Body], as [string(response.Body)] *)
  RMetadata : gmap string string               (* [Metadata] *)
}.

Record ProxyResponse : Type := mkProxy {
  IsOK : bool;
  PState : State;                              (* [State] *)
  Payload : gval
}.

(** The five channels of the provider. *)
Inductive Channel : Type :=
| GetChan | RemoveChan | NeedsUpdateChan | NeedsRemoveChan | ApplyChan.

(** The handler of the response topic (lines 146-176): the channel that
    receives the response, if any.  [decodeComponents] is
    [json.Unmarshal] of the body into a component list, whose error is
    only logged. *)
Definition onResponse (decodeComponents : string → gval) (response : COAResponse)
  : option (Channel * ProxyResponse) :=
  let isOK := State_eqb (RState response) OK || State_eqb (RState response) Accepted in
  let proxyResponse :=
    mkProxy isOK (RState response) (if isOK then GNil else GStr (RBody response)) in
  match default "" (RMetadata response !! "call-context") with
  | "TargetProvider-Get" =>
      Some (GetChan,
            if isOK then mkProxy isOK (RState response) (decodeComponents (RBody response))
            else proxyResponse)
  | "TargetProvider-Remove" => Some (RemoveChan, proxyResponse)
  | "TargetProvider-NeedsUpdate" => Some (NeedsUpdateChan, proxyResponse)
  | "TargetProvider-NeedsRemove" => Some (NeedsRemoveChan, proxyResponse)
  | "TargetProvider-Apply" => Some (ApplyChan, proxyResponse)
  | _ => None
  end.

(** [8 * time.Second], in nanoseconds. *)
Definition deadline : Z := 8 * 1000000000.

(** What the [select] of lines 382-391 sees. *)
Inductive Waited : Type :=
| Received (resp : ProxyResponse)
| TimedOut.

(** The [select] between the channel and the timer.  [arrival] is the
    response sent on the channel and the time of the send, counted from
    the start of the timer; [None] when nothing is sent.  When both
    cases are ready at once Go picks one of them: [pick] is that choice. *)
Definition awaitResponse (arrival : option (Z * ProxyResponse)) (pick : bool) : Waited :=
  match arrival with
  | None => TimedOut
  | Some (t, resp) =>
      if t <? deadline then Received resp
      else if t =? deadline then (if pick then Received resp else TimedOut)
      else TimedOut
  end.

Definition applyTimeoutMessage : string :=
  "didn't get response to Apply() call over MQTT".

(** [Apply]: [published] is [token.Error()] of the publish ([None] for
    nil), the result is the returned error ([None] for nil). *)
Definition Apply `{Fmt} (published : option error)
    (arrival : option (Z * ProxyResponse)) (pick : bool) : option error :=
  match published with
  | Some tokenError => Some tokenError
  | None =>
      match awaitResponse arrival pick with
      | Received resp =>
          if IsOK resp then None
          else Some (NewCOAError (Sprint (Payload resp)) (PState resp))
      | TimedOut => Some (NewCOAError applyTimeoutMessage InternalError)
      end
  end.

(** [Remove]: as [Apply], on the Remove channel. *)
Definition removeTimeoutMessage : string :=
  "didn't get response to Remove() call over MQTT".

Definition Remove `{Fmt} (published : option error)
    (arrival : option (Z * ProxyResponse)) (pick : bool) : option error :=
  match published with
  | Some tokenError => Some tokenError
  | None =>
      match awaitResponse arrival pick with
      | Received resp =>
          if IsOK resp then None
          else Some (NewCOAError (Sprint (Payload resp)) (PState resp))
      | TimedOut => Some (NewCOAError removeTimeoutMessage InternalError)
      end
  end.

(** [NeedsUpdate] and [NeedsRemove], which differ in the route, in the
    call context of the request and in the channel they wait on. *)
Definition needs (published : option error)
    (arrival : option (Z * ProxyResponse)) (pick : bool) : bool :=
  match published with
  | Some _ => false
  | None =>
      match awaitResponse arrival pick with
      | Received resp => if IsOK resp then true else false
      | TimedOut => false
      end
  end.

Definition NeedsUpdate := needs.
Definition NeedsRemove := needs.

(** The call context that the handler routes to a channel. *)
Definition callContext (channel : Channel) : string :=
  match channel with
  | GetChan => "TargetProvider-Get"
  | RemoveChan => "TargetProvider-Remove"
  | NeedsUpdateChan => "TargetProvider-NeedsUpdate"
  | NeedsRemoveChan => "TargetProvider-NeedsRemove"
  | ApplyChan => "TargetProvider-Apply"
  end.

(** [MQTTTargetProviderConfig] and [MQTTTargetProviderConfigFromMap]:
    the configuration read so far is returned beside the error. *)
Record MQTTTargetProviderConfig : Type := mkConfig {
  ConfigName : string;                         (* [Name] *)
  BrokerAddress : string;
  ClientID : string;
  RequestTopic : string;
  ResponseTopic : string
}.

Definition missingConfig (key : string) : error :=
  NewCOAError ("'" +:+ key +:+ "' is missing in MQTT provider config") BadConfig.

Definition MQTTTargetProviderConfigFromMap (properties : gmap string string)
  : MQTTTargetProviderConfig * option error :=
  let name := default "" (properties !! "name") in
  match properties !! "brokerAddress" with
  | None => (mkConfig name "" "" "" "", Some (missingConfig "brokerAdress"))
  | Some broker =>
      match properties !! "clientID" with
      | None => (mkConfig name broker "" "" "", Some (missingConfig "clientID"))
      | Some client =>
          match properties !! "requestTopic" with
          | None => (mkConfig name broker client "" "", Some (missingConfig "requestTopic"))
          | Some request =>
              match properties !! "responseTopic" with
              | None =>
                  (mkConfig name broker client request "",
                   Some (missingConfig "responseTopic"))
              | Some response => (mkConfig name broker client request response, None)
              end
          end
      end
  end.

End Mqtt.

(** ** instance_reconciler.go: the update path *)

Module InstanceReconciler.
Import Model.

(** Modelled from the spec: [v1alpha2.IsNotFound], which tells the
    recoverable-absent [NotFound] from the other error kinds. *)
Definition IsNotFound (e : error) : bool :=
  match e with
  | NewCOAError _ NotFound => true
  | _ => false
  end.

(** Lines 113-116. *)
Definition generationMatch (summaryGeneration : string) (generation : Z) : bool :=
  match Strconv.ParseInt summaryGeneration with
  | Some v => v =? generation
  | None => true
  end.

(** [time.Duration(60) * time.Second], in nanoseconds. *)
Definition interval : Z := 60 * 1000000000.

(** The calls that the update path makes after the summary is fetched. *)
Inductive Call : Type :=
| UpdateInstanceStatus (summary : SummarySpec)
| UpdateInstanceStatusToReconciling (err : option error)
| QueueJob.

(** The answers of the API server and of the job queue. *)
Record Answers : Type := {
  updateStatus : option error;                 (* [updateInstanceStatus] *)
  updateReconciling : option error;            (* [updateInstanceStatusToReconciling] *)
  queueJob : option error                      (* [api_utils.QueueJob] *)
}.

(** [ctrl.Result]: [Some d] is [RequeueAfter: d]. *)
Definition Result : Type := option Z.

(** Lines 104-149 of [Reconcile]: [fetched] is what [GetSummary] returns,
    [generation] is [instance.GetGeneration()], [elapsed] is
    [time.Since(summary.Time)]. *)
Definition updatePath (fetched : SummaryResult * option error) (generation : Z)
    (elapsed : Z) (env : Answers) : list Call * (Result * option error) :=
  let '(summary, err) := fetched in
  match (match err with
         | Some e => if IsNotFound e then None else Some e
         | None => None
         end) with
  | Some e =>
      match updateReconciling env with
      | Some uErr => ([UpdateInstanceStatusToReconciling (Some e)], (None, Some uErr))
      | None => ([UpdateInstanceStatusToReconciling (Some e)], (None, Some e))
      end
  | None =>
      let generationMatch := generationMatch (SummaryGeneration summary) generation in
      if generationMatch && (elapsed <=? interval)
      then
        match updateStatus env with
        | Some e => ([UpdateInstanceStatus (Summary summary)], (None, Some e))
        | None => ([UpdateInstanceStatus (Summary summary)], (Some interval, None))
        end
      else
        match queueJob env with
        | Some e =>
            match updateReconciling env with
            | Some uErr =>
                ([QueueJob; UpdateInstanceStatusToReconciling (Some e)], (None, Some uErr))
            | None =>
                ([QueueJob; UpdateInstanceStatusToReconciling (Some e)], (None, Some e))
            end
        | None =>
            if negb generationMatch
            then
              match updateReconciling env with
              | Some e => ([QueueJob; UpdateInstanceStatusToReconciling None], (None, Some e))
              | None =>
                  ([QueueJob; UpdateInstanceStatusToReconciling None], (Some interval, None))
              end
            else ([QueueJob], (Some interval, None))
        end
  end.

(** *** The removal path (lines 151-185) *)

Inductive RemovalCall : Type :=
| QueueDeleteJob                               (* [QueueJob] with [isDelete] *)
| ToReconciling (err : error)                  (* [updateInstanceStatusToReconciling] *)
| PollSummary                                  (* [GetSummary] on a tick *)
| RemoveFinalizer
| UpdateInstance.                              (* [r.Client.Update] *)

(** The answers on the removal path.  [polls] are the answers of
    [GetSummary] on the ticks of the 10 second ticker that the [select]
    takes before the timeout of 5 minutes. *)
Record RemovalAnswers : Type := {
  deleteJob : option error;
  toReconciling : option error;
  polls : list (SummaryResult * option error);
  updateInstance : option error
}.

(** Line 172: does the summary confirm the removal? *)
Definition confirmsRemoval (answer : SummaryResult * option error) : bool :=
  match answer with
  | (summary, None) =>
      IsRemoval (Summary summary)
      && (SuccessCount (Summary summary) =? TargetCount (Summary summary))
  | (_, Some _) => false
  end.

(** Lines 164-176: the polls made until one confirms the removal, or
    until the timeout ends the loop. *)
Fixpoint pollUntilRemoved (answers : list (SummaryResult * option error))
  : list RemovalCall :=
  match answers with
  | [] => []
  | answer :: rest =>
      PollSummary :: (if confirmsRemoval answer then [] else pollUntilRemoved rest)
  end.

(** Lines 151-187: [hasFinalizer] is
    [controllerutil.ContainsFinalizer(instance, myFinalizerName)]. *)
Definition removalPath (hasFinalizer : bool) (env : RemovalAnswers)
  : list RemovalCall * (Result * option error) :=
  if hasFinalizer then
    match deleteJob env with
    | Some err =>
        match toReconciling env with
        | Some uErr => ([QueueDeleteJob; ToReconciling err], (None, Some uErr))
        | None => ([QueueDeleteJob; ToReconciling err], (None, Some err))
        end
    | None =>
        let calls :=
          QueueDeleteJob :: pollUntilRemoved (polls env)
          ++ [RemoveFinalizer; UpdateInstance] in
        match updateInstance env with
        | Some err => (calls, (None, Some err))
        | None => (calls, (None, None))
        end
    end
  else ([], (None, None)).

End InstanceReconciler.

(** ** A reference set of collaborators

    An instance of [Collaborators] that follows the specification's
    description of the state model and of the planner, with the
    in-memory state provider as the state store.  The properties of
    [Reconcile] are proved for every instance; this one gives the
    concrete runs on which they are exercised. *)

Module Reference.
Import States Model Solution.

(** The outside world: the state store, the clock, the targets on which
    a step has been applied, and the targets that cannot be reached. *)
Record Outside : Type := mkOutside {
  store : MemoryState.MemoryStateProvider;
  clock : Z;
  deployed : gset string;
  unreachable : gset string
}.

(** The JSON form of the persisted manager state. *)
Definition boxStrings (m : gmap string string) : gval := GMap (GStr <$> m).

Definition boxComponent (c : ComponentSpec) : gval :=
  GStruct [("name", GStr (Name c)); ("type", GStr (Type_ c));
           ("properties", GMap (Properties c));
           ("dependencies", GSlice (map GStr (Dependencies c)))].

Definition boxTarget (t : TargetState) : gval :=
  GStruct [("components", GSlice (map boxComponent (TargetSpecComponents t)));
           ("binding", TargetBinding t)].

Definition boxDeployment (d : DeploymentSpec) : gval :=
  GStruct [("instance", GStr (InstanceName d));
           ("instanceMetadata", boxStrings (InstanceMetadata d));
           ("solutionMetadata", boxStrings (SolutionMetadata d));
           ("components", GSlice (map boxComponent (SolutionComponents d)));
           ("targets", GMap (boxTarget <$> Targets d));
           ("generation", GStr (Generation d));
           ("activeTarget", GStr (ActiveTarget d))].

Definition boxState (st : DeploymentState) : gval :=
  GStruct [("components", GSlice (map boxComponent (StateComponents st)));
           ("targetComponent", boxStrings (TargetComponent st))].

Definition boxManager (m : SolutionManagerDeploymentState) : gval :=
  GStruct [("spec", boxDeployment (Spec m)); ("state", boxState (DState m))].

Definition field (v : gval) (k : string) : option gval :=
  match v with GMap m => m !! k | _ => None end.

Definition readString (v : gval) : option string :=
  match v with GStr s => Some s | _ => None end.

Definition readStrings (v : gval) : option (gmap string string) :=
  match v with GMap m => Some (omap readString m) | _ => None end.

Definition readList {A} (f : gval → option A) (v : gval) : option (list A) :=
  match v with GSlice l => mapM f l | _ => None end.

Definition readComponent (v : gval) : option ComponentSpec :=
  n ← field v "name" ≫= readString;
  t ← field v "type" ≫= readString;
  p ← field v "properties" ≫= (fun x => match x with GMap m => Some m | _ => None end);
  d ← field v "dependencies" ≫= readList readString;
  Some (mkComponent n t p d).

Definition readTarget (v : gval) : option TargetState :=
  c ← field v "components" ≫= readList readComponent;
  b ← field v "binding";
  Some (mkTargetState c b).

Definition readDeployment (v : gval) : option DeploymentSpec :=
  i ← field v "instance" ≫= readString;
  im ← field v "instanceMetadata" ≫= readStrings;
  sm ← field v "solutionMetadata" ≫= readStrings;
  c ← field v "components" ≫= readList readComponent;
  t ← field v "targets" ≫= (fun x => match x with GMap m => Some (omap readTarget m) | _ => None end);
  g ← field v "generation" ≫= readString;
  a ← field v "activeTarget" ≫= readString;
  Some (mkDeployment i im sm c t g a).

Definition readState (v : gval) : option DeploymentState :=
  c ← field v "components" ≫= readList readComponent;
  t ← field v "targetComponent" ≫= readStrings;
  Some (mkDeploymentState c t).

Definition readManager (v : gval) : option SolutionManagerDeploymentState :=
  d ← field v "spec" ≫= readDeployment;
  st ← field v "state" ≫= readState;
  Some (mkManagerState d st).

Definition boxResult (r : SummaryResult) : gval :=
  GStruct [("generation", GStr (SummaryGeneration r)); ("time", GNum (Time r));
           ("successCount", GNum (SuccessCount (Summary r)));
           ("targetCount", GNum (TargetCount (Summary r)))].

(** Modelled from the spec: [NewDeploymentState] of the state model of
    section 4.3, whose code is not part of the sources at hand: an empty
    role for each pair of a component and a target. *)
Definition newState (d : DeploymentSpec) : DeploymentState * option error :=
  (mkDeploymentState (SolutionComponents d)
     (list_to_map
        (c ← SolutionComponents d;
         t ← map fst (map_to_list (Targets d));
         [(componentKey (Name c) t, "")])),
   None).

(** Modelled from the spec: [MergeDeploymentStates(a, b)], the union of
    both states, [b] winning on a key of both. *)
Definition mergeStates (a b : DeploymentState) : DeploymentState :=
  mkDeploymentState
    (StateComponents b ++
     filter (fun c => existsb (fun c' => String.eqb (Name c') (Name c)) (StateComponents b) = false)
            (StateComponents a))
    (TargetComponent b ∪ TargetComponent a).

(** Modelled from the spec: [MarkRemoveAll], which prefixes every role
    with ["-"]. *)
Definition markRemoveAll (st : DeploymentState) : DeploymentState :=
  mkDeploymentState (StateComponents st) ((fun r => "-" +:+ r) <$> TargetComponent st).

(** Modelled from the spec: [ClearAllRemoved], which drops the entries
    whose role begins with ["-"]. *)
Definition clearAllRemoved (st : DeploymentState) : DeploymentState :=
  mkDeploymentState (StateComponents st)
    (filter (fun kv => HasPrefix (snd kv) "-" = false) (TargetComponent st)).

(** Modelled from the spec: the planner of section 4.4
    ([PlanForDeployment]), whose code is not part of the sources at
    hand: one step per target, its components in dependency order, a
    tombstone giving a delete. *)
Definition planTarget (st : DeploymentState) (t : string)
  : option (list DeploymentStep) :=
  let assigned :=
    filter (fun c => is_Some (TargetComponent st !! componentKey (Name c) t))
           (StateComponents st) in
  match sortByDepedencies assigned with
  | Some (Returns sorted) =>
      Some (if decide (sorted = []) then []
            else [mkStep t
                    (map (fun c =>
                            mkComponentStep
                              (if HasPrefix (lookupRole st (componentKey (Name c) t)) "-"
                               then ComponentDelete else ComponentUpdate) c)
                         sorted)
                    "reference"])
  | _ => None
  end.

(** Modelled from the spec: [PlanForDeployment], the steps of all
    targets, or the error of the sort. *)
Definition planFor (d : DeploymentSpec) (st : DeploymentState)
  : DeploymentPlan * option error :=
  match mapM (planTarget st) (map fst (map_to_list (Targets d))) with
  | Some steps => ({| Steps := concat steps |}, None)
  | None => ({| Steps := [] |}, Some sortError)
  end.

#[export] Instance referenceFmt : Fmt := {| SprintComposite := fun _ => "" |}.

(** Target providers are named after the binding of their target;
    [Apply] deploys on a reachable target, [Get] reports the components
    of the step once the target is deployed, and a component is changed
    when its type is. *)
#[export] Instance reference : Collaborators := {|
  World := Outside;
  Provider := string;
  EvalContext := unit;
  formatting := referenceFmt;
  ErrorText := fun e => match e with NewCOAError m _ => m | ForeignError t => t end;
  NewDeploymentState := newState;
  MergeDeploymentStates := mergeStates;
  MarkRemoveAll := markRemoveAll;
  ClearAllRemoved := clearAllRemoved;
  PlanForDeployment := planFor;
  MergeCollection := fun a b => b ∪ a;
  EvaluateDeployment := fun _ d _ => (d, None);
  boxManagerState := boxManager;
  boxSummaryResult := boxResult;
  unmarshalManagerState := fun body => readManager (json_generic body);
  stateGet := fun id _ w =>
    match MemoryState.Get (store w) id with
    | Returns e => (e, None)
    | Fails err => (mkStateEntry "" GNil "", Some err)
    | Panics => (mkStateEntry "" GNil "", Some (ForeignError "panic"))
    end;
  stateUpsert := fun request w =>
    mkOutside (snd (MemoryState.Upsert (store w) request))
              (clock w + 1) (deployed w) (unreachable w);
  now := clock;
  CreateProviderForTargetRole := fun role target w =>
    match TargetBinding target with
    | GStr name => (w, inl name)
    | _ => (w, inr (NewCOAError "target has no binding" BadConfig))
    end;
  providerGet := fun provider _ components w =>
    (w, (if decide (provider ∈ deployed w) then map Component components else [], None));
  providerApply := fun provider _ _ _ w =>
    if decide (provider ∈ unreachable w)
    then (w, (∅, Some (NewCOAError "target is unreachable" InternalError)))
    else (mkOutside (store w) (clock w) ({[provider]} ∪ deployed w) (unreachable w),
          (∅, None));
  IsComponentChanged := fun _ c d => negb (String.eqb (Type_ c) (Type_ d))
|}.

Definition manager : SolutionManager := mkManager ∅ false [] None.

Definition target (name : string) : TargetState := mkTargetState [] (GStr name).

Definition componentA : ComponentSpec := mkComponent "A" "" ∅ [].
Definition componentB : ComponentSpec := mkComponent "B" "" ∅ ["A"].

(** Components [A] and [B] (which depends on [A]) on the targets [T1]
    and [T2]. *)
Definition deployment : DeploymentSpec :=
  mkDeployment "instance" ∅ ∅ [componentA; componentB]
               {[ "T1" := target "T1"; "T2" := target "T2" ]} "1" "".

Definition fresh : Outside := mkOutside MemoryState.Init 0 ∅ ∅.

(** The world after a first reconcile restricted to the target [T1]. *)
Definition afterFirst : Outside :=
  world (fst (Reconcile manager deployment false "default" "T1" fresh)).

(** Requests to the in-memory state provider. *)
Definition plainRequest (id etag : string) : UpsertRequest :=
  {| Value := mkStateEntry id (GStr "value") etag;
     Metadata := ∅;
     Options := {| UpdateStateOnly := false |} |}.

Definition statusRequest (id : string) (body : gval) : UpsertRequest :=
  {| Value := mkStateEntry id body "";
     Metadata := ∅;
     Options := {| UpdateStateOnly := true |} |}.

(** A store with one entry, whose body has a [spec] and a [status]. *)
Definition oneEntry : MemoryState.MemoryStateProvider :=
  {| MemoryState.Data :=
       {[ "a" := MemoryState.Entry
                   (mkStateEntry "a"
                      (GMap {[ "spec" := GStr "s";
                               "status" := GMap {[ "phase" := GStr "old";
                                                   "kept" := GStr "k" ]} ]})
                      "1") ]} |}.

(** A store whose entry holds a struct, as [Reconcile] stores them. *)
Definition structEntry : MemoryState.MemoryStateProvider :=
  {| MemoryState.Data :=
       {[ "a" := MemoryState.Entry
                   (mkStateEntry "a" (GStruct [("spec", GStr "s")]) "1") ]} |}.

(** A response of the remote agent that refuses an [Apply]. *)
Definition refused : Mqtt.COAResponse :=
  {| Mqtt.RState := NotFound;
     Mqtt.RBody := "no such target";
     Mqtt.RMetadata := {[ "call-context" := "TargetProvider-Apply" ]} |}.

Definition refusal : Mqtt.ProxyResponse :=
  Mqtt.mkProxy false NotFound (GStr "no such target").

(** A summary whose generation was never written. *)
Definition unversioned : SummaryResult :=
  mkSummaryResult (mkSummary 1 1 ∅ "" false false true) "" 0.

Definition quiet : InstanceReconciler.Answers :=
  {| InstanceReconciler.updateStatus := None;
     InstanceReconciler.updateReconciling := None;
     InstanceReconciler.queueJob := None |}.

(** Two current components of the same name, of which only the second
    has the desired type, and a step that updates that component. *)
Definition typeChanged (c d : ComponentSpec) : bool :=
  negb (String.eqb (Type_ c) (Type_ d)).

Definition twins : list ComponentSpec :=
  [mkComponent "A" "old" ∅ []; mkComponent "A" "new" ∅ []].

Definition updateA : DeploymentStep :=
  mkStep "T1" [mkComponentStep ComponentUpdate (mkComponent "A" "new" ∅ [])] "reference".

Definition boundA : DeploymentState :=
  mkDeploymentState twins {[ "A::T1" := "container" ]}.

(** A world in which the target [T1] cannot be reached, with the step
    that the planner emits for [T1] and the deployment that [Apply]
    receives. *)
Definition stuck : Outside := mkOutside MemoryState.Init 0 ∅ {[ "T1" ]}.

Definition stepT1 : DeploymentStep :=
  mkStep "T1" [mkComponentStep ComponentUpdate componentA;
               mkComponentStep ComponentUpdate componentB] "reference".

Definition depT1 : DeploymentSpec := set_ActiveTarget "T1" deployment.

Definition unreachableError : error :=
  NewCOAError "target is unreachable" InternalError.

(** [B] lists its dependency [A] twice. *)
Definition repeated : list ComponentSpec :=
  [componentA; mkComponent "B" "" ∅ ["A"; "A"]].

(** Two components are named [A], and [C] depends on [A] and on a
    component [Z] that does not exist. *)
Definition homonyms : list ComponentSpec :=
  [componentA; mkComponent "A" "other" ∅ []; mkComponent "C" "" ∅ ["A"; "Z"]].

(** The body of a resource with a name and two labels, and entries of
    the state provider that hold such bodies. *)
Definition labelled : gmap string gval :=
  {[ "metadata" := GMap {[ "name" := GStr "front";
                           "labels" := GMap {[ "app" := GStr "web";
                                               "replicas" := GNum 2 ]} ]};
     "spec" := GMap {[ "kind" := GStr "service" ]} ]}.

Definition bodyRequest (id : string) (body : gval) : UpsertRequest :=
  {| Value := mkStateEntry id body "";
     Metadata := ∅;
     Options := {| UpdateStateOnly := false |} |}.

(** A store with three entries: [front] is labelled [app=web], [back]
    is labelled [app=db], [bare] has no metadata. *)
Definition catalog : MemoryState.MemoryStateProvider :=
  MemoryState.history
    [MemoryState.DoUpsert (bodyRequest "front" (GMap labelled));
     MemoryState.DoUpsert
       (bodyRequest "back"
          (GStruct [("metadata", GStruct [("labels", GMap {[ "app" := GStr "db" ]})]);
                    ("kind", GStr "service")]));
     MemoryState.DoUpsert (bodyRequest "bare" (GMap {[ "kind" := GStr "job" ]}))].

Definition front : StateEntry := mkStateEntry "front" (GMap labelled) "1".
Definition back : StateEntry :=
  mkStateEntry "back"
    (GStruct [("metadata", GStruct [("labels", GMap {[ "app" := GStr "db" ]})]);
              ("kind", GStr "service")]) "1".
Definition bare : StateEntry := mkStateEntry "bare" (GMap {[ "kind" := GStr "job" ]}) "1".

(** A JSON path query that finds nothing. *)
Definition noQuery (part : gmap string gval) (path : string) : gval * option error :=
  (GNil, None).

End Reference.

(** * Properties *)

(** ** strconv: what [FormatInt] writes, [ParseInt] reads back *)

Module StrconvFacts.
Import Strconv.

Lemma nat_of_digit_char (d : Z) :
  0 <= d <= 9 → Z.of_nat (nat_of_ascii (digit_char d)) = 48 + d.
Proof.
  intros Hd. unfold digit_char.
  rewrite nat_ascii_embedding by lia. lia.
Qed.

Lemma is_digit_digit_char (d : Z) : 0 <= d <= 9 → is_digit (digit_char d) = true.
Proof.
  intros Hd. unfold is_digit. rewrite nat_of_digit_char by done.
  apply andb_true_iff. split; apply Z.leb_le; lia.
Qed.

Lemma digit_val_digit_char (d : Z) : 0 <= d <= 9 → digit_val (digit_char d) = d.
Proof. intros Hd. unfold digit_val. rewrite nat_of_digit_char by done. lia. Qed.

Lemma digit_char_not_sign (d : Z) :
  0 <= d <= 9 →
  Ascii.eqb (digit_char d) "+" = false ∧ Ascii.eqb (digit_char d) "-" = false.
Proof.
  intros Hd.
  pose proof (nat_of_digit_char d Hd) as Hn.
  split; apply Ascii.eqb_neq; intros Heq; rewrite Heq in Hn.
  - change (Z.of_nat (nat_of_ascii "+")) with 43 in Hn. lia.
  - change (Z.of_nat (nat_of_ascii "-")) with 45 in Hn. lia.
Qed.

(** Reading the digits of [n] multiplies the accumulator by a power of
    ten and adds [n]. *)
Lemma parse_format_digits (fuel : nat) :
  ∀ n s, 0 <= n < 10 ^ Z.of_nat fuel →
    ∃ k, 0 <= k ∧ ∀ a, parse_digits (format_digits fuel n s) a
                       = parse_digits s (a * 10 ^ k + n).
Proof.
  induction fuel as [|fuel IH]; intros n s Hn.
  - simpl in Hn. assert (n = 0) as -> by lia.
    exists 0. split; [lia|]. intros a. cbn [format_digits].
    f_equal; lia.
  - cbn [format_digits].
    assert (0 <= n mod 10 <= 9) as Hd by (pose proof (Z.mod_pos_bound n 10); lia).
    destruct (Z.ltb_spec n 10) as [Hlt|Hge].
    + exists 1. split; [lia|]. intros a. cbn [parse_digits].
      rewrite is_digit_digit_char, digit_val_digit_char by done.
      rewrite Z.mod_small by lia. f_equal; lia.
    + destruct (IH (n / 10) (String (digit_char (n mod 10)) s)) as (k & Hk & Hparse).
      { split; [apply Z.div_pos; lia|].
        apply Z.div_lt_upper_bound; [lia|].
        replace (Z.of_nat (S fuel)) with (Z.succ (Z.of_nat fuel)) in Hn by lia.
        rewrite Z.pow_succ_r in Hn by lia. lia. }
      exists (k + 1). split; [lia|]. intros a. rewrite Hparse.
      cbn [parse_digits].
      rewrite is_digit_digit_char, digit_val_digit_char by done.
      f_equal. rewrite Z.pow_add_r by lia.
      pose proof (Z.div_mod n 10). lia.
Qed.

Lemma format_digits_head (fuel : nat) (n : Z) (s : string) :
  0 <= n → ∃ d r, 0 <= d <= 9 ∧ format_digits (S fuel) n s = String (digit_char d) r.
Proof.
  revert n s. induction fuel as [|fuel IH]; intros n s Hn.
  - cbn [format_digits]. exists (n mod 10), s.
    split; [pose proof (Z.mod_pos_bound n 10); lia|]. by destruct (n <? 10).
  - change (format_digits (S (S fuel)) n s)
      with (let acc' := String (digit_char (n mod 10)) s in
            if n <? 10 then acc' else format_digits (S fuel) (n / 10) acc').
    cbv zeta. destruct (Z.ltb_spec n 10).
    + exists (n mod 10), s. split; [pose proof (Z.mod_pos_bound n 10); lia|done].
    + apply IH. apply Z.div_pos; lia.
Qed.

Lemma parse_format_unsigned (n : Z) :
  0 <= n <= 2 ^ 63 →
  parse_digits (format_digits 20 n EmptyString) 0 = Some n.
Proof.
  intros Hn.
  destruct (parse_format_digits 20 n EmptyString) as (k & _ & Hparse).
  { split; [lia|]. change (10 ^ Z.of_nat 20) with 100000000000000000000.
    change (2 ^ 63) with 9223372036854775808 in Hn. lia. }
  rewrite Hparse. f_equal; lia.
Qed.

(** [ParseInt(FormatInt(v), 10, 64) = v] for every [int64]. *)
Lemma ParseInt_FormatInt (v : Z) :
  MinInt64 <= v <= MaxInt64 → ParseInt (FormatInt v) = Some v.
Proof.
  unfold MinInt64, MaxInt64. intros Hv. unfold FormatInt.
  destruct (Z.ltb_spec v 0) as [Hneg|Hpos].
  - destruct (format_digits_head 19 (- v) EmptyString) as (d & r & Hd & Hfmt); [lia|].
    unfold ParseInt. change (Ascii.eqb "-" "-") with true.
    change (Ascii.eqb "-" "+") with false. cbv zeta. cbn [orb].
    pose proof (parse_format_unsigned (- v)) as Hparse.
    rewrite Hfmt in *. rewrite Hparse by lia.
    destruct (Z.leb_spec (- v) (2 ^ 63)); [f_equal; lia | lia].
  - destruct (format_digits_head 19 v EmptyString) as (d & r & Hd & Hfmt); [lia|].
    pose proof (parse_format_unsigned v) as Hparse.
    rewrite Hfmt in *. unfold ParseInt.
    destruct (digit_char_not_sign d Hd) as [-> ->]. cbv zeta. cbn [orb].
    rewrite Hparse by lia.
    destruct (Z.ltb_spec v (2 ^ 63)); [done | lia].
Qed.

Lemma wrap64_small (z : Z) : MinInt64 <= z <= MaxInt64 → wrap64 z = z.
Proof.
  unfold MinInt64, MaxInt64, wrap64. intros Hz.
  rewrite Z.mod_small; lia.
Qed.

(** A parsed value is an [int64]. *)
Lemma ParseInt_range (s : string) (v : Z) :
  ParseInt s = Some v → MinInt64 <= v <= MaxInt64.
Proof.
  unfold ParseInt, MinInt64, MaxInt64. destruct s as [|c r]; [done|].
  cbv zeta.
  assert (∀ body acc, 0 <= acc → ∀ un, parse_digits body acc = Some un → 0 <= un) as Hpos.
  { induction body as [|c' body IH]; intros acc Hacc un; cbn [parse_digits].
    - intros [= <-]. done.
    - destruct (is_digit c') eqn:Hc; [|done]. apply IH.
      unfold is_digit in Hc. apply andb_true_iff in Hc as [Hc _].
      apply Z.leb_le in Hc. unfold digit_val. lia. }
  destruct (if Ascii.eqb c "+" || Ascii.eqb c "-" then r else String c r) eqn:Hbody; [done|].
  destruct (parse_digits _ 0) as [un|] eqn:Hparse; [|done].
  apply Hpos in Hparse; [|lia].
  destruct (Ascii.eqb c "-").
  - destruct (Z.leb_spec un (2 ^ 63)); [|done]. intros [= <-]. lia.
  - destruct (Z.ltb_spec un (2 ^ 63)); [|done]. intros [= <-]. lia.
Qed.

End StrconvFacts.

(** ** The in-memory state provider *)

Module MemoryStateProofs.
Import States MemoryState.

(** What [nextETag] writes, in terms of the tag of the request. *)
Lemma nextETag_cases (etag : string) :
  match Strconv.ParseInt etag with
  | Some v =>
      nextETag etag = Strconv.FormatInt (Strconv.wrap64 (v + 1))
      ∧ (v < Strconv.MaxInt64 → Strconv.ParseInt (nextETag etag) = Some (v + 1))
  | None => nextETag etag = "1"
  end.
Proof.
  unfold nextETag. destruct (String.eqb_spec etag "") as [->|Hne]; [done|].
  destruct (Strconv.ParseInt etag) as [v|] eqn:Hparse; [|done].
  split; [done|]. intros Hlt.
  apply StrconvFacts.ParseInt_range in Hparse.
  rewrite StrconvFacts.wrap64_small by (unfold Strconv.MinInt64, Strconv.MaxInt64 in *; lia).
  apply StrconvFacts.ParseInt_FormatInt.
  unfold Strconv.MinInt64, Strconv.MaxInt64 in *. lia.
Qed.

(** A successful [Upsert] writes an entry under the id of the request,
    with the body [body] and the tag computed from the request. *)
Lemma Upsert_returns (s : MemoryStateProvider) (req : UpsertRequest)
    (r : string) (s' : MemoryStateProvider) :
  Upsert s req = (Returns r, s') →
  r = ID (Value req)
  ∧ ∃ body, Data s' = <[r := Entry (mkStateEntry r body (nextETag (ETag (Value req))))]> (Data s).
Proof.
  unfold Upsert. intros Hup.
  destruct (UpdateStateOnly (Options req)).
  - destruct (Data s !! ID (Value req)) as [[existing|]|]; [|done..].
    destruct (Body existing); try done.
    destruct (mergeStatus _ _) as [mapRef2|]; [|done].
    injection Hup as <- <-. eauto.
  - injection Hup as <- <-. eauto.
Qed.

(** C2, as the code has it: a successful [Upsert] returns the id of the
    entry, not its ETag; the ETag it stores is computed from the ETag of
    the request, not from the stored entry: it is the decimal form of
    that ETag plus one (on 64 bits) when the request's ETag parses as an
    integer, and ["1"] otherwise (also for an empty ETag).  The stored
    ETag is strictly greater than the request's whenever the latter is
    an integer below [MaxInt64]. *)
Theorem Upsert_returns_id_and_bumps_request_etag (s : MemoryStateProvider)
    (req : UpsertRequest) (r : string) (s' : MemoryStateProvider) :
  Upsert s req = (Returns r, s') →
  r = ID (Value req)
  ∧ ∃ e, Data s' !! r = Some (Entry e)
         ∧ ID e = r
         ∧ match Strconv.ParseInt (ETag (Value req)) with
           | Some v =>
               ETag e = Strconv.FormatInt (Strconv.wrap64 (v + 1))
               ∧ (v < Strconv.MaxInt64 → Strconv.ParseInt (ETag e) = Some (v + 1))
           | None => ETag e = "1"
           end.
Proof.
  intros Hup. apply Upsert_returns in Hup as [-> [body Hdata]].
  split; [done|]. eexists. rewrite Hdata, lookup_insert_eq.
  split; [done|]. split; [done|]. cbn [ETag]. apply nextETag_cases.
Qed.

Lemma Upsert_returns_id_and_bumps_request_etag_witness :
  ∃ e, Data (snd (Upsert Init (Reference.plainRequest "a" "41"))) !! "a" = Some (Entry e)
       ∧ Strconv.ParseInt (ETag e) = Some 42.
Proof.
  destruct (Upsert_returns_id_and_bumps_request_etag Init (Reference.plainRequest "a" "41") "a"
              (snd (Upsert Init (Reference.plainRequest "a" "41"))) eq_refl)
    as (_ & e & He & _ & Htag).
  exists e. split; [exact He|].
  change (Strconv.ParseInt (ETag (Value (Reference.plainRequest "a" "41")))) with (Some 41) in Htag.
  apply Htag. reflexivity.
Defined.

Lemma returns_new_etag_fails : ¬ returns_new_etag.
Proof.
  intros Hret.
  pose (req := Reference.plainRequest "7" "").
  specialize (Hret Init req "7" (snd (Upsert Init req))
                (mkStateEntry "7" (GStr "value") "1") eq_refl eq_refl).
  discriminate Hret.
Qed.

Lemma etag_strictly_increases_fails : ¬ etag_strictly_increases.
Proof.
  intros Hinc.
  pose (req := Reference.plainRequest "7" "").
  destruct (Hinc Init req req "7" "7" (snd (Upsert Init req))
              (snd (Upsert (snd (Upsert Init req)) req)) eq_refl eq_refl eq_refl)
    as (v1 & v2 & H1 & H2 & Hlt).
  change (Strconv.ParseInt "7") with (Some 7) in H1, H2.
  injection H1 as <-. injection H2 as <-. lia.
Qed.

(** C2 as stated fails: on an empty store, an [Upsert] of the entry
    ["7"] without ETag returns the id ["7"] while the ETag it stores is
    ["1"]; a second such [Upsert] returns ["7"] and stores ["1"] again,
    so that neither the returned values nor the stored ETags increase. *)
Lemma etag_monotonicity_fails :
  let req := Reference.plainRequest "7" "" in
  let s1 := snd (Upsert Init req) in
  let s2 := snd (Upsert s1 req) in
  fst (Upsert Init req) = Returns "7"
  ∧ Data s1 !! "7" = Some (Entry (mkStateEntry "7" (GStr "value") "1"))
  ∧ fst (Upsert s1 req) = Returns "7"
  ∧ Data s2 !! "7" = Some (Entry (mkStateEntry "7" (GStr "value") "1"))
  ∧ ¬ etag_monotonicity.
Proof.
  cbv zeta. split; [reflexivity|]. split; [reflexivity|]. split; [reflexivity|].
  split; [reflexivity|]. intros [Hret _]. by apply returns_new_etag_fails.
Qed.

Lemma ensureStatus_other (mapRef : gmap string gval) (k : string) :
  k ≠ "status" → ensureStatus mapRef !! k = mapRef !! k.
Proof.
  intros Hk. unfold ensureStatus.
  destruct (default GNil (mapRef !! "status")); try done.
  by rewrite lookup_insert_ne.
Qed.

Lemma ensureStatus_status (mapRef old : gmap string gval) :
  oldStatus mapRef = Some old →
  default GNil (ensureStatus mapRef !! "status") = GMap old.
Proof.
  unfold oldStatus, ensureStatus.
  destruct (default GNil (mapRef !! "status")) eqn:Hs; intros Hold; simplify_eq.
  - by rewrite lookup_insert_eq.
  - by rewrite Hs.
Qed.

(** C7: with [UpdateStateOnly], an [Upsert] on an id without entry
    returns a NotFound error and leaves the store as it is; on an entry
    whose body is a map, it stores under the id a body whose status is
    the old status map overridden by the status map of the new body
    (the new keys win), and whose other fields are the old ones. *)
Theorem Upsert_UpdateStateOnly_merges_status (s : MemoryStateProvider)
    (req : UpsertRequest) :
  UpdateStateOnly (Options req) = true →
  let id := ID (Value req) in
  (Data s !! id = None →
   Upsert s req = (Fails (NewCOAError (notFoundMessage id) NotFound), s))
  ∧ (∀ existing mapRef old new,
       Data s !! id = Some (Entry existing) →
       Body existing = GMap mapRef →
       oldStatus mapRef = Some old →
       newStatus req = GMap new →
       ∃ stored s',
         Upsert s req = (Returns id, s')
         ∧ Data s' !! id
           = Some (Entry (mkStateEntry id (GMap stored) (nextETag (ETag (Value req)))))
         ∧ stored !! "status" = Some (GMap (new ∪ old))
         ∧ (∀ k v, new !! k = Some v → (new ∪ old) !! k = Some v)
         ∧ (∀ k, new !! k = None → (new ∪ old) !! k = old !! k)
         ∧ (∀ k, k ≠ "status" → stored !! k = mapRef !! k)).
Proof.
  intros Hopt id. split.
  - intros Hnone. unfold Upsert. fold id. by rewrite Hopt, Hnone.
  - intros existing mapRef old new Hex Hbody Hold Hnew.
    unfold Upsert. fold id. rewrite Hopt, Hex, Hbody.
    unfold newStatus in Hnew. rewrite Hnew.
    pose proof (ensureStatus_status _ _ Hold) as Hstatus.
    assert (∀ k v, new !! k = Some v → (new ∪ old) !! k = Some v) as Hwin.
    { intros k v Hk. by apply lookup_union_Some_l. }
    assert (∀ k, new !! k = None → (new ∪ old) !! k = old !! k) as Hkeep.
    { intros k Hk. by apply lookup_union_r. }
    unfold mergeStatus. destruct (decide (new = ∅)) as [->|Hne].
    + exists (ensureStatus mapRef). eexists. split; [done|].
      split; [cbn [Data]; by rewrite lookup_insert_eq|].
      split; [|split; [done|split; [done|]]].
      * rewrite (left_id_L ∅ (∪)).
        destruct (ensureStatus mapRef !! "status") as [x|] eqn:Hx; [|done].
        simpl in Hstatus. by subst x.
      * intros k Hk. by apply ensureStatus_other.
    + rewrite Hstatus.
      exists (<["status" := GMap (new ∪ old)]> (ensureStatus mapRef)). eexists.
      split; [done|]. split; [cbn [Data]; by rewrite lookup_insert_eq|].
      split; [by rewrite lookup_insert_eq|].
      split; [done|]. split; [done|].
      intros k Hk. rewrite lookup_insert_ne by done. by apply ensureStatus_other.
Qed.

Lemma Upsert_UpdateStateOnly_merges_status_witness :
  Upsert Reference.fresh.(Reference.store) (Reference.statusRequest "a" GNil)
  = (Fails (NewCOAError (notFoundMessage "a") NotFound), Reference.fresh.(Reference.store))
  ∧ ∃ stored s',
      Upsert Reference.oneEntry
        (Reference.statusRequest "a"
           (GStruct [("status", GStruct [("phase", GStr "new")])]))
      = (Returns "a", s')
      ∧ Data s' !! "a" = Some (Entry (mkStateEntry "a" (GMap stored) "1"))
      ∧ stored !! "status"
        = Some (GMap ({[ "phase" := GStr "new" ]}
                      ∪ {[ "phase" := GStr "old"; "kept" := GStr "k" ]}))
      ∧ stored !! "spec" = Some (GStr "s").
Proof.
  split.
  - apply (Upsert_UpdateStateOnly_merges_status _ (Reference.statusRequest "a" GNil) eq_refl).
    reflexivity.
  - destruct (Upsert_UpdateStateOnly_merges_status Reference.oneEntry
                (Reference.statusRequest "a"
                   (GStruct [("status", GStruct [("phase", GStr "new")])]))
                eq_refl) as [_ Hmerge].
    destruct (Hmerge (mkStateEntry "a"
                        (GMap {[ "spec" := GStr "s";
                                 "status" := GMap {[ "phase" := GStr "old";
                                                     "kept" := GStr "k" ]} ]}) "1")
                {[ "spec" := GStr "s";
                   "status" := GMap {[ "phase" := GStr "old"; "kept" := GStr "k" ]} ]}
                {[ "phase" := GStr "old"; "kept" := GStr "k" ]}
                {[ "phase" := GStr "new" ]}
                eq_refl eq_refl eq_refl eq_refl)
      as (stored & s' & Hup & Hentry & Hstatus & _ & _ & Hother).
    exists stored, s'. split; [exact Hup|]. split; [exact Hentry|].
    split; [exact Hstatus|]. rewrite Hother by discriminate. reflexivity.
Defined.

(** C10: with [UpdateStateOnly] and an entry under the id, [Upsert]
    panics when the body of that entry is not a map, and when the new
    body, after its JSON round trip, has no status that is a map. *)
Theorem Upsert_UpdateStateOnly_panics (s : MemoryStateProvider)
    (req : UpsertRequest) (existing : StateEntry) :
  UpdateStateOnly (Options req) = true →
  Data s !! ID (Value req) = Some (Entry existing) →
  isMap (Body existing) = false ∨ isMap (newStatus req) = false →
  fst (Upsert s req) = Panics.
Proof.
  intros Hopt Hex Hor. unfold Upsert. rewrite Hopt, Hex.
  destruct (Body existing) eqn:Hbody; try done.
  destruct Hor as [Hor|Hor]; [done|].
  unfold newStatus in Hor.
  destruct (map_index _ "status") eqn:Hnew; try done.
Qed.

Lemma Upsert_UpdateStateOnly_panics_witness :
  fst (Upsert Reference.structEntry
         (Reference.statusRequest "a" (GStruct [("status", GMap ∅)]))) = Panics
  ∧ fst (Upsert Reference.oneEntry (Reference.statusRequest "a" (GMap ∅))) = Panics.
Proof.
  split.
  - apply (Upsert_UpdateStateOnly_panics Reference.structEntry
             (Reference.statusRequest "a" (GStruct [("status", GMap ∅)]))
             (mkStateEntry "a" (GStruct [("spec", GStr "s")]) "1") eq_refl eq_refl).
    left. reflexivity.
  - apply (Upsert_UpdateStateOnly_panics Reference.oneEntry
             (Reference.statusRequest "a" (GMap ∅))
             (mkStateEntry "a"
                (GMap {[ "spec" := GStr "s";
                         "status" := GMap {[ "phase" := GStr "old";
                                             "kept" := GStr "k" ]} ]}) "1")
             eq_refl eq_refl).
    right. reflexivity.
Defined.

End MemoryStateProofs.

(** ** The MQTT target provider *)

Module MqttProofs.
Import Mqtt.

Lemma State_eqb_eq (a b : State) : State_eqb a b = true ↔ a = b.
Proof.
  destruct a, b; simpl; split; try done.
  - intros Heq%Z.eqb_eq. by subst.
  - intros [= ->]. apply Z.eqb_refl.
Qed.

(** A response to [Apply] goes to the Apply channel, flagged OK exactly
    for the states OK and Accepted, and carrying the body as a string
    otherwise. *)
Lemma onResponse_Apply (decode : string → gval) (response : COAResponse) :
  RMetadata response !! "call-context" = Some "TargetProvider-Apply" →
  onResponse decode response
  = Some (ApplyChan,
          let isOK := State_eqb (RState response) OK
                      || State_eqb (RState response) Accepted in
          mkProxy isOK (RState response)
                  (if isOK then GNil else GStr (RBody response))).
Proof. intros Hctx. unfold onResponse. rewrite Hctx. reflexivity. Qed.

(** C6: when the request is published and no response reaches the Apply
    channel before the deadline of 8 seconds, [Apply] returns the
    InternalError "didn't get response to Apply() call over MQTT"; when
    a response arrives before the deadline, [Apply] returns nil exactly
    when its state is OK or Accepted, and otherwise the error that
    carries the state and the body of the response as a string. *)
Theorem Apply_answers_or_times_out `{Fmt} (decode : string → gval)
    (response : COAResponse) (t : Z) (pick : bool) :
  RMetadata response !! "call-context" = Some "TargetProvider-Apply" →
  deadline = 8000000000
  ∧ Apply None None pick = Some (NewCOAError applyTimeoutMessage InternalError)
  ∧ (∀ resp, deadline < t →
       Apply None (Some (t, resp)) pick
       = Some (NewCOAError applyTimeoutMessage InternalError))
  ∧ (t < deadline →
     ∃ resp, onResponse decode response = Some (ApplyChan, resp)
       ∧ (Apply None (Some (t, resp)) pick = None
          ↔ RState response = OK ∨ RState response = Accepted)
       ∧ (RState response ≠ OK → RState response ≠ Accepted →
          Apply None (Some (t, resp)) pick
          = Some (NewCOAError (RBody response) (RState response)))).
Proof.
  intros Hctx. split; [reflexivity|]. split; [reflexivity|]. split.
  - intros resp Hlate. unfold Apply, awaitResponse.
    destruct (Z.ltb_spec t deadline); [lia|].
    destruct (Z.eqb_spec t deadline); [lia|done].
  - intros Hearly. eexists. split; [by apply onResponse_Apply|].
    cbv zeta. unfold Apply, awaitResponse.
    destruct (Z.ltb_spec t deadline); [|lia]. cbn [IsOK Payload PState].
    destruct (State_eqb (RState response) OK) eqn:Hok.
    { apply State_eqb_eq in Hok. cbn [orb]. naive_solver. }
    destruct (State_eqb (RState response) Accepted) eqn:Hacc.
    { apply State_eqb_eq in Hacc. cbn [orb]. naive_solver. }
    cbn [orb Sprint]. split; [|done].
    split; [done|]. intros [Heq|Heq]; apply State_eqb_eq in Heq; congruence.
Qed.

#[local] Existing Instance Reference.referenceFmt.

Lemma Apply_answers_or_times_out_witness :
  Apply None (Some (9000000000, Reference.refusal)) true
  = Some (NewCOAError applyTimeoutMessage InternalError)
  ∧ ∃ resp,
      onResponse (fun _ => GNil) Reference.refused = Some (ApplyChan, resp)
      ∧ Apply None (Some (1000000000, resp)) true
        = Some (NewCOAError "no such target" NotFound).
Proof.
  split.
  - destruct (Apply_answers_or_times_out (fun _ => GNil) Reference.refused
                9000000000 true eq_refl) as (_ & _ & Hlate & _).
    apply Hlate. reflexivity.
  - destruct (Apply_answers_or_times_out (fun _ => GNil) Reference.refused
                1000000000 true eq_refl) as (_ & _ & _ & Hearly).
    destruct (Hearly eq_refl) as (resp & Hresp & _ & Herr).
    exists resp. split; [exact Hresp|]. apply Herr; discriminate.
Defined.

End MqttProofs.

(** ** The instance reconciler *)

Module InstanceReconcilerProofs.
Import Model InstanceReconciler.

(** C8: when the generation of the fetched summary does not parse as an
    [int64] (the empty string of a missing generation does not),
    [generationMatch] stays true, and a summary not older than 60
    seconds is applied to the status of the instance without a job
    being queued; [generationMatch] is false only when the generation
    parses to an integer other than the generation of the instance. *)
Theorem generationMatch_defaults_to_true (summary : SummaryResult)
    (err : option error) (generation elapsed : Z) (env : Answers) :
  Strconv.ParseInt (SummaryGeneration summary) = None →
  match err with Some e => IsNotFound e = true | None => True end →
  elapsed <= interval →
  generationMatch "" generation = true
  ∧ generationMatch (SummaryGeneration summary) generation = true
  ∧ fst (updatePath (summary, err) generation elapsed env)
    = [UpdateInstanceStatus (Summary summary)]
  ∧ (∀ g, generationMatch g generation = false
          ↔ ∃ v, Strconv.ParseInt g = Some v ∧ v ≠ generation).
Proof.
  intros Hparse Herr Helapsed.
  split; [reflexivity|].
  assert (generationMatch (SummaryGeneration summary) generation = true) as Hmatch.
  { unfold generationMatch. by rewrite Hparse. }
  split; [done|]. split.
  - unfold updatePath.
    assert (match err with
            | Some e => if IsNotFound e then None else Some e
            | None => None
            end = None) as ->.
    { destruct err as [e|]; [by rewrite Herr|done]. }
    rewrite Hmatch. destruct (Z.leb_spec elapsed interval); [|lia].
    cbn [andb]. by destruct (updateStatus env).
  - intros g. unfold generationMatch.
    destruct (Strconv.ParseInt g) as [v|].
    + split.
      * intros Hne%Z.eqb_neq. eauto.
      * intros (v' & [= <-] & Hne). by apply Z.eqb_neq.
    + split; [done|]. by intros (v & Hv & _).
Qed.

Lemma generationMatch_defaults_to_true_witness :
  fst (updatePath (Reference.unversioned, None) 7 1000000000 Reference.quiet)
  = [UpdateInstanceStatus (Summary Reference.unversioned)].
Proof.
  apply (generationMatch_defaults_to_true Reference.unversioned None 7 1000000000
           Reference.quiet eq_refl I).
  unfold interval. lia.
Defined.

End InstanceReconcilerProofs.

(** ** canSkipStep *)

Module SkipProofs.
Import Model Solution.

Lemma stillExists_true (currentComponents : list ComponentSpec) (name key : string)
    (state : DeploymentState) :
  stillExists currentComponents name key state = true
  ↔ ∃ c, c ∈ currentComponents ∧ Name c = name ∧ lookupRole state key ≠ "".
Proof.
  induction currentComponents as [|c cs IH]; cbn [stillExists].
  - split; [done|]. intros (c & Hc & _). by apply elem_of_nil in Hc.
  - destruct (String.eqb_spec (Name c) name) as [Hname|Hname];
      destruct (String.eqb_spec (lookupRole state key) "") as [Hrole|Hrole];
      cbn [andb negb].
    + rewrite IH. split; intros (c' & _ & _ & Hne); done.
    + split; [|done]. intros _. exists c. split; [apply list_elem_of_here|done].
    + rewrite IH. split; intros (c' & _ & _ & Hne); done.
    + rewrite IH. split.
      * intros (c' & Hc' & Hn & Hr). exists c'. split; [by apply list_elem_of_further|done].
      * intros (c' & Hc' & Hn & Hr). exists c'.
        apply elem_of_cons in Hc' as [->|Hc']; done.
Qed.

Lemma unchanged_unbound (IsComponentChanged : ComponentSpec → ComponentSpec → bool)
    (currentComponents : list ComponentSpec) (desired : ComponentSpec) (key : string)
    (state : DeploymentState) :
  negb (String.eqb (lookupRole state key) "")
  && negb (HasPrefix (lookupRole state key) "-") = false →
  unchanged IsComponentChanged currentComponents desired key state = false.
Proof.
  intros Hkey. induction currentComponents as [|c cs IH]; cbn [unchanged]; [done|].
  by rewrite <- andb_assoc, Hkey, andb_false_r.
Qed.

Lemma unchanged_true (IsComponentChanged : ComponentSpec → ComponentSpec → bool)
    (currentComponents : list ComponentSpec) (desired : ComponentSpec) (key : string)
    (state : DeploymentState) :
  unchanged IsComponentChanged currentComponents desired key state = true
  ↔ ∃ c, firstNamed (Name desired) currentComponents = Some c
         ∧ lookupRole state key ≠ ""
         ∧ HasPrefix (lookupRole state key) "-" = false
         ∧ IsComponentChanged c desired = false.
Proof.
  destruct (negb (String.eqb (lookupRole state key) "")
            && negb (HasPrefix (lookupRole state key) "-")) eqn:Hkey.
  - apply andb_true_iff in Hkey as [Hrole Hprefix].
    apply negb_true_iff in Hrole, Hprefix. apply String.eqb_neq in Hrole.
    induction currentComponents as [|c cs IH]; cbn [unchanged firstNamed find].
    + split; [done|]. by intros (c & Hc & _).
    + destruct (String.eqb (Name c) (Name desired)); cbn [andb].
      * rewrite (proj2 (String.eqb_neq _ _) Hrole), Hprefix. cbn [negb andb].
        rewrite negb_true_iff. split; [by eauto|]. by intros (c' & [= <-] & _ & _ & Hc).
      * apply IH.
  - rewrite unchanged_unbound by done. split; [done|].
    intros (_ & _ & Hrole & Hprefix & _).
    apply String.eqb_neq in Hrole. by rewrite Hrole, Hprefix in Hkey.
Qed.

(** [canSkipStep] decides [entrySkippableFirst] for every entry. *)
Lemma canSkipStep_first_named
    (IsComponentChanged : ComponentSpec → ComponentSpec → bool)
    (step : DeploymentStep) (target : string)
    (currentComponents : list ComponentSpec) (state : DeploymentState) :
  canSkipStep step target IsComponentChanged currentComponents state = true
  ↔ ∀ newCom, newCom ∈ Components step →
      entrySkippableFirst IsComponentChanged target currentComponents state newCom.
Proof.
  unfold canSkipStep. induction (Components step) as [|newCom rest IH];
    cbn [canSkipComponents].
  - split; [|done]. intros _ newCom Hin. by apply elem_of_nil in Hin.
  - assert (∀ P : ComponentStep → Prop,
              (∀ x, x ∈ newCom :: rest → P x) ↔ P newCom ∧ ∀ x, x ∈ rest → P x) as Hcons.
    { intros P. split.
      - intros HP. split; [apply HP, list_elem_of_here|].
        intros x Hx. by apply HP, list_elem_of_further.
      - intros [Hhd Htl] x [->|Hx]%elem_of_cons; auto. }
    rewrite Hcons, <- IH. unfold entrySkippableFirst at 1.
    destruct (Action newCom).
    + destruct (unchanged _ _ _ _ _) eqn:Hun.
      * apply unchanged_true in Hun. tauto.
      * split; [done|]. intros [Hex _]. apply unchanged_true in Hex. congruence.
    + destruct (stillExists _ _ _ _) eqn:Hst.
      * apply stillExists_true in Hst. split; [done|]. tauto.
      * split; [|tauto]. intros Hrest. split; [|done].
        intros Hex%stillExists_true. congruence.
Qed.

(** C3, as the code has it: [canSkipStep] returns true exactly when every
    entry of the step passes its test: for a delete, no current
    component of that name is bound to the target; for an update, the
    key of the component is bound to a role that is not a tombstone, a
    current component of that name exists, and the rule reports the
    first current component of that name unchanged. *)
Theorem canSkipStep_iff_first_named
    (IsComponentChanged : ComponentSpec → ComponentSpec → bool)
    (step : DeploymentStep) (target : string)
    (currentComponents : list ComponentSpec) (state : DeploymentState) :
  canSkipStep step target IsComponentChanged currentComponents state = true
  ↔ ∀ newCom, newCom ∈ Components step →
      entrySkippableFirst IsComponentChanged target currentComponents state newCom.
Proof. apply canSkipStep_first_named. Qed.

(** C3 as stated fails when two current components share a name: with
    the current components [A] of type "old" and [A] of type "new", the
    update of [A] to type "new" has an unchanged current component of
    that name, so every entry of the step is skippable as specified, but
    the code compares the first one and does not skip. *)
Lemma canSkipStep_as_specified_fails :
  canSkipStep Reference.updateA "T1" Reference.typeChanged Reference.twins
    Reference.boundA = false
  ∧ (∀ newCom, newCom ∈ Components Reference.updateA →
       entrySkippable Reference.typeChanged "T1" Reference.twins Reference.boundA newCom)
  ∧ ¬ canSkipStep_as_specified.
Proof.
  assert (∀ newCom, newCom ∈ Components Reference.updateA →
            entrySkippable Reference.typeChanged "T1" Reference.twins
              Reference.boundA newCom) as Hall.
  { intros newCom [->|Hin]%elem_of_cons; [|by apply elem_of_nil in Hin].
    exists (mkComponent "A" "new" ∅ []). split.
    { apply list_elem_of_further, list_elem_of_here. }
    split; [done|]. split; [|done]. vm_compute. discriminate. }
  split; [reflexivity|]. split; [done|]. intros Hclaim.
  destruct (Hclaim Reference.typeChanged Reference.updateA "T1" Reference.twins
              Reference.boundA) as [_ Hskip].
  specialize (Hskip Hall). discriminate Hskip.
Qed.

Lemma firstNamed_distinct (components : list ComponentSpec) (c : ComponentSpec) :
  distinctNames components → c ∈ components →
  firstNamed (Name c) components = Some c.
Proof.
  unfold distinctNames, firstNamed. induction components as [|c' cs IH]; intros Hnd Hin.
  - by apply elem_of_nil in Hin.
  - rewrite fmap_cons in Hnd. apply NoDup_cons in Hnd as [Hnotin Hnd]. cbn [find].
    apply elem_of_cons in Hin as [->|Hin].
    + by rewrite String.eqb_refl.
    + destruct (String.eqb_spec (Name c') (Name c)) as [Heq|Hne]; [|by apply IH].
      exfalso. apply Hnotin. rewrite Heq. by apply list_elem_of_fmap_2.
Qed.

Lemma firstNamed_Some (name : string) (components : list ComponentSpec)
    (c : ComponentSpec) :
  firstNamed name components = Some c → c ∈ components ∧ Name c = name.
Proof.
  unfold firstNamed. intros Hfind. apply find_some in Hfind as [Hin Hname].
  split; [by apply list_elem_of_In|]. by apply String.eqb_eq.
Qed.

(** When the names of the current components are distinct, as the data
    model has it, the code decides what the specification states. *)
Lemma canSkipStep_distinct_names
    (IsComponentChanged : ComponentSpec → ComponentSpec → bool)
    (step : DeploymentStep) (target : string)
    (currentComponents : list ComponentSpec) (state : DeploymentState) :
  distinctNames currentComponents →
  canSkipStep step target IsComponentChanged currentComponents state = true
  ↔ ∀ newCom, newCom ∈ Components step →
      entrySkippable IsComponentChanged target currentComponents state newCom.
Proof.
  intros Hnd.
  assert (∀ newCom,
            entrySkippableFirst IsComponentChanged target currentComponents state newCom
            ↔ entrySkippable IsComponentChanged target currentComponents state newCom)
    as Hsame.
  { intros newCom. unfold entrySkippableFirst, entrySkippable.
    destruct (Action newCom); [|done]. split.
    - intros (c & Hc & Hrest). apply firstNamed_Some in Hc as [Hin Hname]. eauto.
    - intros (c & Hin & Hname & Hrest). exists c. split; [|done].
      rewrite <- Hname. by apply firstNamed_distinct. }
  pose proof (canSkipStep_first_named IsComponentChanged step target
                currentComponents state) as Hcode.
  split.
  - intros Hskip newCom Hin. apply Hsame. by apply Hcode.
  - intros Hall. apply Hcode. intros newCom Hin. by apply Hsame, Hall.
Qed.

Lemma canSkipStep_distinct_names_witness :
  canSkipStep Reference.updateA "T1" Reference.typeChanged
    [mkComponent "A" "new" ∅ []] Reference.boundA = true
  ↔ ∀ newCom, newCom ∈ Components Reference.updateA →
      entrySkippable Reference.typeChanged "T1" [mkComponent "A" "new" ∅ []]
        Reference.boundA newCom.
Proof.
  apply (canSkipStep_distinct_names Reference.typeChanged Reference.updateA "T1"
           [mkComponent "A" "new" ∅ []] Reference.boundA).
  refine (bool_decide_unpack _ _). vm_compute. exact I.
Defined.

End SkipProofs.

(** ** Reconcile *)

Module ReconcileProofs.
Import States Model Solution.

Section Runs.
Context `{Collaborators}.
Variables (s : SolutionManager) (deployment : DeploymentSpec)
          (namespace targetName : string).


(** The single attempt of the retry loop. *)
Lemma attempts_once (provider : Provider) (dep : DeploymentSpec)
    (step : DeploymentStep) (v : LoopVars) (σ : Run) :
  attempts retryCount provider dep step ∅ None v σ
  = let '(w, (componentResults, stepError)) :=
      providerApply provider dep step false (world σ) in
    let σ' := mkRun w (events σ ++ [EvApply step dep stepError]) in
    match stepError with
    | None =>
        (componentResults, None,
         mkLoop (UpdateTargetResult (Target step) (mkTargetResult "OK" "" componentResults)
                   (set_AllAssignedDeployed (plannedCount v =? planSuccessCount v)
                      (summary v)))
                (<[Target step := 1]> (targetResult v)) (plannedCount v)
                (planSuccessCount v) (someStepsRan v) (col v),
         σ')
    | Some e =>
        (componentResults, Some e,
         mkLoop (UpdateTargetResult (Target step)
                   (mkTargetResult "Error" (ErrorText e) componentResults)
                   (set_AllAssignedDeployed false (summary v)))
                (<[Target step := 0]> (targetResult v)) (plannedCount v)
                (planSuccessCount v) (someStepsRan v) (col v),
         σ')
    end.
Proof.
  unfold retryCount. cbn [attempts].
  destruct (providerApply provider dep step false (world σ)) as [w [cr [e|]]]; done.
Qed.



Lemma plannedSteps_cons_out (step : DeploymentStep) (rest : list DeploymentStep) :
  filteredOut s targetName step = true →
  plannedSteps s targetName (step :: rest) = plannedSteps s targetName rest.
Proof.
  intros Hout. unfold plannedSteps. rewrite filter_cons_False; [done|].
  by rewrite Hout.
Qed.

Lemma plannedSteps_cons_in (step : DeploymentStep) (rest : list DeploymentStep) :
  filteredOut s targetName step = false →
  plannedSteps s targetName (step :: rest) = step :: plannedSteps s targetName rest.
Proof. intros Hin. unfold plannedSteps. by rewrite filter_cons_True. Qed.



(** Steps that are all left out leave the variables of the loop as
    they are. *)
Lemma reconcileSteps_all_filtered
    (previousDesiredState : option SolutionManagerDeploymentState)
    (currentState : DeploymentState) (steps : list DeploymentStep)
    (v : LoopVars) (σ : Run) :
  plannedSteps s targetName steps = [] →
  reconcileSteps s deployment namespace targetName previousDesiredState
    currentState steps v σ = Continue v σ.
Proof.
  induction steps as [|step rest IH]; intros Hnone; [done|].
  cbn [reconcileSteps]. unfold reconcileStep.
  destruct (filteredOut s targetName step) eqn:Hout.
  - apply IH. by rewrite plannedSteps_cons_out in Hnone.
  - by rewrite plannedSteps_cons_in in Hnone.
Qed.

End Runs.

Section Calls.
Context `{Collaborators}.
Variables (s : SolutionManager) (deployment : DeploymentSpec) (remove : bool)
          (namespace targetName : string) (w : World).


(** What [Reconcile] hands over to its loop. *)
Lemma prepare_inr (p : Prepared) :
  prepare s deployment remove namespace targetName w = inr p →
  evaluated p = fst (evaluate s deployment namespace)
  ∧ first p = newSummary deployment
  ∧ previous p = getPreviousState (InstanceName (evaluated p)) namespace w
  ∧ desired p = desiredStateOf (previous p) (fst (NewDeploymentState (evaluated p))) remove
  ∧ merged p = MergeDeploymentStates (observed p) (desired p)
  ∧ PlanForDeployment (evaluated p) (merged p) = (plan p, None).
Proof.
  unfold prepare, failWith.
  destruct (evaluate s deployment namespace) as [d' err]. cbn [fst].
  destruct (if remove then None else err) as [e|]; [done|].
  destruct (NewDeploymentState d') as [cds [e|]] eqn:Hnew; [done|].
  destruct (Get s d' targetName w) as [w1 [[cur comps] [e|]]]; [done|].
  destruct (PlanForDeployment d' _) as [pl [e|]] eqn:Hplan; [done|].
  intros [= <-]. cbn. by rewrite Hnew.
Qed.





(** A run whose steps are all left out by [targetName] or by the
    allow-list is skipped and counts no success, whatever the number of
    targets of the deployment. *)
Lemma Reconcile_all_filtered (p : Prepared) :
  prepare s deployment remove namespace targetName w = inr p →
  plannedSteps s targetName (Steps (plan p)) = [] →
  let r := Reconcile s deployment remove namespace targetName w in
  snd (snd r) = None
  ∧ Skipped (fst (snd r)) = true
  ∧ SuccessCount (fst (snd r)) = 0
  ∧ TargetCount (fst (snd r)) = Z.of_nat (size (Targets deployment)).
Proof.
  intros Hprep Hnone. cbv zeta. unfold Reconcile. rewrite Hprep.
  unfold execute. rewrite reconcileSteps_all_filtered by done.
  destruct (prepare_inr p Hprep) as (_ & Hfirst & _).
  unfold finish. cbn. rewrite Hfirst. done.
Qed.

End Calls.

(** C1 on the code: the last lines of [Reconcile] set [SuccessCount] to
    the sum of the target results, also when the run is skipped, and the
    targets left out by [targetName] (or by the allow-list) have no
    result: a run whose steps are all left out returns [Skipped = true]
    with [SuccessCount = 0].  A second reconcile of a deployment on the
    targets [T1] and [T2], restricted to [T1] like the first, skips its
    only planned step and returns [Skipped = true] with
    [SuccessCount = 1] and [TargetCount = 2]. *)
Theorem Reconcile_skipped_counts_only_processed_targets :
  (∀ `{Collaborators} (p : Prepared) (remove : bool) (namespace : string)
     (v : LoopVars) (σ : Run),
     SuccessCount (fst (snd (finish p remove namespace v σ)))
     = sumResults (targetResult v))
  ∧ (∀ `{Collaborators} (s : SolutionManager) (deployment : DeploymentSpec)
       (remove : bool) (namespace targetName : string) (w : World) (p : Prepared),
       prepare s deployment remove namespace targetName w = inr p →
       plannedSteps s targetName (Steps (plan p)) = [] →
       let r := Reconcile s deployment remove namespace targetName w in
       snd (snd r) = None
       ∧ Skipped (fst (snd r)) = true
       ∧ SuccessCount (fst (snd r)) = 0
       ∧ TargetCount (fst (snd r)) = Z.of_nat (size (Targets deployment)))
  ∧ let r := Reconcile Reference.manager Reference.deployment false "default" "T1"
               Reference.afterFirst in
    snd (snd r) = None
    ∧ skippedSteps (events (fst r)) = [Reference.stepT1]
    ∧ appliedSteps (events (fst r)) = []
    ∧ Skipped (fst (snd r)) = true
    ∧ TargetCount (fst (snd r)) = 2
    ∧ SuccessCount (fst (snd r)) = 1.
Proof.
  split; [done|]. split.
  - intros ? s deployment remove namespace targetName w p Hprep Hnone.
    by apply (Reconcile_all_filtered s deployment remove namespace targetName w p).
  - vm_compute. done.
Qed.



End ReconcileProofs.

(** ** sortByDepedencies *)

Module SortProofs.
Import Model Solution.

Section Loop.
Variable components : list ComponentSpec.

Lemma dependsOn_true (c : ComponentSpec) (name : string) :
  dependsOn c name = true ↔ name ∈ Dependencies c.
Proof.
  unfold dependsOn. rewrite existsb_exists. split.
  - intros (d & Hin & ->%String.eqb_eq). by apply list_elem_of_In.
  - intros Hin. exists name. split; [by apply list_elem_of_In|apply String.eqb_refl].
Qed.

Lemma release_cons (name : string) (c : ComponentSpec) (cs : list ComponentSpec)
    (d : Z) (ds : list Z) (i : nat) :
  release name (c :: cs) (d :: ds) i
  = if dependsOn c name
    then ((d - 1) :: fst (release name cs ds (S i)),
          if d - 1 =? 0 then i :: snd (release name cs ds (S i))
          else snd (release name cs ds (S i)))
    else (d :: fst (release name cs ds (S i)), snd (release name cs ds (S i))).
Proof. cbn [release]. by destruct (release name cs ds (S i)). Qed.

(** One pass of the inner loop: every in-degree of a dependent of [name]
    drops by one, and the indices whose in-degree drops to zero are
    appended, each once. *)
Lemma release_spec (name : string) (cs : list ComponentSpec) :
  ∀ (ds : list Z) (i : nat),
    length ds = length cs →
    length (fst (release name cs ds i)) = length ds
    ∧ (∀ k c d, cs !! k = Some c → ds !! k = Some d →
         fst (release name cs ds i) !! k
         = Some (if dependsOn c name then d - 1 else d))
    ∧ (∀ j, j ∈ snd (release name cs ds i)
            ↔ ∃ k c, j = (i + k)%nat ∧ cs !! k = Some c ∧ ds !! k = Some 1
                     ∧ dependsOn c name = true)
    ∧ NoDup (snd (release name cs ds i)).
Proof.
  induction cs as [|c cs IH]; intros ds i Hlen.
  - destruct ds; [|done]. cbn. split; [done|]. split; [done|]. split; [|constructor].
    intros j. split; [by intros ?%elem_of_nil|]. by intros (k & c & _ & ? & _).
  - destruct ds as [|d ds]; [done|]. injection Hlen as Hlen.
    destruct (IH ds (S i) Hlen) as (Hl & Hdeg & Hready & Hnd).
    rewrite release_cons.
    assert (∀ j, (j ∈ snd (release name cs ds (S i)) ∨
                  (j = i ∧ d = 1 ∧ dependsOn c name = true))
                 ↔ ∃ k c', j = (i + k)%nat ∧ (c :: cs) !! k = Some c'
                           ∧ (d :: ds) !! k = Some 1 ∧ dependsOn c' name = true) as Hmem.
    { intros j. rewrite Hready. split.
      - intros [(k & c' & -> & Hc & Hd & Hdep)|(-> & -> & Hdep)].
        + exists (S k), c'. split; [lia|done].
        + exists 0%nat, c. split; [lia|done].
      - intros (k & c' & -> & Hc & Hd & Hdep). destruct k as [|k].
        + right. cbn in Hc, Hd. simplify_eq. split; [lia|done].
        + left. exists k, c'. split; [lia|done]. }
    assert (i ∉ snd (release name cs ds (S i))) as Hfresh.
    { rewrite Hready. intros (k & _ & ? & _). lia. }
    destruct (dependsOn c name) eqn:Hdep.
    + cbn [fst snd]. split; [cbn; by rewrite Hl|]. split.
      { intros [|k] c' d' Hc Hd; cbn in Hc, Hd; simplify_eq; [by rewrite Hdep|].
        by apply Hdeg. }
      destruct (Z.eqb_spec (d - 1) 0) as [Hone|Hone].
      * split.
        { intros j. rewrite elem_of_cons, <- Hmem.
          split; [intros [->|?]|intros [?|(-> & _)]]; auto.
          right. split; [done|]. split; [lia|done]. }
        by constructor.
      * split; [|done]. intros j. rewrite <- Hmem. split; [by left|].
        intros [?|(_ & ? & _)]; [done|lia].
    + cbn [fst snd]. split; [cbn; by rewrite Hl|]. split.
      { intros [|k] c' d' Hc Hd; cbn in Hc, Hd; simplify_eq; [by rewrite Hdep|].
        by apply Hdeg. }
      split; [|done]. intros j. rewrite <- Hmem. split; [by left|].
      intros [?|(_ & _ & ?)]; done.
Qed.

Lemma initialQueue_spec (ds : list Z) :
  ∀ i, (∀ j, j ∈ initialQueue ds i ↔ ∃ k, j = (i + k)%nat ∧ ds !! k = Some 0)
       ∧ NoDup (initialQueue ds i).
Proof.
  induction ds as [|d ds IH]; intros i; cbn [initialQueue].
  - split; [|constructor]. intros j. split; [by intros ?%elem_of_nil|].
    by intros (k & _ & ?).
  - destruct (IH (S i)) as [Hmem Hnd].
    assert (∀ j, (j ∈ initialQueue ds (S i) ∨ (j = i ∧ d = 0))
                 ↔ ∃ k, j = (i + k)%nat ∧ (d :: ds) !! k = Some 0) as Hcons.
    { intros j. rewrite Hmem. split.
      - intros [(k & -> & Hk)|[-> ->]]; [exists (S k)|exists 0%nat]; split; (lia || done).
      - intros ([|k] & -> & Hk); cbn in Hk; simplify_eq.
        + right. split; [lia|done].
        + left. exists k. split; [lia|done]. }
    destruct (Z.eqb_spec d 0) as [->|Hd].
    + split.
      * intros j. rewrite elem_of_cons, <- Hcons. naive_solver.
      * constructor; [|done]. rewrite Hmem. intros (k & ? & _). lia.
    + split; [|done]. intros j. rewrite <- Hcons. naive_solver.
Qed.


(** A relation between the variables of the loop that every round keeps
    holds when the loop ends. *)
Lemma drain_invariant (Inv : list Z → list nat → list ComponentSpec → Prop) :
  (∀ inDegrees q queue ret c,
     Inv inDegrees (q :: queue) ret → components !! q = Some c →
     Inv (fst (release (Name c) components inDegrees 0))
         (queue ++ snd (release (Name c) components inDegrees 0))
         (ret ++ [c])) →
  ∀ fuel inDegrees queue ret out,
    Inv inDegrees queue ret →
    drain fuel components inDegrees queue ret = Some out →
    ∃ inDegrees', Inv inDegrees' [] out.
Proof.
  intros Hstep fuel. induction fuel as [|fuel IH]; intros ds queue ret out Hinv.
  - destruct queue; [|done]. intros [= <-]. eauto.
  - destruct queue as [|q queue]; [intros [= <-]; eauto|]. cbn [drain].
    destruct (components !! q) as [c|] eqn:Hq; [|done].
    pose proof (Hstep _ _ _ _ _ Hinv Hq) as Hnext.
    destruct (release (Name c) components ds 0) as [ds' ready]. by apply IH.
Qed.

Lemma queueInvariant_bound (inDegrees : list Z) (queue done : list nat) :
  queueInvariant components inDegrees queue done →
  (length done + length queue <= length components)%nat.
Proof.
  intros (_ & Hnd & Hlt & _). rewrite <- length_app.
  transitivity (length (seq 0 (length components))); [|by rewrite length_seq].
  apply submseteq_length, NoDup_submseteq; [done|].
  intros i Hi. apply elem_of_seq. specialize (Hlt i Hi). lia.
Qed.

(** One round of the loop keeps [queueInvariant]. *)
Lemma queueInvariant_step (inDegrees : list Z) (q : nat) (queue done : list nat)
    (c : ComponentSpec) :
  queueInvariant components inDegrees (q :: queue) done →
  components !! q = Some c →
  queueInvariant components
    (fst (release (Name c) components inDegrees 0))
    (queue ++ snd (release (Name c) components inDegrees 0))
    (done ++ [q]).
Proof.
  intros (Hlen & Hnd & Hlt & Hdeg) Hq.
  destruct (release_spec (Name c) components inDegrees 0 Hlen)
    as (Hlen' & Hnew & Hready & Hndr).
  assert (∀ i, i ∈ (done ++ [q]) ++ queue ++ snd (release (Name c) components inDegrees 0)
               ↔ i ∈ done ++ q :: queue
                 ∨ i ∈ snd (release (Name c) components inDegrees 0)) as Hmem.
  { intros i. rewrite !elem_of_app, !elem_of_cons, elem_of_nil. tauto. }
  assert (∀ i, i ∈ snd (release (Name c) components inDegrees 0) →
               i ∉ done ++ q :: queue) as Hfresh.
  { intros i (k & c' & -> & Hc' & Hd & _)%Hready Hin.
    apply (Hdeg _ _ Hd) in Hin. lia. }
  split; [by rewrite Hlen'|]. split; [|split].
  - replace ((done ++ [q]) ++ queue ++ snd (release (Name c) components inDegrees 0))
      with ((done ++ q :: queue) ++ snd (release (Name c) components inDegrees 0))
      by (by rewrite <- !app_assoc).
    apply NoDup_app. split; [done|]. split; [|done].
    intros i Hi Hr. by apply (Hfresh i Hr).
  - intros i [Hi|Hi]%Hmem; [by apply Hlt|].
    apply Hready in Hi as (k & c' & -> & Hc' & _). by apply lookup_lt_Some in Hc'.
  - intros i d' Hd'. rewrite Hmem.
    assert (is_Some (inDegrees !! i)) as [d Hd].
    { apply lookup_lt_is_Some. rewrite <- Hlen'. by apply lookup_lt_Some in Hd'. }
    assert (is_Some (components !! i)) as [c' Hc'].
    { apply lookup_lt_is_Some. rewrite <- Hlen. by apply lookup_lt_Some in Hd. }
    rewrite (Hnew _ _ _ Hc' Hd) in Hd'. injection Hd' as <-.
    rewrite (Hdeg _ _ Hd), Hready. split.
    + intros [Hle|(k & c'' & -> & Hc'' & Hd'' & Hdep)].
      * destruct (dependsOn c' (Name c)); lia.
      * cbn in Hc', Hd. simplify_eq. rewrite Hdep. lia.
    + intros Hle. destruct (dependsOn c' (Name c)) eqn:Hdep; [|by left].
      destruct (decide (d <= 0)); [by left|]. right.
      exists i, c'. split; [done|]. split; [done|]. split; [|done].
      rewrite Hd. f_equal. lia.
Qed.

Lemma queueInvariant_initial :
  queueInvariant components (initialDegrees components)
    (initialQueue (initialDegrees components) 0) [].
Proof.
  destruct (initialQueue_spec (initialDegrees components) 0) as [Hmem Hnd].
  split; [by unfold initialDegrees; rewrite length_map|]. split; [done|]. split.
  - intros i (k & -> & Hk)%Hmem. apply lookup_lt_Some in Hk.
    unfold initialDegrees in Hk. by rewrite length_map in Hk.
  - intros i d Hd. cbn [app]. rewrite Hmem. split.
    + intros (k & -> & Hk). cbn in Hd. simplify_eq. lia.
    + intros Hle. exists i. split; [done|]. rewrite Hd. f_equal.
      unfold initialDegrees in Hd. rewrite list_lookup_fmap in Hd.
      destruct (components !! i); simplify_eq/=. lia.
Qed.

(** The loop ends within its fuel and reads no index out of range. *)
Lemma drain_total (fuel : nat) :
  ∀ inDegrees queue done ret,
    queueInvariant components inDegrees queue done →
    (length components <= fuel + length done)%nat →
    is_Some (drain fuel components inDegrees queue ret).
Proof.
  induction fuel as [|fuel IH]; intros ds queue done ret Hinv Hfuel.
  - pose proof (queueInvariant_bound _ _ _ Hinv) as Hbound.
    destruct queue; [by eexists|]. cbn in Hbound, Hfuel. lia.
  - destruct queue as [|q queue]; [by eexists|]. cbn [drain].
    assert (is_Some (components !! q)) as [c Hq].
    { apply lookup_lt_is_Some. destruct Hinv as (_ & _ & Hlt & _).
      apply Hlt. apply elem_of_app. right. apply list_elem_of_here. }
    rewrite Hq. pose proof (queueInvariant_step _ _ _ _ _ Hinv Hq) as Hnext.
    destruct (release (Name c) components ds 0) as [ds' ready].
    apply (IH _ _ (done ++ [q])); [done|]. rewrite length_app. cbn. lia.
Qed.

(** [sortByDepedencies] returns on every list of components. *)
Lemma sortByDepedencies_total : is_Some (sortByDepedencies components).
Proof.
  unfold sortByDepedencies.
  destruct (drain_total (length components) (initialDegrees components)
              (initialQueue (initialDegrees components) 0) [] []
              queueInvariant_initial) as [ret ->]; [cbn; lia|].
  destruct (decide _); by eexists.
Qed.


Lemma emitted_snoc (done : list nat) (q : nat) (c : ComponentSpec) :
  components !! q = Some c →
  emitted components (done ++ [q]) = emitted components done ++ [c].
Proof. intros Hq. unfold emitted. rewrite omap_app. cbn. by rewrite Hq. Qed.

Lemma emitted_length (done : list nat) :
  (∀ i, i ∈ done → (i < length components)%nat) →
  length (emitted components done) = length done.
Proof.
  unfold emitted. induction done as [|i done IH]; intros Hlt; [done|]. cbn.
  destruct (lookup_lt_is_Some_2 components i) as [c ->].
  { apply Hlt, list_elem_of_here. }
  cbn. f_equal. apply IH. intros j Hj. by apply Hlt, list_elem_of_further.
Qed.

Lemma elem_of_emitted (done : list nat) (c : ComponentSpec) :
  c ∈ emitted components done ↔ ∃ i, i ∈ done ∧ components !! i = Some c.
Proof. unfold emitted. by rewrite list_elem_of_omap. Qed.

Lemma omap_lookup_seq (pre cs : list ComponentSpec) :
  omap (fun i => (pre ++ cs) !! i) (seq (length pre) (length cs)) = cs.
Proof.
  revert pre. induction cs as [|c cs IH]; intros pre; [done|].
  cbn [length seq]. simpl omap. rewrite list_lookup_middle by done. f_equal.
  specialize (IH (pre ++ [c])). rewrite <- app_assoc, length_app in IH.
  cbn [app length] in IH.
  by replace (length pre + 1)%nat with (S (length pre)) in IH by lia.
Qed.

Lemma emitted_all (done : list nat) :
  NoDup done → (∀ i, i ∈ done → (i < length components)%nat) →
  length done = length components →
  emitted components done ≡ₚ components.
Proof.
  intros Hnd Hlt Hlen.
  assert (done ≡ₚ seq 0 (length components)) as Hperm.
  { apply submseteq_length_Permutation.
    - apply NoDup_submseteq; [done|]. intros i Hi. apply elem_of_seq.
      specialize (Hlt i Hi). lia.
    - by rewrite length_seq, Hlen. }
  unfold emitted. rewrite Hperm.
  pose proof (omap_lookup_seq [] components) as Hall. cbn [app length] in Hall.
  by rewrite Hall.
Qed.

(** The list that the loop builds holds the components of distinct
    indices; when it has the length of [components], it is a permutation
    of it. *)
Lemma sortByDepedencies_outcome :
  ∃ out done,
    drain (length components) components (initialDegrees components)
      (initialQueue (initialDegrees components) 0) [] = Some out
    ∧ out = emitted components done
    ∧ NoDup done
    ∧ (length out <= length components)%nat
    ∧ ((length out = length components
        ∧ sortByDepedencies components = Some (Returns out)
        ∧ out ≡ₚ components)
       ∨ (length out ≠ length components
          ∧ sortByDepedencies components = Some (Fails sortError))).
Proof.
  destruct (drain_total (length components) (initialDegrees components)
              (initialQueue (initialDegrees components) 0) [] []
              queueInvariant_initial) as [out Hout]; [cbn; lia|].
  destruct (drain_invariant
              (fun ds queue ret =>
                 ∃ done, ret = emitted components done
                         ∧ queueInvariant components ds queue done))
    with (fuel := length components) (inDegrees := initialDegrees components)
         (queue := initialQueue (initialDegrees components) 0)
         (ret := @nil ComponentSpec) (out := out)
    as (ds & popped & -> & Hinv); [| |done|].
  { intros ds q queue ret c (popped & -> & Hinv) Hq. exists (popped ++ [q]).
    split; [by rewrite (emitted_snoc _ _ c)|]. by apply queueInvariant_step. }
  { exists []. split; [done|]. apply queueInvariant_initial. }
  pose proof (queueInvariant_bound _ _ _ Hinv) as Hbound.
  destruct Hinv as (_ & Hnd & Hlt & _). rewrite app_nil_r in Hnd, Hlt.
  pose proof (emitted_length popped Hlt) as Hlen. cbn in Hbound.
  exists (emitted components popped), popped. split; [done|]. split; [done|].
  split; [done|]. split; [lia|].
  unfold sortByDepedencies. rewrite Hout.
  destruct (decide (length (emitted components popped) = length components)) as [Heq|Hne].
  - left. split; [done|]. split; [done|]. apply emitted_all; [done..|lia].
  - by right.
Qed.

(** On every list of components [sortByDepedencies] returns: either a
    permutation of the components, or the error. *)
Theorem sortByDepedencies_permutation_or_error :
  (∃ ret, sortByDepedencies components = Some (Returns ret)
          ∧ ret ≡ₚ components ∧ length ret = length components)
  ∨ sortByDepedencies components = Some (Fails sortError).
Proof.
  destruct sortByDepedencies_outcome
    as (out & _ & _ & _ & _ & _ & [(Hlen & Hsort & Hperm)|(_ & Hsort)]).
  - left. by exists out.
  - by right.
Qed.

End Loop.

Section Sorted.
Variable components : list ComponentSpec.
Hypothesis Hnames : distinctNames components.
Hypothesis Hdeps : dependencySets components.

Lemma index_of_name (i j : nat) (c d : ComponentSpec) :
  components !! i = Some c → components !! j = Some d → Name c = Name d → i = j.
Proof.
  intros Hi Hj Hname. apply (NoDup_lookup _ _ _ (Name c) Hnames).
  - by rewrite list_lookup_fmap, Hi.
  - by rewrite list_lookup_fmap, Hj, Hname.
Qed.

Lemma component_of_name (c d : ComponentSpec) :
  c ∈ components → d ∈ components → Name c = Name d → c = d.
Proof.
  intros [i Hi]%list_elem_of_lookup [j Hj]%list_elem_of_lookup Hname.
  pose proof (index_of_name _ _ _ _ Hi Hj Hname) as ->. congruence.
Qed.

Lemma components_NoDup : NoDup components.
Proof. by apply (NoDup_fmap_1 Name). Qed.

(** Emitting [name] meets one dependency of the components that list it. *)
Lemma unmet_snoc (names : list string) (name : string) (c : ComponentSpec) :
  name ∉ names → NoDup (Dependencies c) →
  unmet (names ++ [name]) c = unmet names c - (if dependsOn c name then 1 else 0).
Proof.
  intros Hfresh. unfold unmet.
  assert (∀ l, NoDup l →
            Z.of_nat (length (filter (fun x => x ∉ names ++ [name]) l))
            = Z.of_nat (length (filter (fun x => x ∉ names) l))
              - (if bool_decide (name ∈ l) then 1 else 0)) as Hcount.
  { induction l as [|x l IH]; intros Hnd; [done|].
    apply NoDup_cons in Hnd as [Hx Hnd]. specialize (IH Hnd).
    destruct (decide (x = name)) as [->|Hne].
    - rewrite (filter_cons_False _ name) by (rewrite elem_of_app, list_elem_of_singleton; tauto).
      rewrite (filter_cons_True _ name) by done.
      rewrite bool_decide_eq_true_2 by apply list_elem_of_here.
      rewrite bool_decide_eq_false_2 in IH by done. cbn [length]. lia.
    - assert (bool_decide (name ∈ x :: l) = bool_decide (name ∈ l)) as ->.
      { apply bool_decide_ext. rewrite elem_of_cons. naive_solver. }
      destruct (decide (x ∈ names)) as [Hin|Hout].
      + rewrite !filter_cons_False; [done|tauto|].
        rewrite elem_of_app. tauto.
      + rewrite !filter_cons_True; [cbn [length]; lia|done|].
        rewrite elem_of_app, list_elem_of_singleton. tauto. }
  intros Hnd. rewrite (Hcount _ Hnd).
  destruct (dependsOn c name) eqn:Hdep.
  - apply dependsOn_true in Hdep. by rewrite bool_decide_eq_true_2.
  - rewrite bool_decide_eq_false_2; [done|]. intros Hin%dependsOn_true. congruence.
Qed.

Lemma unmet_zero (names : list string) (c : ComponentSpec) :
  unmet names c <= 0 → ∀ x, x ∈ Dependencies c → x ∈ names.
Proof.
  unfold unmet. intros Hle x Hx.
  destruct (decide (x ∈ names)) as [Hin|Hout]; [done|].
  assert (x ∈ filter (fun x => x ∉ names) (Dependencies c)) as Hfil.
  { by apply list_elem_of_filter. }
  destruct (filter _ _); [by apply elem_of_nil in Hfil|]. cbn [length] in Hle. lia.
Qed.

Lemma unmet_positive (names : list string) (c : ComponentSpec) :
  0 < unmet names c → ∃ x, x ∈ Dependencies c ∧ x ∉ names.
Proof.
  unfold unmet. intros Hpos.
  destruct (filter (fun x => x ∉ names) (Dependencies c)) as [|x l] eqn:Hfil;
    [cbn in Hpos; lia|].
  assert (x ∈ filter (fun x => x ∉ names) (Dependencies c)) as Hx.
  { rewrite Hfil. apply list_elem_of_here. }
  apply list_elem_of_filter in Hx as [Hout Hin]. eauto.
Qed.

Lemma sortInvariant_initial :
  sortInvariant components (initialDegrees components)
    (initialQueue (initialDegrees components) 0) [].
Proof.
  exists []. split; [done|]. split; [apply queueInvariant_initial|]. split.
  - intros i c d Hc Hd. unfold initialDegrees in Hd.
    rewrite list_lookup_fmap, Hc in Hd. injection Hd as <-.
    unfold unmet. f_equal. f_equal. symmetry.
    induction (Dependencies c) as [|x l IH]; [done|].
    rewrite filter_cons_True; [by rewrite IH | by intros ?%elem_of_nil].
  - intros pre c post Heq. by destruct pre.
Qed.

Lemma sortInvariant_step (inDegrees : list Z) (q : nat) (queue : list nat)
    (ret : list ComponentSpec) (c : ComponentSpec) :
  sortInvariant components inDegrees (q :: queue) ret →
  components !! q = Some c →
  sortInvariant components (fst (release (Name c) components inDegrees 0))
    (queue ++ snd (release (Name c) components inDegrees 0)) (ret ++ [c]).
Proof.
  intros (popped & -> & Hinv & Hdegree & Hordered) Hq.
  pose proof Hinv as (Hlen & Hnd & Hlt & Hdeg).
  destruct (release_spec (Name c) components inDegrees 0 Hlen) as (_ & Hnew & _).
  assert (Name c ∉ Name <$> emitted components popped) as Hfresh.
  { intros (c' & Hname & (j & Hj & Hc')%elem_of_emitted)%list_elem_of_fmap.
    pose proof (index_of_name _ _ _ _ Hq Hc' Hname) as ->.
    apply NoDup_app in Hnd as (_ & Hdisj & _).
    apply (Hdisj _ Hj), list_elem_of_here. }
  assert (∀ x, x ∈ Dependencies c → x ∈ Name <$> emitted components popped) as Hmet.
  { assert (is_Some (inDegrees !! q)) as [d Hd].
    { apply lookup_lt_is_Some. rewrite Hlen. by apply lookup_lt_Some in Hq. }
    apply unmet_zero. rewrite <- (Hdegree _ _ _ Hq Hd). apply (Hdeg _ _ Hd).
    apply elem_of_app. right. apply list_elem_of_here. }
  exists (popped ++ [q]). split; [by rewrite (emitted_snoc _ _ _ c)|].
  split; [by apply queueInvariant_step|]. split.
  - intros i c' d' Hc' Hd'.
    assert (is_Some (inDegrees !! i)) as [d Hd].
    { apply lookup_lt_is_Some. rewrite Hlen. by apply lookup_lt_Some in Hc'. }
    rewrite (Hnew _ _ _ Hc' Hd) in Hd'. injection Hd' as <-.
    rewrite fmap_app. cbn [fmap list_fmap].
    rewrite unmet_snoc; [|done|apply Hdeps; by eapply list_elem_of_lookup_2].
    rewrite <- (Hdegree _ _ _ Hc' Hd). destruct (dependsOn c' (Name c)); lia.
  - intros pre c0 post Heq x Hx.
    destruct post as [|z post _] using rev_ind.
    + apply app_inj_tail in Heq as [<- <-]. by apply Hmet.
    + rewrite app_comm_cons, app_assoc in Heq. apply app_inj_tail in Heq as [Heq _].
      by apply (Hordered pre c0 post).
Qed.


(** The state of the loop when it ends. *)
Lemma sortInvariant_final :
  ∃ out inDegrees,
    drain (length components) components (initialDegrees components)
      (initialQueue (initialDegrees components) 0) [] = Some out
    ∧ sortInvariant components inDegrees [] out.
Proof.
  destruct (sortByDepedencies_outcome components) as (out & _ & Hout & _).
  exists out.
  destruct (drain_invariant components (sortInvariant components))
    with (fuel := length components) (inDegrees := initialDegrees components)
         (queue := initialQueue (initialDegrees components) 0)
         (ret := @nil ComponentSpec) (out := out)
    as (ds & Hinv); [|apply sortInvariant_initial|done|by exists ds].
  intros ds q queue ret c. apply sortInvariant_step.
Qed.

(** In a list in dependency order that holds all components, every edge
    of the dependency graph goes to an earlier position. *)
Lemma dependency_earlier (out : list ComponentSpec) (c d : ComponentSpec) :
  out ≡ₚ components → dependencyOrdered out →
  tc (dependency components) c d →
  ∃ i j, out !! i = Some c ∧ out !! j = Some d ∧ (j < i)%nat.
Proof.
  intros Hperm Hordered Htc.
  assert (NoDup out) as Hnd by (rewrite Hperm; apply components_NoDup).
  assert (∀ c d, dependency components c d →
            ∃ i j, out !! i = Some c ∧ out !! j = Some d ∧ (j < i)%nat) as Hedge.
  { clear c d Htc. intros c d (Hc & Hd & Hdep).
    rewrite <- Hperm in Hc. apply list_elem_of_split in Hc as (pre & post & ->).
    pose proof (Hordered pre c post eq_refl _ Hdep) as Hin.
    apply list_elem_of_fmap in Hin as (d' & Hname & Hd').
    assert (d' = d) as ->.
    { apply component_of_name; [|done..]. rewrite <- Hperm.
      apply elem_of_app. by left. }
    apply list_elem_of_lookup in Hd' as [j Hj].
    exists (length pre), j. split; [by apply list_lookup_middle|].
    split; [by apply lookup_app_l_Some|]. by apply lookup_lt_Some in Hj. }
  induction Htc as [c d Hstep|c m d Hstep Htc IH].
  - by apply Hedge.
  - destruct (Hedge _ _ Hstep) as (i & j1 & Hi & Hj1 & Hlt1).
    destruct IH as (i2 & j & Hi2 & Hj & Hlt2).
    pose proof (NoDup_lookup _ _ _ _ Hnd Hj1 Hi2) as ->.
    exists i, j. split; [done|]. split; [done|]. lia.
Qed.

(** When the sort returns a list, the graph is resolved and acyclic. *)
Lemma sorted_graph (out : list ComponentSpec) :
  out ≡ₚ components → dependencyOrdered out →
  resolved components ∧ acyclic components.
Proof.
  intros Hperm Hordered. split.
  - intros c n Hc Hn. rewrite <- Hperm in Hc.
    apply list_elem_of_split in Hc as (pre & post & ->).
    pose proof (Hordered pre c post eq_refl _ Hn) as Hin.
    apply list_elem_of_fmap in Hin as (d & Hname & Hd).
    exists d. split; [|done]. rewrite <- Hperm. apply elem_of_app. by left.
  - intros c Hcycle.
    destruct (dependency_earlier out c c Hperm Hordered Hcycle) as (i & j & Hi & Hj & Hlt).
    assert (NoDup out) as Hnd by (rewrite Hperm; apply components_NoDup).
    pose proof (NoDup_lookup _ _ _ _ Hnd Hi Hj). lia.
Qed.

(** When the graph is resolved and acyclic, the loop emits every
    component. *)
Lemma acyclic_emits_all (inDegrees : list Z) (out : list ComponentSpec) :
  resolved components → acyclic components →
  sortInvariant components inDegrees [] out →
  ∀ c, c ∈ components → c ∈ out.
Proof.
  intros Hres Hacyc (popped & -> & Hinv & Hdegree & _).
  destruct Hinv as (Hlen & _ & _ & Hdeg).
  intros c.
  assert (sn (dependency components) c) as Hsn.
  { apply tc_finite_sn; [exact Hacyc|]. exists components.
    intros d Htc. induction Htc as [? ? (_ & ? & _)|]; done. }
  induction Hsn as [c _ IH]. intros Hc.
  pose proof Hc as [i Hi]%list_elem_of_lookup.
  destruct (decide (i ∈ popped)) as [Hin|Hout].
  { apply elem_of_emitted. eauto. }
  exfalso.
  assert (is_Some (inDegrees !! i)) as [d Hd].
  { apply lookup_lt_is_Some. rewrite Hlen. by apply lookup_lt_Some in Hi. }
  assert (0 < d) as Hpos.
  { destruct (decide (d <= 0)) as [Hle|]; [|lia].
    apply (Hdeg _ _ Hd) in Hle. by rewrite app_nil_r in Hle. }
  rewrite (Hdegree _ _ _ Hi Hd) in Hpos.
  apply unmet_positive in Hpos as (x & Hx & Hnot).
  destruct (Hres c x Hc Hx) as (dep & Hdep & <-).
  apply Hnot, list_elem_of_fmap. exists dep. split; [done|].
  apply IH; [|done]. cbn. done.
Qed.


(** With distinct names and dependency sets, the sort returns a list,
    which is then a permutation in dependency order, exactly when the
    graph is resolved and acyclic, and the error otherwise. *)
Lemma sortByDepedencies_graph :
  ((∃ ret, sortByDepedencies components = Some (Returns ret)
           ∧ ret ≡ₚ components ∧ length ret = length components)
   ↔ resolved components ∧ acyclic components)
  ∧ (¬ (resolved components ∧ acyclic components) →
     sortByDepedencies components = Some (Fails sortError))
  ∧ (∀ ret, sortByDepedencies components = Some (Returns ret) → dependencyOrdered ret).
Proof.
  destruct sortInvariant_final as (out & ds & Hdrain & Hinv).
  destruct (sortByDepedencies_outcome components)
    as (out' & popped & Hdrain' & _ & _ & Hle & Hcases).
  assert (out' = out) as -> by congruence.
  pose proof Hinv as (_ & _ & _ & _ & Hordered).
  destruct Hcases as [(Hlen & Hsort & Hperm)|(Hlen & Hsort)].
  - pose proof (sorted_graph out Hperm Hordered) as Hgraph.
    split; [|split].
    + split; [done|]. intros _. by exists out.
    + intros Hnot. by destruct Hnot.
    + intros ret Hret. rewrite Hsort in Hret. by injection Hret as <-.
  - split; [|split].
    + split.
      * intros (ret & Hret & _). by rewrite Hsort in Hret.
      * intros [Hres Hacyc]. exfalso. apply Hlen.
        pose proof (acyclic_emits_all ds out Hres Hacyc Hinv) as Hall.
        apply Nat.le_antisymm; [done|].
        apply submseteq_length, NoDup_submseteq; [apply components_NoDup|done].
    + done.
    + intros ret Hret. by rewrite Hsort in Hret.
Qed.

End Sorted.

(** A strictly decreasing rank shows that a graph has no cycle. *)
Lemma acyclic_of_rank (components : list ComponentSpec) (rank : ComponentSpec → nat) :
  (∀ c d, dependency components c d → (rank d < rank c)%nat) →
  acyclic components.
Proof.
  intros Hrank c Hcycle.
  assert (∀ c d, tc (dependency components) c d → (rank d < rank c)%nat) as Htc.
  { clear c Hcycle. intros c d Htc.
    induction Htc as [c d Hstep|c m d Hstep _ IH]; [by apply Hrank|].
    specialize (Hrank _ _ Hstep). lia. }
  specialize (Htc c c Hcycle). lia.
Qed.

(** C5, as the code has it: for a list of components with pairwise
    distinct names in which no component lists a dependency twice,
    [sortByDepedencies] returns a permutation of the [|components|]
    components exactly when the dependency graph is acyclic and every
    dependency names a component of the list; otherwise it returns the
    error "circular dependencies or unresolved dependencies detected in
    components"; a returned list is in dependency order. *)
Theorem sortByDepedencies_topological_completeness (components : list ComponentSpec) :
  distinctNames components →
  dependencySets components →
  ((∃ ret, sortByDepedencies components = Some (Returns ret)
           ∧ ret ≡ₚ components ∧ length ret = length components)
   ↔ resolved components ∧ acyclic components)
  ∧ (¬ (resolved components ∧ acyclic components) →
     sortByDepedencies components = Some (Fails sortError))
  ∧ (∀ ret, sortByDepedencies components = Some (Returns ret) → dependencyOrdered ret).
Proof. apply sortByDepedencies_graph. Qed.

Lemma sortByDepedencies_topological_completeness_witness :
  resolved [Reference.componentA; Reference.componentB]
  ∧ acyclic [Reference.componentA; Reference.componentB].
Proof.
  refine (proj1 (proj1 (sortByDepedencies_topological_completeness
                          [Reference.componentA; Reference.componentB] _ _)) _).
  - refine (bool_decide_unpack _ _). vm_compute. exact I.
  - intros c Hc. refine (bool_decide_unpack _ _).
    apply elem_of_cons in Hc as [->|Hc]; [vm_compute; exact I|].
    apply elem_of_cons in Hc as [->|Hc]; [vm_compute; exact I|].
    by apply elem_of_nil in Hc.
  - exists [Reference.componentA; Reference.componentB].
    split; [reflexivity|]. split; reflexivity.
Defined.

Lemma repeated_graph : resolved Reference.repeated ∧ acyclic Reference.repeated.
Proof.
  split.
  - intros c n Hc Hn. exists Reference.componentA. split; [apply list_elem_of_here|].
    apply elem_of_cons in Hc as [->|Hc]; [by apply elem_of_nil in Hn|].
    apply list_elem_of_singleton in Hc as ->.
    apply elem_of_cons in Hn as [->|Hn]; [done|].
    by apply list_elem_of_singleton in Hn as ->.
  - apply (acyclic_of_rank _ (fun c => length (Dependencies c))).
    intros c d (Hc & Hd & Hdep).
    apply elem_of_cons in Hc as [->|Hc]; [by apply elem_of_nil in Hdep|].
    apply list_elem_of_singleton in Hc as ->.
    apply elem_of_cons in Hd as [->|Hd]; [cbn; lia|].
    apply list_elem_of_singleton in Hd as ->. exfalso.
    cbn in Hdep. apply elem_of_cons in Hdep as [?|Hdep]; [done|].
    by apply list_elem_of_singleton in Hdep.
Qed.

(** C5 as stated fails on a component that lists a dependency twice:
    [A] without dependencies and [B] with the dependencies [A, A] form
    a resolved acyclic graph, and the sort returns the error. *)
Lemma sortByDepedencies_as_specified_fails :
  sortByDepedencies Reference.repeated = Some (Fails sortError)
  ∧ resolved Reference.repeated
  ∧ acyclic Reference.repeated
  ∧ ¬ sortByDepedencies_as_specified.
Proof.
  destruct repeated_graph as [Hres Hacyc].
  split; [reflexivity|]. split; [done|]. split; [done|]. intros Hclaim.
  destruct (Hclaim Reference.repeated) as [[_ Hreturns] _].
  destruct Hreturns as (ret & Hret & _); [done|discriminate Hret].
Qed.

(** With two components of one name the sort can return all components
    although a dependency names no component. *)
Lemma sortByDepedencies_homonyms :
  sortByDepedencies Reference.homonyms = Some (Returns Reference.homonyms)
  ∧ ¬ resolved Reference.homonyms.
Proof.
  split; [reflexivity|]. intros Hres.
  destruct (Hres (mkComponent "C" "" ∅ ["A"; "Z"]) "Z") as (d & Hd & Hname).
  - apply list_elem_of_further, list_elem_of_further, list_elem_of_here.
  - apply list_elem_of_further, list_elem_of_here.
  - repeat (apply elem_of_cons in Hd as [->|Hd]; [discriminate Hname|]).
    by apply elem_of_nil in Hd.
Qed.

End SortProofs.

(** ** The in-memory state provider: reads after writes *)

Module StoreProofs.
Import States MemoryState.

Lemma wrap64_range (z : Z) :
  Strconv.MinInt64 <= Strconv.wrap64 z <= Strconv.MaxInt64.
Proof.
  unfold Strconv.MinInt64, Strconv.MaxInt64, Strconv.wrap64.
  pose proof (Z.mod_pos_bound (z + 2 ^ 63) (2 ^ 64)). lia.
Qed.

(** The tag that [Upsert] writes is the decimal form of an [int64]. *)
Lemma nextETag_parses (etag : string) : is_Some (Strconv.ParseInt (nextETag etag)).
Proof.
  unfold nextETag. destruct (String.eqb etag ""); [by eexists|].
  destruct (Strconv.ParseInt etag) as [v|]; [|by eexists].
  eexists. apply StrconvFacts.ParseInt_FormatInt, wrap64_range.
Qed.


Lemma Get_lookup (s s' : MemoryStateProvider) (id id' : string) :
  Data s' !! id' = Data s !! id → id' = id → Get s' id' = Get s id.
Proof. intros Hdata ->. unfold Get. by rewrite Hdata. Qed.

(** An [Upsert] without [UpdateStateOnly] cannot fail: whatever the
    store holds under the id, and whatever tag the request carries, it
    returns the id and files the body of the request under it, so that
    [Get] reads that body back. *)
Theorem Upsert_then_Get (s : MemoryStateProvider) (entry : UpsertRequest) :
  UpdateStateOnly (Options entry) = false →
  fst (Upsert s entry) = Returns (ID (Value entry))
  ∧ Get (snd (Upsert s entry)) (ID (Value entry))
    = Returns (mkStateEntry (ID (Value entry)) (Body (Value entry))
                 (nextETag (ETag (Value entry)))).
Proof.
  intros Hopt. unfold Upsert, Get. rewrite Hopt. cbn [fst snd Data].
  by rewrite lookup_insert_eq.
Qed.

Lemma Upsert_then_Get_witness :
  Get (snd (Upsert Reference.oneEntry (Reference.plainRequest "a" "stale"))) "a"
  = Returns (mkStateEntry "a" (GStr "value") "1").
Proof.
  exact (proj2 (Upsert_then_Get Reference.oneEntry (Reference.plainRequest "a" "stale")
                  eq_refl)).
Defined.



(** [Delete] of an id without cell returns the NotFound error and leaves
    the store as it is; [Delete] of an id with a cell returns nil, after
    which [Get] and a second [Delete] of that id return NotFound.  The
    other cells are left as they are. *)
Theorem Delete_then_Get (s : MemoryStateProvider) (id : string) :
  match Data s !! id with
  | None => Delete s id = (Some (NewCOAError (notFoundMessage id) NotFound), s)
  | Some _ =>
      fst (Delete s id) = None
      ∧ Get (snd (Delete s id)) id = Fails (NewCOAError (notFoundMessage id) NotFound)
      ∧ Delete (snd (Delete s id)) id
        = (Some (NewCOAError (notFoundMessage id) NotFound), snd (Delete s id))
  end
  ∧ ∀ id', id' ≠ id →
      Data (snd (Delete s id)) !! id' = Data s !! id'
      ∧ Get (snd (Delete s id)) id' = Get s id'.
Proof.
  split.
  - destruct (Data s !! id) as [cell|] eqn:Hcell.
    + assert (Delete s id = (None, {| Data := delete id (Data s) |})) as ->.
      { unfold Delete. by rewrite Hcell. }
      cbn [fst snd]. split; [done|]. unfold Get, Delete. cbn [Data].
      by rewrite lookup_delete_eq.
    + unfold Delete. by rewrite Hcell.
  - intros id' Hne.
    assert (Data (snd (Delete s id)) !! id' = Data s !! id') as Hdata.
    { unfold Delete. destruct (Data s !! id); [|done].
      cbn [snd Data]. by rewrite lookup_delete_ne. }
    split; [done|]. by apply Get_lookup.
Qed.

(** The calls of the provider keep the store well formed. *)
Lemma perform_wellFormed (s : MemoryStateProvider) (op : Operation) :
  wellFormed s → wellFormed (perform s op).
Proof.
  intros Hwf. destruct op as [entry|id]; cbn [perform].
  - assert (∀ body, wellFormed
              {| Data := <[ID (Value entry) :=
                             Entry (mkStateEntry (ID (Value entry)) body
                                      (nextETag (ETag (Value entry))))]> (Data s) |})
      as Hput.
    { intros body id cell. cbn [Data].
      destruct (decide (id = ID (Value entry))) as [->|Hne].
      - rewrite lookup_insert_eq. intros [= <-]. eexists. split; [done|].
        split; [done|]. apply nextETag_parses.
      - rewrite lookup_insert_ne by done. apply Hwf. }
    unfold Upsert. destruct (UpdateStateOnly (Options entry)); [|apply Hput].
    destruct (Data s !! ID (Value entry)) as [[existing|]|] eqn:Hcell; [|done..].
    destruct (Body existing); try done.
    destruct (mergeStatus _ _); [apply Hput|].
    cbn [snd]. intros id cell. cbn [Data].
    destruct (decide (id = ID (Value entry))) as [->|Hne].
    + rewrite lookup_insert_eq. intros [= <-].
      destruct (Hwf _ _ Hcell) as (e & [= <-] & Hid & Htag). by eexists.
    + rewrite lookup_insert_ne by done. apply Hwf.
  - unfold Delete. destruct (Data s !! id) as [cell|]; [|done].
    cbn [snd]. intros id' cell'. cbn [Data].
    intros [_ Hcell']%lookup_delete_Some. by apply Hwf.
Qed.

Lemma history_wellFormed (ops : list Operation) : wellFormed (history ops).
Proof.
  unfold history.
  assert (wellFormed Init) as Hinit.
  { intros id cell. unfold Init. cbn [Data]. by rewrite lookup_empty. }
  revert Hinit. generalize Init. induction ops as [|op ops IH]; intros s Hs; [done|].
  cbn [foldl]. by apply IH, perform_wellFormed.
Qed.

(** A store that is written through [Upsert] and [Delete] only, starting
    from [Init], holds no invalid cell: [Get] either returns an entry
    that carries the id it was asked for and a tag that is the decimal
    form of an [int64], or the NotFound error; it never returns the
    InternalError of an invalid state entry. *)
Theorem Get_after_history (ops : list Operation) (id : string) :
  match Get (history ops) id with
  | Returns e => ID e = id ∧ is_Some (Strconv.ParseInt (ETag e))
  | Fails err => err = NewCOAError (notFoundMessage id) NotFound
  | Panics => False
  end.
Proof.
  pose proof (history_wellFormed ops id) as Hwf. unfold Get.
  destruct (Data (history ops) !! id) as [cell|]; [|done].
  destruct (Hwf cell eq_refl) as (e & -> & Hid & Htag). done.
Qed.

End StoreProofs.

(** ** strings: [Index], [Split] and [Join] on texts with one separator *)

Module StringsFacts.
Import Strings.

Lemma append_cons (x : ascii) (a b : string) : String x a +:+ b = String x (a +:+ b).
Proof. reflexivity. Qed.

Lemma append_nil_l (b : string) : "" +:+ b = b.
Proof. reflexivity. Qed.

Lemma append_assoc (a b c : string) : (a +:+ b) +:+ c = a +:+ (b +:+ c).
Proof.
  induction a as [|x a IH]; [done|]. by rewrite !append_cons, IH.
Qed.

Lemma append_nil_r (a : string) : a +:+ "" = a.
Proof. induction a as [|x a IH]; [done|]. by rewrite append_cons, IH. Qed.

Lemma length_append (a b : string) :
  String.length (a +:+ b) = (String.length a + String.length b)%nat.
Proof.
  induction a as [|x a IH]; [done|]. rewrite append_cons. cbn [String.length].
  by rewrite IH.
Qed.

Lemma prefix_append (p r : string) : String.prefix p (p +:+ r) = true.
Proof.
  induction p as [|x p IH]; [by destruct r|].
  rewrite append_cons. cbn [String.prefix]. by destruct (ascii_dec x x).
Qed.

Lemma prefix_head (c x : ascii) (p s : string) :
  Ascii.eqb x c = false → String.prefix (String c p) (String x s) = false.
Proof.
  intros Hne. cbn. destruct (ascii_dec c x) as [->|]; [|done].
  by rewrite Ascii.eqb_refl in Hne.
Qed.

Lemma Index_range (s sub : string) : Index s sub = -1 ∨ 0 <= Index s sub.
Proof.
  induction s as [|x s IH]; cbn [Index].
  - destruct (String.prefix sub ""); [by right|by left].
  - destruct (String.prefix sub (String x s)); [by right|].
    cbv zeta. destruct (Z.ltb_spec (Index s sub) 0); [by left|right; lia].
Qed.

(** A part [k] without the first byte of the separator holds no
    instance of it. *)
Lemma Index_lacks (c : ascii) (sep' k rest : string) :
  lacks c k = true →
  Index (k +:+ rest) (String c sep')
  = if Index rest (String c sep') <? 0 then -1
    else Z.of_nat (String.length k) + Index rest (String c sep').
Proof.
  induction k as [|x k IH]; intros Hk.
  - rewrite append_nil_l. cbn [String.length].
    destruct (Index_range rest (String c sep')) as [->|Hpos]; [done|].
    destruct (Z.ltb_spec (Index rest (String c sep')) 0); lia.
  - cbn [lacks] in Hk. apply andb_true_iff in Hk as [Hx Hk]. apply negb_true_iff in Hx.
    rewrite append_cons.
    cbn [Index]. rewrite (prefix_head c x) by done. rewrite (IH Hk). cbv zeta.
    destruct (Z.ltb_spec (Index rest (String c sep')) 0) as [Hneg|Hpos]; [done|].
    destruct (Z.ltb_spec (Z.of_nat (String.length k) + Index rest (String c sep')) 0);
      [lia|]. cbn [String.length]. lia.
Qed.

Lemma Index_lacks_first (c : ascii) (sep' k : string) :
  lacks c k = true → Index k (String c sep') = -1.
Proof.
  intros Hk. rewrite <- (append_nil_r k) at 1. by rewrite (Index_lacks c sep' k "").
Qed.

Lemma Index_found (c : ascii) (sep' k rest : string) :
  lacks c k = true →
  Index (k +:+ String c sep' +:+ rest) (String c sep') = Z.of_nat (String.length k).
Proof.
  intros Hk. rewrite Index_lacks by done.
  assert (Index (String c sep' +:+ rest) (String c sep') = 0) as ->.
  { rewrite append_cons. cbn [Index]. rewrite <- append_cons.
    by rewrite (prefix_append (String c sep') rest). }
  destruct (Z.ltb_spec 0 0); lia.
Qed.

(** A text without the second byte of the separator holds no instance
    of it either. *)
Lemma prefix_lacks_second (c1 c2 : ascii) (sep' v : string) :
  lacks c2 v = true → String.prefix (String c1 (String c2 sep')) v = false.
Proof.
  destruct v as [|x [|y v]]; cbn; [done|by destruct (ascii_dec c1 x)|].
  intros Hv. destruct (ascii_dec c1 x); [|done].
  destruct (ascii_dec c2 y) as [->|]; [|done].
  rewrite Ascii.eqb_refl in Hv. by rewrite andb_false_r in Hv.
Qed.

Lemma Index_lacks_second (c1 c2 : ascii) (sep' v : string) :
  lacks c2 v = true → Index v (String c1 (String c2 sep')) = -1.
Proof.
  induction v as [|x v IH]; intros Hv; [done|].
  cbn [Index]. rewrite prefix_lacks_second by done.
  cbn [lacks] in Hv. apply andb_true_iff in Hv as [_ Hv]. by rewrite IH.
Qed.

Lemma Contains_lacks (c : ascii) (k : string) :
  Contains k (String c "") = negb (lacks c k).
Proof.
  unfold Contains. induction k as [|x k IH]; [done|].
  cbn [Index lacks]. destruct (Ascii.eqb_spec x c) as [->|Hne].
  - cbn [String.prefix]. destruct (ascii_dec c c); [by destruct k|done].
  - rewrite prefix_head by (by apply Ascii.eqb_neq). cbv zeta. cbn [negb andb].
    rewrite <- IH. destruct (Index_range k (String c "")) as [->|Hpos]; [done|].
    destruct (Z.ltb_spec (Index k (String c "")) 0); [lia|].
    destruct (Z.leb_spec 0 (Index k (String c ""))); [|lia].
    destruct (Z.leb_spec 0 (Index k (String c "") + 1)); [done|lia].
Qed.

(** The two readings of [strings.Contains] agree. *)
Lemma Contains_agree (s sub : string) : Solution.Contains s sub = Contains s sub.
Proof.
  unfold Contains. induction s as [|x s IH]; cbn [Solution.Contains Index].
  - by destruct (String.prefix sub "").
  - destruct (String.prefix sub (String x s)); [done|]. cbn [orb]. rewrite IH.
    cbv zeta. destruct (Index_range s sub) as [->|Hpos]; [done|].
    destruct (Z.ltb_spec (Index s sub) 0); [lia|].
    destruct (Z.leb_spec 0 (Index s sub)); [|lia].
    by destruct (Z.leb_spec 0 (Index s sub + 1)); [|lia].
Qed.

(** [splitFrom] passes over a part without the first byte of the
    separator, and over the bytes of a separator it has found. *)
Lemma splitFrom_lacks (c : ascii) (sep' k rest cur : string) :
  lacks c k = true →
  splitFrom (String c sep') 0 (k +:+ rest) cur
  = splitFrom (String c sep') 0 rest (cur +:+ k).
Proof.
  revert cur. induction k as [|x k IH]; intros cur Hk.
  - by rewrite append_nil_r, append_nil_l.
  - cbn [lacks] in Hk. apply andb_true_iff in Hk as [Hx Hk]. apply negb_true_iff in Hx.
    rewrite append_cons.
    cbn [splitFrom]. rewrite prefix_head by done. rewrite IH by done.
    by rewrite append_assoc.
Qed.

Lemma splitFrom_skip (sep x rest cur : string) :
  splitFrom sep (String.length x) (x +:+ rest) cur = splitFrom sep 0 rest cur.
Proof.
  induction x as [|y x IH]; [done|].
  rewrite append_cons. cbn [String.length splitFrom]. apply IH.
Qed.

Lemma splitFrom_found (c : ascii) (sep' rest cur : string) :
  splitFrom (String c sep') 0 (String c sep' +:+ rest) cur
  = cur :: splitFrom (String c sep') 0 rest "".
Proof.
  rewrite append_cons.
  cbn [splitFrom]. rewrite <- append_cons, (prefix_append (String c sep') rest).
  f_equal. cbn [String.length].
  replace (S (String.length sep') - 1)%nat with (String.length sep') by lia.
  apply splitFrom_skip.
Qed.

Lemma splitFrom_last (c : ascii) (sep' v cur : string) :
  lacks c v = true → splitFrom (String c sep') 0 v cur = [cur +:+ v].
Proof.
  intros Hv. rewrite <- (append_nil_r v) at 1. by rewrite splitFrom_lacks.
Qed.

Lemma splitFrom_last_second (c1 c2 : ascii) (sep' v cur : string) :
  lacks c2 v = true →
  splitFrom (String c1 (String c2 sep')) 0 v cur = [cur +:+ v].
Proof.
  revert cur. induction v as [|x v IH]; intros cur Hv.
  - by rewrite append_nil_r.
  - cbn [splitFrom]. rewrite prefix_lacks_second by done.
    cbn [lacks] in Hv. apply andb_true_iff in Hv as [_ Hv].
    rewrite IH by done. by rewrite append_assoc.
Qed.

(** [Split] of a text with one separator. *)
Lemma Split_pair (c : ascii) (sep' k v : string) :
  lacks c k = true → lacks c v = true →
  Split (k +:+ String c sep' +:+ v) (String c sep') = [k; v].
Proof.
  intros Hk Hv. unfold Split. rewrite splitFrom_lacks by done.
  rewrite splitFrom_found. by rewrite splitFrom_last.
Qed.

Lemma Split_pair_second (c1 c2 : ascii) (sep' k v : string) :
  lacks c1 k = true → lacks c2 v = true →
  Split (k +:+ String c1 (String c2 sep') +:+ v) (String c1 (String c2 sep')) = [k; v].
Proof.
  intros Hk Hv. unfold Split. rewrite splitFrom_lacks by done.
  rewrite splitFrom_found. by rewrite splitFrom_last_second.
Qed.

(** [Split] on one byte: the first part, and the parts of the rest. *)
Lemma Split_cons (c : ascii) (k rest : string) :
  lacks c k = true →
  Split (k +:+ String c "" +:+ rest) (String c "") = k :: Split rest (String c "").
Proof.
  intros Hk. unfold Split. rewrite splitFrom_lacks by done.
  by rewrite splitFrom_found.
Qed.

Lemma Split_single (c : ascii) (sep' k : string) :
  lacks c k = true → Split k (String c sep') = [k].
Proof. intros Hk. unfold Split. by rewrite splitFrom_last. Qed.

(** A text either lacks the byte [c] or has a first one. *)
Lemma lacks_or_first (c : ascii) (s : string) :
  lacks c s = true
  ∨ ∃ k rest, s = k +:+ String c "" +:+ rest ∧ lacks c k = true.
Proof.
  induction s as [|x s IH]; [by left|].
  cbn [lacks]. destruct (Ascii.eqb_spec x c) as [->|Hne].
  - right. by exists "", s.
  - destruct IH as [Hs|(k & rest & -> & Hk)]; [by left|].
    right. exists (String x k), rest. split; [done|]. cbn [lacks].
    by rewrite (proj2 (Ascii.eqb_neq x c) Hne), Hk.
Qed.

Lemma splitFrom_nonempty (sep : string) (skip : nat) (s cur : string) :
  splitFrom sep skip s cur ≠ [].
Proof.
  revert skip cur. induction s as [|x s IH]; intros skip cur; cbn [splitFrom]; [done|].
  destruct skip; [|apply IH]. destruct (String.prefix sep (String x s)); [done|apply IH].
Qed.

Lemma Join_cons (x : string) (l : list string) (sep : string) :
  l ≠ [] → Join (x :: l) sep = x +:+ sep +:+ Join l sep.
Proof. by destruct l. Qed.

(** [Join] puts back what [Split] took apart. *)
Lemma Join_Split (c : ascii) (s : string) : Join (Split s (String c "")) (String c "") = s.
Proof.
  remember (String.length s) as n eqn:Hn. revert s Hn.
  induction (lt_wf n) as [n _ IH]. intros s ->.
  destruct (lacks_or_first c s) as [Hs|(k & rest & -> & Hk)].
  - by rewrite Split_single.
  - rewrite Split_cons by done. rewrite Join_cons by apply splitFrom_nonempty.
    rewrite (IH (String.length rest)); [done| |done].
    rewrite !length_append. cbn [String.length]. lia.
Qed.

End StringsFacts.

(** ** The filters of the in-memory state provider *)

Module FilterProofs.
Import States MemoryState Strings.

(** One nested call of [traceDownField], on a filter with a first
    segment [k]. *)
Lemma traceDown_step (fuel : nat) (entity : option (gmap string gval)) (k rest : string) :
  lacks "." k = true →
  traceDown (S fuel) entity (k +:+ "." +:+ rest)
  = match entity ≫= (fun m => m !! k) with
    | Some v =>
        match unmarshal_dict v with
        | (_, Some err) => Some (None, k +:+ "." +:+ rest, Some err)
        | (dict, None) => traceDown fuel dict rest
        end
    | None => Some (None, k +:+ "." +:+ rest, Some (selectorError (k +:+ "." +:+ rest)))
    end.
Proof.
  intros Hk. cbn [traceDown].
  assert (Contains (k +:+ "." +:+ rest) "." = true) as ->.
  { unfold Contains. rewrite StringsFacts.Index_found by done. apply Z.leb_le. lia. }
  cbn [negb]. rewrite StringsFacts.Split_cons by done.
  by rewrite StringsFacts.Join_Split.
Qed.

Lemma traceDown_last (fuel : nat) (entity : option (gmap string gval)) (k : string) :
  lacks "." k = true → traceDown fuel entity k = Some (entity, k, None).
Proof.
  intros Hk.
  assert (Contains k "." = false) as Hno.
  { by rewrite StringsFacts.Contains_lacks, Hk. }
  destruct fuel; cbn [traceDown]; by rewrite Hno.
Qed.

(** Fuel beyond the length of the filter is not used. *)
Lemma traceDown_enough (n : nat) :
  ∀ (m : nat) (entity : option (gmap string gval)) (filter : string),
    (String.length filter ≤ n)%nat → (String.length filter ≤ m)%nat →
    traceDown n entity filter = traceDown m entity filter.
Proof.
  induction n as [|n IH]; intros m entity filter Hn Hm.
  - destruct filter; [|cbn in Hn; lia]. by rewrite !traceDown_last.
  - destruct (StringsFacts.lacks_or_first "." filter) as [Hk|(k & rest & -> & Hk)].
    { by rewrite !traceDown_last. }
    rewrite !StringsFacts.length_append in Hn, Hm. cbn [String.length] in Hn, Hm.
    destruct m as [|m]; [lia|]. rewrite !traceDown_step by done.
    destruct (entity ≫= _) as [v|]; [|done].
    destruct (unmarshal_dict v) as [dict [err|]]; [done|]. apply IH; lia.
Qed.

Lemma traceDown_total (n : nat) :
  ∀ (entity : option (gmap string gval)) (filter : string),
    (String.length filter ≤ n)%nat → is_Some (traceDown n entity filter).
Proof.
  induction n as [|n IH]; intros entity filter Hn.
  - destruct filter; [|cbn in Hn; lia]. by rewrite traceDown_last.
  - destruct (StringsFacts.lacks_or_first "." filter) as [Hk|(k & rest & -> & Hk)].
    { by rewrite traceDown_last. }
    rewrite !StringsFacts.length_append in Hn. cbn [String.length] in Hn.
    rewrite traceDown_step by done.
    destruct (entity ≫= _) as [v|]; [|done].
    destruct (unmarshal_dict v) as [dict [err|]]; [done|]. apply IH; lia.
Qed.

Lemma traceDownField_total (entity : option (gmap string gval)) (filter : string) :
  is_Some (traceDownField entity filter).
Proof. by apply traceDown_total. Qed.

Lemma traceDownField_last (entity : option (gmap string gval)) (k : string) :
  lacks "." k = true → traceDownField entity k = Some (entity, k, None).
Proof. apply traceDown_last. Qed.

Lemma traceDownField_step (entity : option (gmap string gval)) (k rest : string) :
  lacks "." k = true →
  traceDownField entity (k +:+ "." +:+ rest)
  = match entity ≫= (fun m => m !! k) with
    | Some v =>
        match unmarshal_dict v with
        | (_, Some err) => Some (None, k +:+ "." +:+ rest, Some err)
        | (dict, None) => traceDownField dict rest
        end
    | None => Some (None, k +:+ "." +:+ rest, Some (selectorError (k +:+ "." +:+ rest)))
    end.
Proof.
  intros Hk. unfold traceDownField at 1.
  rewrite !StringsFacts.length_append. cbn [String.length].
  rewrite Nat.add_succ_r. rewrite traceDown_step by done.
  destruct (entity ≫= _) as [v|]; [|done].
  destruct (unmarshal_dict v) as [dict [err|]]; [done|].
  apply traceDown_enough; lia.
Qed.

(** [traceDownField] returns on every filter, and follows a dotted path
    one segment at a time: a filter without dot is the key, looked up in
    the map at hand; on a filter [k.rest] the value under [k] is read
    as a JSON object and searched for [rest].  A segment that is absent
    gives the BadRequest error, which names the part of the filter that
    was still to be resolved; a value that is neither an object nor
    null gives the error of [json.Unmarshal]. *)
Theorem traceDownField_follows_path (entity : option (gmap string gval))
    (k rest : string) :
  lacks "." k = true →
  is_Some (traceDownField entity rest)
  ∧ traceDownField entity k = Some (entity, k, None)
  ∧ traceDownField entity (k +:+ "." +:+ rest)
    = match entity ≫= (fun m => m !! k) with
      | Some v =>
          match unmarshal_dict v with
          | (_, Some err) => Some (None, k +:+ "." +:+ rest, Some err)
          | (dict, None) => traceDownField dict rest
          end
      | None =>
          Some (None, k +:+ "." +:+ rest, Some (selectorError (k +:+ "." +:+ rest)))
      end.
Proof.
  intros Hk. split; [apply traceDownField_total|].
  split; [by apply traceDownField_last|by apply traceDownField_step].
Qed.

Lemma traceDownField_follows_path_witness :
  traceDownField (Some Reference.labelled) "metadata.labels.app"
  = Some (Some {[ "app" := GStr "web"; "replicas" := GNum 2 ]}, "app", None)
  ∧ traceDownField (Some Reference.labelled) "metadata.name.first"
    = Some (None, "name.first", Some (unmarshalTypeError "string"))
  ∧ traceDownField (Some Reference.labelled) "metadata.owner.name"
    = Some (None, "owner.name", Some (selectorError "owner.name")).
Proof.
  destruct (traceDownField_follows_path (Some Reference.labelled) "metadata"
              "labels.app" eq_refl) as (_ & _ & H1).
  destruct (traceDownField_follows_path (Some Reference.labelled) "metadata"
              "name.first" eq_refl) as (_ & _ & H2).
  destruct (traceDownField_follows_path (Some Reference.labelled) "metadata"
              "owner.name" eq_refl) as (_ & _ & H3).
  change ("metadata" +:+ "." +:+ "labels.app") with "metadata.labels.app" in H1.
  change ("metadata" +:+ "." +:+ "name.first") with "metadata.name.first" in H2.
  change ("metadata" +:+ "." +:+ "owner.name") with "metadata.owner.name" in H3.
  rewrite H1, H2, H3. split; [|split]; vm_compute; reflexivity.
Defined.

(** No instance of ["!="] in a text whose bytes after the first are not
    ["="]. *)
Lemma Index_unequal_none (key rest : string) :
  lacks "!" key = true → lacks "=" rest = true →
  Index (key +:+ "=" +:+ rest) "!=" = -1.
Proof.
  intros Hkey Hrest. rewrite (StringsFacts.Index_lacks "!" "=" key) by done.
  assert (Index ("=" +:+ rest) "!=" = -1) as ->; [|done].
  change ("=" +:+ rest) with (String "=" rest). cbn [Index].
  rewrite (StringsFacts.prefix_head "!" "=") by done.
  by rewrite (StringsFacts.Index_lacks_second "!" "=" "" rest).
Qed.

Lemma compareField_plain (equal : bool) (entity : option (gmap string gval))
    (key value : string) :
  lacks "." key = true →
  compareField equal entity key value
  = Some (notNil (map_index entity key)
          && (if equal then equalsString (map_index entity key) value
              else negb (equalsString (map_index entity key) value)), None).
Proof.
  intros Hkey. unfold compareField. rewrite traceDownField_last by done.
  destruct (notNil (map_index entity key)); by destruct equal.
Qed.

Lemma equalsString_true (x : gval) (value : string) :
  equalsString x value = true ↔ x = GStr value.
Proof.
  destruct x; cbn; try (split; [done|discriminate]).
  rewrite String.eqb_eq. split; [by intros ->|by intros [= ->]].
Qed.

Lemma nat_pos_of_nonempty (key : string) :
  key ≠ "" → (0 <? Z.of_nat (String.length key)) = true.
Proof. destruct key; [done|]. intros _. cbn [String.length]. apply Z.ltb_lt. lia. Qed.

Lemma simulateK8sFilter_equal (entity : option (gmap string gval)) (key value : string) :
  key ≠ "" → lacks "." key = true → lacks "=" key = true → lacks "!" key = true →
  lacks "=" value = true →
  simulateK8sFilter entity (key +:+ "=" +:+ value)
  = Some (notNil (map_index entity key) && equalsString (map_index entity key) value,
          None).
Proof.
  intros Hne Hdot Heq Hbang Hvalue.
  unfold simulateK8sFilter. rewrite Index_unequal_none by done.
  change (0 <? -1) with false. cbv iota.
  rewrite (StringsFacts.Index_found "=" "" key value) by done.
  rewrite nat_pos_of_nonempty by done.
  rewrite (StringsFacts.Split_pair "=" "" key value) by done.
  by apply compareField_plain.
Qed.

Lemma simulateK8sFilter_unequal (entity : option (gmap string gval)) (key value : string) :
  key ≠ "" → lacks "." key = true → lacks "!" key = true → lacks "=" value = true →
  simulateK8sFilter entity (key +:+ "!=" +:+ value)
  = Some (notNil (map_index entity key)
          && negb (equalsString (map_index entity key) value), None).
Proof.
  intros Hne Hdot Hbang Hvalue.
  unfold simulateK8sFilter.
  rewrite (StringsFacts.Index_found "!" "=" key value) by done.
  rewrite nat_pos_of_nonempty by done.
  rewrite (StringsFacts.Split_pair_second "!" "=" "" key value) by done.
  by apply compareField_plain.
Qed.

(** On a selector [key=value] or [key!=value] whose key is a plain name
    (not empty, without [.], [=] and [!]) and whose value holds no [=],
    [simulateK8sFilter] returns no error.  [key=value] holds exactly when
    the field is the string [value]; [key!=value] holds exactly when the
    field is present, not nil, and not the string [value].  A field
    that is absent or nil therefore satisfies neither of the two, and a
    field that is not a string (a number, say) never equals a value. *)
Theorem simulateK8sFilter_compares_strings (entity : option (gmap string gval))
    (key value : string) :
  key ≠ "" → lacks "." key = true → lacks "=" key = true → lacks "!" key = true →
  lacks "=" value = true →
  ∃ same differ : bool,
    simulateK8sFilter entity (key +:+ "=" +:+ value) = Some (same, None)
    ∧ simulateK8sFilter entity (key +:+ "!=" +:+ value) = Some (differ, None)
    ∧ (same = true ↔ map_index entity key = GStr value)
    ∧ (differ = true
       ↔ map_index entity key ≠ GNil ∧ map_index entity key ≠ GStr value).
Proof.
  intros Hne Hdot Heq Hbang Hvalue.
  exists (notNil (map_index entity key) && equalsString (map_index entity key) value),
         (notNil (map_index entity key)
          && negb (equalsString (map_index entity key) value)).
  split; [|split; [|split]].
  - by apply simulateK8sFilter_equal.
  - by apply simulateK8sFilter_unequal.
  - rewrite andb_true_iff, equalsString_true. split; [by intros [_ ?]|].
    intros Hx. by rewrite Hx.
  - rewrite andb_true_iff, negb_true_iff. split.
    + intros [Hnil Hstr]. split.
      * intros Hx. by rewrite Hx in Hnil.
      * intros Hx%equalsString_true. congruence.
    + intros [Hnil Hstr]. split.
      * by destruct (map_index entity key).
      * destruct (equalsString _ value) eqn:Hx; [|done].
        by apply equalsString_true in Hx.
Qed.

Lemma simulateK8sFilter_compares_strings_witness :
  let labels := Some ({[ "app" := GStr "web"; "replicas" := GNum 2 ]} : gmap string gval) in
  simulateK8sFilter labels "app=web" = Some (true, None)
  ∧ simulateK8sFilter labels "app!=web" = Some (false, None)
  ∧ simulateK8sFilter labels "replicas=2" = Some (false, None)
  ∧ simulateK8sFilter labels "replicas!=2" = Some (true, None)
  ∧ simulateK8sFilter labels "tier=db" = Some (false, None)
  ∧ simulateK8sFilter labels "tier!=db" = Some (false, None).
Proof.
  cbv zeta.
  pose (labels := Some ({[ "app" := GStr "web"; "replicas" := GNum 2 ]}
                        : gmap string gval)).
  destruct (simulateK8sFilter_compares_strings labels "app" "web")
    as (s1 & d1 & Hs1 & Hd1 & Hsame1 & Hdiffer1); [done..|].
  destruct (simulateK8sFilter_compares_strings labels "replicas" "2")
    as (s2 & d2 & Hs2 & Hd2 & Hsame2 & Hdiffer2); [done..|].
  destruct (simulateK8sFilter_compares_strings labels "tier" "db")
    as (s3 & d3 & Hs3 & Hd3 & Hsame3 & Hdiffer3); [done..|].
  change (simulateK8sFilter labels "app=web" = Some (s1, None)) in Hs1.
  change (simulateK8sFilter labels "app!=web" = Some (d1, None)) in Hd1.
  change (simulateK8sFilter labels "replicas=2" = Some (s2, None)) in Hs2.
  change (simulateK8sFilter labels "replicas!=2" = Some (d2, None)) in Hd2.
  change (simulateK8sFilter labels "tier=db" = Some (s3, None)) in Hs3.
  change (simulateK8sFilter labels "tier!=db" = Some (d3, None)) in Hd3.
  fold labels. rewrite Hs1, Hd1, Hs2, Hd2, Hs3, Hd3.
  assert (s1 = true) as -> by (by apply Hsame1).
  assert (d2 = true) as -> by (by apply Hdiffer2).
  assert (d1 = false) as ->.
  { destruct d1; [|done]. by destruct (proj1 Hdiffer1 eq_refl) as [_ []]. }
  assert (s2 = false) as ->.
  { destruct s2; [|done]. by specialize (proj1 Hsame2 eq_refl). }
  assert (s3 = false) as ->.
  { destruct s3; [|done]. by specialize (proj1 Hsame3 eq_refl). }
  assert (d3 = false) as ->.
  { destruct d3; [|done]. by destruct (proj1 Hdiffer3 eq_refl) as [[] _]. }
  repeat split; reflexivity.
Defined.

(** [simulateK8sFilter] rejects, with the BadRequest error that quotes
    the filter, a filter without [=], a filter that starts with its
    only [=] (an empty key), and the selector [key==value] with a double
    equals sign. *)
Theorem simulateK8sFilter_rejects (entity : option (gmap string gval))
    (key value : string) :
  lacks "=" key = true → lacks "!" key = true → lacks "=" value = true →
  simulateK8sFilter entity key = Some (false, Some (selectorError key))
  ∧ simulateK8sFilter entity ("=" +:+ value)
    = Some (false, Some (selectorError ("=" +:+ value)))
  ∧ (key ≠ "" →
     simulateK8sFilter entity (key +:+ "==" +:+ value)
     = Some (false, Some (selectorError (key +:+ "==" +:+ value)))).
Proof.
  intros Heq Hbang Hvalue. split; [|split].
  - unfold simulateK8sFilter.
    rewrite (StringsFacts.Index_lacks_second "!" "=" "" key) by done.
    by rewrite (StringsFacts.Index_lacks_first "=" "" key).
  - unfold simulateK8sFilter.
    pose proof (Index_unequal_none "" value eq_refl Hvalue) as Hnone.
    rewrite StringsFacts.append_nil_l in Hnone. rewrite Hnone.
    change (0 <? -1) with false. cbv iota.
    assert (Index ("=" +:+ value) "=" = 0) as ->; [|done].
    pose proof (StringsFacts.Index_found "=" "" "" value eq_refl) as Hfound.
    by rewrite StringsFacts.append_nil_l in Hfound.
  - intros Hne.
    change (key +:+ "==" +:+ value) with (key +:+ "=" +:+ String "=" value).
    unfold simulateK8sFilter.
    assert (Index (key +:+ "=" +:+ String "=" value) "!=" = -1) as ->.
    { rewrite (StringsFacts.Index_lacks "!" "=" key) by done.
      assert (Index ("=" +:+ String "=" value) "!=" = -1) as ->; [|done].
      change ("=" +:+ String "=" value) with (String "=" (String "=" value)).
      cbn [Index]. rewrite !(StringsFacts.prefix_head "!" "=") by done.
      by rewrite (StringsFacts.Index_lacks_second "!" "=" "" value). }
    change (0 <? -1) with false. cbv iota.
    rewrite (StringsFacts.Index_found "=" "" key (String "=" value)) by done.
    rewrite nat_pos_of_nonempty by done.
    unfold Split. rewrite (StringsFacts.splitFrom_lacks "=" "" key) by done.
    rewrite (StringsFacts.splitFrom_found "=" "").
    change (String "=" value) with ("=" +:+ value).
    rewrite (StringsFacts.splitFrom_found "=" "" value "").
    by rewrite (StringsFacts.splitFrom_last "=" "" value "").
Qed.

Lemma simulateK8sFilter_rejects_witness :
  simulateK8sFilter None "app" = Some (false, Some (selectorError "app"))
  ∧ simulateK8sFilter None "=web" = Some (false, Some (selectorError "=web"))
  ∧ simulateK8sFilter None "app==web" = Some (false, Some (selectorError "app==web")).
Proof.
  destruct (simulateK8sFilter_rejects None "app" "web" eq_refl eq_refl eq_refl)
    as (H1 & H2 & H3).
  split; [exact H1|]. split; [exact H2|]. by apply H3.
Defined.

End FilterProofs.

(** ** List *)

Module ListProofs.
Import States MemoryState Strings.

Section Listing.
Variable JsonPathQuery : gmap string gval → string → gval * option error.

Lemma compareField_total (equal : bool) (entity : option (gmap string gval))
    (field value : string) :
  is_Some (compareField equal entity field value).
Proof.
  unfold compareField.
  destruct (FilterProofs.traceDownField_total entity field) as [[[dict key] err] ->].
  destruct err; [done|]. destruct (notNil _); [|done]. by destruct equal.
Qed.

Lemma simulateK8sFilter_total (entity : option (gmap string gval)) (filter : string) :
  is_Some (simulateK8sFilter entity filter).
Proof.
  unfold simulateK8sFilter.
  destruct (0 <? Index filter "!=").
  { destruct (Split filter "!=") as [|f [|v [|]]]; try done. apply compareField_total. }
  destruct (0 <? Index filter "="); [|done].
  destruct (Split filter "=") as [|f [|v [|]]]; try done. apply compareField_total.
Qed.

Lemma verdictOf_total (entity : option (gmap string gval)) (filter : string) :
  is_Some (verdictOf (simulateK8sFilter entity filter)).
Proof.
  destruct (simulateK8sFilter_total entity filter) as [[[] [err|]] ->]; done.
Qed.

Lemma filterEntry_total (request : ListRequest) (vE : StateEntry) :
  is_Some (filterEntry JsonPathQuery request vE).
Proof.
  unfold filterEntry. destruct (_ && _); [|done].
  destruct (unmarshal_dict (Body vE)) as [dict [err|]]; [done|].
  destruct (String.eqb _ "label").
  { destruct (map_index dict "metadata"); try done.
    destruct (default GNil _); try done; apply verdictOf_total. }
  destruct (String.eqb _ "field"); [apply verdictOf_total|].
  destruct (String.eqb _ "status"); [done|]. by destruct (String.eqb _ "spec").
Qed.

Lemma filterEntry_unfiltered (request : ListRequest) (vE : StateEntry) :
  FilterType request = "" ∨ FilterValue request = "" →
  filterEntry JsonPathQuery request vE = Some Keep.
Proof.
  unfold filterEntry. intros [-> | ->]; [done|]. by rewrite andb_false_r.
Qed.

(** The loop returns, with entries that it met on its way, in the order
    in which it met them. *)
Lemma listCells_sublist (request : ListRequest) (cells : list stored) :
  ∀ entities, ∃ kept err,
    listCells JsonPathQuery request cells entities = Some (entities ++ kept, err)
    ∧ Entry <$> kept `sublist_of` cells.
Proof.
  induction cells as [|[vE|] cells IH]; intros entities; cbn [listCells].
  - exists [], None. by rewrite app_nil_r.
  - destruct (filterEntry_total request vE) as [[| |err] ->].
    + destruct (IH (entities ++ [vE])) as (kept & err & -> & Hsub).
      exists (vE :: kept), err. rewrite <- app_assoc. split; [done|].
      rewrite fmap_cons. by apply sublist_skip.
    + destruct (IH entities) as (kept & err & -> & Hsub).
      exists kept, err. split; [done|]. by apply sublist_cons.
    + exists [], (Some err). rewrite app_nil_r. split; [done|]. apply sublist_nil_l.
  - exists [], (Some (NewCOAError "found invalid state entry" InternalError)).
    rewrite app_nil_r. split; [done|]. apply sublist_nil_l.
Qed.

(** Without filter the loop keeps every entry, and stops at the first
    cell that is not one. *)
Lemma listCells_unfiltered (request : ListRequest) (cells : list stored) :
  FilterType request = "" ∨ FilterValue request = "" →
  ∀ entities,
    (Foreign ∉ cells →
     ∃ kept, listCells JsonPathQuery request cells entities = Some (entities ++ kept, None)
             ∧ Entry <$> kept = cells)
    ∧ (Foreign ∈ cells →
       ∃ kept, listCells JsonPathQuery request cells entities
               = Some (entities ++ kept,
                       Some (NewCOAError "found invalid state entry" InternalError))).
Proof.
  intros Hno. induction cells as [|[vE|] cells IH]; intros entities; cbn [listCells].
  - split.
    + intros _. exists []. by rewrite app_nil_r.
    + intros Hin. by apply elem_of_nil in Hin.
  - rewrite filterEntry_unfiltered by done.
    destruct (IH (entities ++ [vE])) as [Hall Hbad]. split.
    + intros Hnotin. destruct Hall as (kept & -> & Hkept).
      { intros Hin. apply Hnotin. by apply list_elem_of_further. }
      exists (vE :: kept). rewrite <- app_assoc. split; [done|].
      by rewrite fmap_cons, Hkept.
    + intros Hin. apply elem_of_cons in Hin as [?|Hin]; [done|].
      destruct (Hbad Hin) as (kept & ->). exists (vE :: kept). by rewrite <- app_assoc.
  - split.
    + intros Hnotin. exfalso. apply Hnotin, list_elem_of_here.
    + intros _. exists []. by rewrite app_nil_r.
Qed.

Lemma visits_cells (s : MemoryStateProvider) (visit : list (string * stored))
    (cell : stored) :
  visits s visit → (cell ∈ snd <$> visit ↔ ∃ id, Data s !! id = Some cell).
Proof.
  intros Hvisit. unfold visits in Hvisit. rewrite Hvisit, list_elem_of_fmap. split.
  - intros ([id c] & -> & Hin). exists id. by apply elem_of_map_to_list in Hin.
  - intros [id Hid]. exists (id, cell). split; [done|]. by apply elem_of_map_to_list.
Qed.

(** Whatever the filter and the order of the visit, [List] returns, and
    the entries it returns (also beside an error) are entries of the
    store, none of them more often than the store holds it. *)
Theorem List_returns_stored_entries (s : MemoryStateProvider) (request : ListRequest)
    (visit : list (string * stored)) :
  visits s visit →
  ∃ entities err,
    List JsonPathQuery s request visit = Some (entities, err)
    ∧ Entry <$> entities ⊆+ snd <$> map_to_list (Data s)
    ∧ (length entities ≤ size (Data s))%nat
    ∧ ∀ e, e ∈ entities → ∃ id, Data s !! id = Some (Entry e).
Proof.
  intros Hvisit. unfold List.
  destruct (listCells_sublist request (snd <$> visit) []) as (kept & err & -> & Hsub).
  exists kept, err. cbn [app]. split; [done|].
  assert (Entry <$> kept ⊆+ snd <$> map_to_list (Data s)) as Hms.
  { unfold visits in Hvisit. rewrite <- Hvisit. by apply sublist_submseteq. }
  split; [done|]. split.
  - apply submseteq_length in Hms. rewrite !length_fmap in Hms.
    by rewrite length_map_to_list in Hms.
  - intros e He. apply (visits_cells s visit (Entry e) Hvisit).
    eapply elem_of_sublist; [|done]. by apply list_elem_of_fmap_2.
Qed.

(** Without filter (an empty filter type or an empty filter value),
    whatever the order of the visit: on a store whose cells are all state
    entries [List] returns every entry once, and no error; on a store
    with a cell of another type it returns the InternalError "found
    invalid state entry". *)
Theorem List_unfiltered (s : MemoryStateProvider) (request : ListRequest)
    (visit : list (string * stored)) :
  visits s visit →
  FilterType request = "" ∨ FilterValue request = "" →
  ((∀ id, Data s !! id ≠ Some Foreign) →
   ∃ entities,
     List JsonPathQuery s request visit = Some (entities, None)
     ∧ Entry <$> entities ≡ₚ snd <$> map_to_list (Data s)
     ∧ length entities = size (Data s)
     ∧ ∀ e, e ∈ entities ↔ ∃ id, Data s !! id = Some (Entry e))
  ∧ ((∃ id, Data s !! id = Some Foreign) →
     ∃ entities,
       List JsonPathQuery s request visit
       = Some (entities, Some (NewCOAError "found invalid state entry" InternalError))).
Proof.
  intros Hvisit Hno. unfold List.
  destruct (listCells_unfiltered request (snd <$> visit) Hno []) as [Hall Hbad].
  split.
  - intros Hvalid. destruct Hall as (kept & -> & Hkept).
    { intros [id Hid]%(visits_cells s visit Foreign Hvisit). by apply (Hvalid id). }
    exists kept. cbn [app]. split; [done|].
    assert (Entry <$> kept ≡ₚ snd <$> map_to_list (Data s)) as Hperm.
    { rewrite Hkept. unfold visits in Hvisit. by rewrite Hvisit. }
    split; [done|]. split.
    + apply Permutation_length in Hperm. rewrite !length_fmap in Hperm.
      by rewrite length_map_to_list in Hperm.
    + intros e. rewrite <- (visits_cells s visit (Entry e) Hvisit), <- Hkept.
      split; [by apply list_elem_of_fmap_2|].
      intros (e' & [= <-] & Hin)%list_elem_of_fmap. done.
  - intros Hforeign. destruct Hbad as (kept & ->).
    { by apply (visits_cells s visit Foreign Hvisit). }
    by exists kept.
Qed.

(** A loop whose filter decides every cell returns the entries that the
    filter keeps. *)
Lemma listCells_decided (request : ListRequest) (keeps : StateEntry → bool)
    (cells : list stored) :
  (∀ cell, cell ∈ cells →
     ∃ e, cell = Entry e
          ∧ filterEntry JsonPathQuery request e = Some (if keeps e then Keep else Drop)) →
  ∀ entities, ∃ kept,
    listCells JsonPathQuery request cells entities = Some (entities ++ kept, None)
    ∧ Entry <$> kept `sublist_of` cells
    ∧ ∀ e, e ∈ kept ↔ Entry e ∈ cells ∧ keeps e = true.
Proof.
  induction cells as [|cell cells IH]; intros Hcells entities.
  - exists []. rewrite app_nil_r. split; [done|]. split; [done|].
    intros e. split; [by intros ?%elem_of_nil|by intros [?%elem_of_nil _]].
  - destruct (Hcells cell (list_elem_of_here _ _)) as (vE & -> & Hverdict).
    cbn [listCells]. rewrite Hverdict.
    assert (∀ cell, cell ∈ cells →
              ∃ e, cell = Entry e
                   ∧ filterEntry JsonPathQuery request e
                     = Some (if keeps e then Keep else Drop)) as Hrest.
    { intros cell Hin. by apply Hcells, list_elem_of_further. }
    destruct (keeps vE) eqn:HvE.
    + destruct (IH Hrest (entities ++ [vE])) as (kept & -> & Hsub & Hkept).
      exists (vE :: kept). rewrite <- app_assoc. split; [done|]. split.
      { rewrite fmap_cons. by apply sublist_skip. }
      intros e. rewrite !elem_of_cons, Hkept. split.
      * intros [->|[Hin Hkeep]]; [by split; [left|]|by split; [right|]].
      * intros [[[= ->]|Hin] Hkeep]; [by left|by right].
    + destruct (IH Hrest entities) as (kept & -> & Hsub & Hkept).
      exists kept. split; [done|]. split; [by apply sublist_cons|].
      intros e. rewrite elem_of_cons, Hkept. split.
      * intros [Hin Hkeep]. by split; [right|].
      * intros [[[= ->]|Hin] Hkeep]; [congruence|done].
Qed.

Lemma json_generic_fields (v : gval) (m : gmap string gval) (k : string) (y : gval) :
  json_generic v = GMap m → m !! k = Some y → ∃ x, y = json_generic x.
Proof.
  destruct v; cbn [json_generic]; try discriminate.
  - intros [= <-]. rewrite lookup_fmap. destruct (m0 !! k) as [x|]; [|done].
    intros [= <-]. by exists x.
  - intros [= <-] Hin%elem_of_list_to_map_2.
    apply list_elem_of_In, in_map_iff in Hin as ([k' x] & [= <- <-] & _). by eexists.
Qed.

Lemma unmarshal_dict_object (body : gval) (dict : gmap string gval) :
  fst (unmarshal_dict body) = Some dict → json_generic body = GMap dict.
Proof.
  unfold unmarshal_dict. destruct (json_generic body); try done.
  by intros [= ->].
Qed.

Lemma selector_nonempty (key sep value : string) :
  key ≠ "" → String.eqb (key +:+ sep +:+ value) "" = false.
Proof. by destruct key. Qed.

(** What the label filter does with one entry. *)
Lemma filterEntry_label (key value : string) (vE : StateEntry) :
  key ≠ "" → lacks "." key = true → lacks "=" key = true → lacks "!" key = true →
  lacks "=" value = true →
  is_Some (objectOf (Body vE)) →
  filterEntry JsonPathQuery (mkListRequest "label" (key +:+ "=" +:+ value)) vE
  = Some (if match labelsOf (Body vE) with
             | Some labels => equalsString (map_index (Some labels) key) value
             | None => true
             end
          then Keep else Drop).
Proof.
  intros Hne Hdot Heq Hbang Hvalue [dict Hdict].
  unfold filterEntry. cbn [FilterType FilterValue].
  rewrite selector_nonempty by done. cbn [String.eqb Ascii.eqb Bool.eqb negb andb].
  unfold objectOf in Hdict. unfold labelsOf.
  destruct (unmarshal_dict (Body vE)) as [dict' [err|]] eqn:Hbody; [done|].
  injection Hdict as <-. cbn [fst].
  destruct (map_index dict' "metadata") as [| | | | |metadata| |] eqn:Hmeta; try done.
  assert (∃ x, GMap metadata = json_generic x) as [x Hx].
  { destruct dict' as [dict'|]; [|done]. cbn [map_index] in Hmeta.
    destruct (dict' !! "metadata") as [y|] eqn:Hy; [|done]. cbn in Hmeta. subst y.
    eapply json_generic_fields; [|done].
    apply unmarshal_dict_object. by rewrite Hbody. }
  destruct (metadata !! "labels") as [labels|] eqn:Hlabels; [|done].
  change (default GNil (Some labels)) with labels.
  destruct (json_generic_fields x metadata "labels" labels (eq_sym Hx) Hlabels)
    as [x' ->].
  destruct (json_generic x') eqn:Hx'; try done.
  - rewrite FilterProofs.simulateK8sFilter_equal by done. cbn [verdictOf].
    destruct (equalsString _ value) eqn:Hsame.
    + apply FilterProofs.equalsString_true in Hsame. by rewrite Hsame.
    + by rewrite andb_false_r.
  - by destruct x'.
Qed.

(** What the field filter does with one entry. *)
Lemma filterEntry_field (key value : string) (vE : StateEntry)
    (dict : option (gmap string gval)) :
  key ≠ "" → lacks "." key = true → lacks "=" key = true → lacks "!" key = true →
  lacks "=" value = true →
  objectOf (Body vE) = Some dict →
  filterEntry JsonPathQuery (mkListRequest "field" (key +:+ "=" +:+ value)) vE
  = Some (if equalsString (map_index dict key) value then Keep else Drop).
Proof.
  intros Hne Hdot Heq Hbang Hvalue Hdict.
  unfold filterEntry. cbn [FilterType FilterValue].
  rewrite selector_nonempty by done. cbn [String.eqb Ascii.eqb Bool.eqb negb andb].
  unfold objectOf in Hdict.
  destruct (unmarshal_dict (Body vE)) as [dict' [err|]]; [done|].
  injection Hdict as ->.
  rewrite FilterProofs.simulateK8sFilter_equal by done. cbn [verdictOf].
  destruct (equalsString _ value) eqn:Hsame.
  - apply FilterProofs.equalsString_true in Hsame. by rewrite Hsame.
  - by rewrite andb_false_r.
Qed.

Lemma List_decided (s : MemoryStateProvider) (request : ListRequest)
    (keeps : StateEntry → bool) (visit : list (string * stored)) :
  visits s visit →
  (∀ id cell, Data s !! id = Some cell →
     ∃ e, cell = Entry e
          ∧ filterEntry JsonPathQuery request e = Some (if keeps e then Keep else Drop)) →
  ∃ entities,
    List JsonPathQuery s request visit = Some (entities, None)
    ∧ Entry <$> entities `sublist_of` snd <$> visit
    ∧ ∀ e, e ∈ entities ↔ (∃ id, Data s !! id = Some (Entry e)) ∧ keeps e = true.
Proof.
  intros Hvisit Hcells. unfold List.
  destruct (listCells_decided request keeps (snd <$> visit)) with (entities := @nil StateEntry)
    as (kept & -> & Hsub & Hkept).
  { intros cell [id Hid]%(visits_cells s visit cell Hvisit). by eapply Hcells. }
  exists kept. split; [done|]. split; [done|].
  intros e. by rewrite Hkept, (visits_cells s visit (Entry e) Hvisit).
Qed.

(** The label filter with a selector [key=value] (a plain key, a value
    without [=]), on a store whose entries have bodies that are JSON
    objects or null: [List] returns no error and, in the order of its
    visit, the entries whose labels have the string [value] under [key],
    and also every entry that has no labels ([metadata.labels] is absent
    or is not an object). *)
Theorem List_label_selector (s : MemoryStateProvider) (visit : list (string * stored))
    (key value : string) :
  visits s visit →
  key ≠ "" → lacks "." key = true → lacks "=" key = true → lacks "!" key = true →
  lacks "=" value = true →
  (∀ id cell, Data s !! id = Some cell →
     ∃ e, cell = Entry e ∧ is_Some (objectOf (Body e))) →
  ∃ entities,
    List JsonPathQuery s (mkListRequest "label" (key +:+ "=" +:+ value)) visit
    = Some (entities, None)
    ∧ Entry <$> entities `sublist_of` snd <$> visit
    ∧ ∀ e, e ∈ entities
           ↔ (∃ id, Data s !! id = Some (Entry e))
             ∧ match labelsOf (Body e) with
               | Some labels => labels !! key = Some (GStr value)
               | None => True
               end.
Proof.
  intros Hvisit Hne Hdot Heq Hbang Hvalue Hcells.
  destruct (List_decided s (mkListRequest "label" (key +:+ "=" +:+ value))
              (fun e => match labelsOf (Body e) with
                        | Some labels => equalsString (map_index (Some labels) key) value
                        | None => true
                        end) visit Hvisit) as (entities & Hlist & Hsub & Hkept).
  { intros id cell Hcell. destruct (Hcells id cell Hcell) as (e & -> & Hobject).
    exists e. split; [done|]. by apply filterEntry_label. }
  exists entities. split; [done|]. split; [done|].
  intros e. rewrite Hkept. destruct (labelsOf (Body e)) as [labels|]; [|naive_solver].
  rewrite FilterProofs.equalsString_true. cbn [map_index].
  destruct (labels !! key) as [x|]; simpl; naive_solver.
Qed.

(** The field filter with a selector [key=value], on such a store:
    [List] returns no error and, in the order of its visit, the entries
    whose body has the string [value] in its field [key]. *)
Theorem List_field_selector (s : MemoryStateProvider) (visit : list (string * stored))
    (key value : string) :
  visits s visit →
  key ≠ "" → lacks "." key = true → lacks "=" key = true → lacks "!" key = true →
  lacks "=" value = true →
  (∀ id cell, Data s !! id = Some cell →
     ∃ e, cell = Entry e ∧ is_Some (objectOf (Body e))) →
  ∃ entities,
    List JsonPathQuery s (mkListRequest "field" (key +:+ "=" +:+ value)) visit
    = Some (entities, None)
    ∧ Entry <$> entities `sublist_of` snd <$> visit
    ∧ ∀ e, e ∈ entities
           ↔ (∃ id, Data s !! id = Some (Entry e))
             ∧ map_index (fst (unmarshal_dict (Body e))) key = GStr value.
Proof.
  intros Hvisit Hne Hdot Heq Hbang Hvalue Hcells.
  destruct (List_decided s (mkListRequest "field" (key +:+ "=" +:+ value))
              (fun e => equalsString (map_index (fst (unmarshal_dict (Body e))) key) value)
              visit Hvisit) as (entities & Hlist & Hsub & Hkept).
  { intros id cell Hcell. destruct (Hcells id cell Hcell) as (e & -> & [dict Hobject]).
    exists e. split; [done|]. rewrite (filterEntry_field key value e dict) by done.
    unfold objectOf in Hobject.
    destruct (unmarshal_dict (Body e)) as [dict' [err|]]; [done|].
    by injection Hobject as ->. }
  exists entities. split; [done|]. split; [done|].
  intros e. by rewrite Hkept, FilterProofs.equalsString_true.
Qed.

End Listing.

(** The entries of the catalog have bodies that are JSON objects. *)
Lemma catalog_cells (id : string) (cell : stored) :
  Data Reference.catalog !! id = Some cell →
  cell = Entry Reference.front ∨ cell = Entry Reference.back
  ∨ cell = Entry Reference.bare.
Proof.
  intros Hcell%elem_of_map_to_list. vm_compute in Hcell.
  repeat (apply elem_of_cons in Hcell as [[= -> ->]|Hcell]); auto.
  by apply elem_of_nil in Hcell.
Qed.

Lemma catalog_objects (id : string) (cell : stored) :
  Data Reference.catalog !! id = Some cell →
  ∃ e, cell = Entry e ∧ is_Some (objectOf (Body e)).
Proof.
  intros Hcell. apply catalog_cells in Hcell as [->|[->| ->] ];
    eexists; (split; [reflexivity|]); vm_compute; eexists; reflexivity.
Qed.

Lemma catalog_front : Data Reference.catalog !! "front" = Some (Entry Reference.front).
Proof. vm_compute. reflexivity. Qed.

Lemma catalog_back : Data Reference.catalog !! "back" = Some (Entry Reference.back).
Proof. vm_compute. reflexivity. Qed.

Lemma catalog_bare : Data Reference.catalog !! "bare" = Some (Entry Reference.bare).
Proof. vm_compute. reflexivity. Qed.

Lemma catalog_visits : visits Reference.catalog (map_to_list (Data Reference.catalog)).
Proof. unfold visits. apply Permutation_refl. Qed.

Lemma List_returns_stored_entries_witness :
  ∃ entities err,
    List Reference.noQuery Reference.catalog (mkListRequest "spec" "$.kind")
      (map_to_list (Data Reference.catalog))
    = Some (entities, err)
    ∧ (length entities ≤ size (Data Reference.catalog))%nat.
Proof.
  destruct (List_returns_stored_entries Reference.noQuery Reference.catalog
              (mkListRequest "spec" "$.kind") (map_to_list (Data Reference.catalog))
              catalog_visits)
    as (entities & err & Hlist & _ & Hlength & _).
  exists entities, err. split; [exact Hlist|exact Hlength].
Defined.

Lemma List_unfiltered_witness :
  ∃ entities,
    List Reference.noQuery Reference.catalog (mkListRequest "label" "")
      (map_to_list (Data Reference.catalog))
    = Some (entities, None)
    ∧ length entities = size (Data Reference.catalog)
    ∧ Reference.back ∈ entities.
Proof.
  destruct (List_unfiltered Reference.noQuery Reference.catalog
              (mkListRequest "label" "") (map_to_list (Data Reference.catalog))
              catalog_visits (or_intror eq_refl))
    as [Hall _].
  destruct Hall as (entities & Hlist & _ & Hlength & Hin).
  { intros id Hid. destruct (catalog_cells id Foreign Hid) as [H|[H|H] ]; discriminate H. }
  exists entities. split; [exact Hlist|]. split; [exact Hlength|].
  apply Hin. exists "back". exact catalog_back.
Defined.

Lemma List_label_selector_witness :
  ∃ entities,
    List Reference.noQuery Reference.catalog (mkListRequest "label" "app=web")
      (map_to_list (Data Reference.catalog))
    = Some (entities, None)
    ∧ Reference.front ∈ entities
    ∧ Reference.bare ∈ entities
    ∧ Reference.back ∉ entities.
Proof.
  destruct (List_label_selector Reference.noQuery Reference.catalog
              (map_to_list (Data Reference.catalog)) "app" "web" catalog_visits
              ltac:(discriminate) eq_refl eq_refl eq_refl eq_refl catalog_objects)
    as (entities & Hlist & _ & Hin).
  exists entities. split; [exact Hlist|]. split; [|split].
  - apply Hin. split; [exists "front"; exact catalog_front|]. vm_compute. reflexivity.
  - apply Hin. split; [exists "bare"; exact catalog_bare|]. vm_compute. exact I.
  - intros Hback. apply Hin in Hback as [_ Hlabel].
    vm_compute in Hlabel. discriminate Hlabel.
Defined.

Lemma List_field_selector_witness :
  ∃ entities,
    List Reference.noQuery Reference.catalog (mkListRequest "field" "kind=job")
      (map_to_list (Data Reference.catalog))
    = Some (entities, None)
    ∧ Reference.bare ∈ entities
    ∧ Reference.back ∉ entities.
Proof.
  destruct (List_field_selector Reference.noQuery Reference.catalog
              (map_to_list (Data Reference.catalog)) "kind" "job" catalog_visits
              ltac:(discriminate) eq_refl eq_refl eq_refl eq_refl catalog_objects)
    as (entities & Hlist & _ & Hin).
  exists entities. split; [exact Hlist|]. split.
  - apply Hin. split; [exists "bare"; exact catalog_bare|]. vm_compute. reflexivity.
  - intros Hback. apply Hin in Hback as [_ Hfield].
    vm_compute in Hfield. discriminate Hfield.
Defined.

End ListProofs.

(** ** Get *)

Module GetProofs.
Import States Model Solution.

Section Observed.
Context `{Collaborators}.





End Observed.


End GetProofs.

(** ** Reconcile: what a run does, in order *)

Module RunProofs.
Import States Model Solution.

Section Loop.
Context `{Collaborators}.
Variables (s : SolutionManager) (deployment : DeploymentSpec)
          (namespace targetName : string).

Lemma stepMetadata_col (v : LoopVars) (target : string) :
  loopInvariant deployment v →
  let agent := findAgent (default zeroTargetState (Targets deployment !! target)) in
  (if negb (String.eqb agent "") then <[ENV_NAME := agent]> (col v)
   else delete ENV_NAME (col v))
  = stepMetadata deployment target.
Proof.
  intros (_ & _ & Hcol). cbv zeta. unfold stepMetadata.
  destruct (String.eqb _ ""); cbn [negb]; apply map_eq; intros k;
    destruct (decide (k = ENV_NAME)) as [->|Hne].
  - by rewrite !lookup_delete_eq.
  - rewrite !lookup_delete_ne by done. by apply Hcol.
  - by rewrite !lookup_insert_eq.
  - rewrite !lookup_insert_ne by done. by apply Hcol.
Qed.

Lemma stepMetadata_other (target k : string) :
  k ≠ ENV_NAME →
  stepMetadata deployment target !! k
  = MergeCollection (SolutionMetadata deployment) (InstanceMetadata deployment) !! k.
Proof.
  intros Hne. unfold stepMetadata. destruct (String.eqb _ "").
  - by rewrite lookup_delete_ne.
  - by rewrite lookup_insert_ne.
Qed.

Lemma processedSteps_singleton (ev : Event) (step : DeploymentStep) :
  stepOf ev = Some step → processedSteps [ev] = [step].
Proof. intros Hof. unfold processedSteps. simpl. by rewrite Hof. Qed.

(** One round of the loop. *)
Lemma reconcileStep_shape (previousDesiredState : option SolutionManagerDeploymentState)
    (currentState : DeploymentState) (step : DeploymentStep) (v : LoopVars) (σ : Run) :
  loopInvariant deployment v →
  match reconcileStep s deployment namespace targetName previousDesiredState
          currentState step v σ with
  | Continue v' σ' =>
      loopInvariant deployment v'
      ∧ ((filteredOut s targetName step = true ∧ events σ' = events σ)
         ∨ (filteredOut s targetName step = false
            ∧ ∃ ev, events σ' = events σ ++ [ev] ∧ stepEvent deployment ev
                    ∧ stepOf ev = Some step))
  | Return summary err σ' =>
      filteredOut s targetName step = false
      ∧ AllAssignedDeployed summary = false
      ∧ ∃ σ'', σ' = saveSummary deployment summary namespace σ''
          ∧ (events σ'' = events σ
             ∨ ∃ ev, events σ'' = events σ ++ [ev] ∧ stepEvent deployment ev
                     ∧ stepOf ev = Some step)
  end.
Proof.
  intros Hinv. pose proof (stepMetadata_col v (Target step) Hinv) as Hcol.
  destruct Hinv as (Hcount & Hflag & Hother). cbv zeta in Hcol.
  unfold reconcileStep.
  destruct (filteredOut s targetName step); [by split; [|left]|].
  rewrite Hcol.
  destruct (match TargetProviders s !! Target step with
            | Some override => (world σ, inl override)
            | None => CreateProviderForTargetRole _ _ _
            end) as [w1 [provider|err] ].
  2:{ split; [done|]. split; [done|]. eexists. split; [done|]. by left. }
  destruct (match previousDesiredState with
            | Some previous => canSkipStep _ _ _ _ _
            | None => false
            end).
  { split.
    - split; [cbn; lia|]. split; [done|]. intros k Hk. by apply stepMetadata_other.
    - right. split; [done|]. by exists (EvSkip step). }
  rewrite ReconcileProofs.attempts_once. cbn [world events].
  destruct (providerApply _ _ _ _ _) as [w2 [cr [e|] ] ].
  - split; [done|]. split.
    { cbn. apply Z.eqb_neq. lia. }
    eexists. split; [done|]. right. eexists. split; [done|]. done.
  - split.
    + split; [cbn; lia|]. split.
      { cbn. apply Z.eqb_neq. lia. }
      intros k Hk. by apply stepMetadata_other.
    + right. split; [done|]. eexists. split; [done|]. done.
Qed.

(** The loop over the steps of the plan. *)
Lemma reconcileSteps_shape (previousDesiredState : option SolutionManagerDeploymentState)
    (currentState : DeploymentState) (steps : list DeploymentStep) :
  ∀ (v : LoopVars) (σ : Run),
  loopInvariant deployment v →
  match reconcileSteps s deployment namespace targetName previousDesiredState
          currentState steps v σ with
  | Continue v' σ' =>
      loopInvariant deployment v'
      ∧ ∃ log, events σ' = events σ ++ log
          ∧ Forall (stepEvent deployment) log
          ∧ processedSteps log = plannedSteps s targetName steps
  | Return summary err σ' =>
      AllAssignedDeployed summary = false
      ∧ ∃ log σ'', σ' = saveSummary deployment summary namespace σ''
          ∧ events σ'' = events σ ++ log
          ∧ Forall (stepEvent deployment) log
          ∧ ∃ rest, plannedSteps s targetName steps = processedSteps log ++ rest
  end.
Proof.
  induction steps as [|step rest IH]; intros v σ Hinv; cbn [reconcileSteps].
  - split; [done|]. exists []. by rewrite app_nil_r.
  - pose proof (reconcileStep_shape previousDesiredState currentState step v σ Hinv)
      as Hstep.
    destruct (reconcileStep _ _ _ _ _ _ _ _ _) as [v1 σ1|summary err σ1].
    + destruct Hstep as [Hinv1 Hstep].
      assert (∃ log1, events σ1 = events σ ++ log1
                ∧ Forall (stepEvent deployment) log1
                ∧ plannedSteps s targetName (step :: rest)
                  = processedSteps log1 ++ plannedSteps s targetName rest)
        as (log1 & Hlog1 & Hev1 & Hplan1).
      { destruct Hstep as [ [Hout Hev]|(Hin & ev & Hev & Hstep & Hof)].
        - exists []. rewrite app_nil_r. split; [done|]. split; [done|].
          by apply ReconcileProofs.plannedSteps_cons_out.
        - exists [ev]. split; [done|]. split; [by apply Forall_singleton|].
          rewrite (processedSteps_singleton ev step Hof).
          by apply ReconcileProofs.plannedSteps_cons_in. }
      specialize (IH v1 σ1 Hinv1).
      destruct (reconcileSteps _ _ _ _ _ _ rest v1 σ1) as [v2 σ2|summary err σ2].
      * destruct IH as (Hinv2 & log2 & Hlog2 & Hev2 & Hplan2). split; [done|].
        exists (log1 ++ log2). split; [by rewrite Hlog2, Hlog1, app_assoc|].
        split; [by apply Forall_app|].
        unfold processedSteps in *. by rewrite omap_app, Hplan1, Hplan2.
      * destruct IH as (Hflag & log2 & σ'' & Hsave & Hlog2 & Hev2 & rest' & Hplan2).
        split; [done|]. exists (log1 ++ log2), σ''. split; [done|].
        split; [by rewrite Hlog2, Hlog1, app_assoc|]. split; [by apply Forall_app|].
        exists rest'. unfold processedSteps in *.
        by rewrite omap_app, Hplan1, Hplan2, app_assoc.
    + destruct Hstep as (Hin & Hflag & σ'' & Hsave & Hev). split; [done|].
      destruct Hev as [Hev|(ev & Hev & Hstep & Hof)].
      * exists [], σ''. rewrite app_nil_r. split; [done|]. split; [done|].
        split; [done|]. by eexists.
      * exists [ev], σ''. split; [done|]. split; [done|].
        split; [by apply Forall_singleton|]. exists (plannedSteps s targetName rest).
        rewrite (processedSteps_singleton ev step Hof).
        by apply ReconcileProofs.plannedSteps_cons_in.
Qed.

End Loop.

Section Calls.
Context `{Collaborators}.
Variables (s : SolutionManager) (deployment : DeploymentSpec) (remove : bool)
          (namespace targetName : string) (w : World).

Lemma failWith_shape (d : DeploymentSpec) (message : string) (err : error) (w' : World) :
  failWith d (newSummary deployment) message err namespace w'
  = (saveSummary d (set_SummaryMessage (message +:+ ErrorText err) (newSummary deployment))
       namespace (mkRun w' []),
     (set_SummaryMessage (message +:+ ErrorText err) (newSummary deployment), Some err)).
Proof. done. Qed.

(** An early return of [Reconcile]. *)
Lemma prepare_early (returned : Run * (SummarySpec * option error)) :
  prepare s deployment remove namespace targetName w = inl returned →
  ∃ summary err w',
    returned = (saveSummary (fst (evaluate s deployment namespace)) summary namespace
                  (mkRun w' []),
                (summary, Some err))
    ∧ AllAssignedDeployed summary = false.
Proof.
  unfold prepare.
  destruct (evaluate s deployment namespace) as [d' err]. cbn [fst].
  destruct (if remove then None else err) as [e|];
    [intros [= <-]; eexists _, _, _; by rewrite failWith_shape|].
  destruct (NewDeploymentState d') as [cds [e|] ];
    [intros [= <-]; eexists _, _, _; by rewrite failWith_shape|].
  destruct (Get s d' targetName w) as [w1 [ [cur comps] [e|] ] ];
    [intros [= <-]; eexists _, _, _; by rewrite failWith_shape|].
  destruct (PlanForDeployment d' _) as [pl [e|] ];
    [intros [= <-]; eexists _, _, _; by rewrite failWith_shape|].
  done.
Qed.

(** The shape of a run: the events of the loop, then, when no step
    failed, the state of the deployment, then the summary. *)
Lemma Reconcile_shape :
  let d' := fst (evaluate s deployment namespace) in
  let r := Reconcile s deployment remove namespace targetName w in
  ∃ log w',
    Forall (stepEvent d') log
    ∧ match prepare s deployment remove namespace targetName w with
      | inl _ => log = [] ∧ is_Some (snd (snd r))
      | inr p =>
          ∃ rest, plannedSteps s targetName (Steps (plan p)) = processedSteps log ++ rest
                  ∧ (snd (snd r) = None → rest = [])
      end
    ∧ ((snd (snd r) = None
        ∧ AllAssignedDeployed (fst (snd r)) = true
        ∧ ∃ p, prepare s deployment remove namespace targetName w = inr p
            ∧ fst r = saveSummary d' (fst (snd r)) namespace
                        (mkRun w' (log ++ [EvSaveState
                                             (mkManagerState d'
                                                (ClearAllRemoved (merged p)))])))
       ∨ (is_Some (snd (snd r))
          ∧ AllAssignedDeployed (fst (snd r)) = false
          ∧ fst r = saveSummary d' (fst (snd r)) namespace (mkRun w' log))).
Proof.
  cbv zeta. unfold Reconcile.
  destruct (prepare s deployment remove namespace targetName w) as [returned|p] eqn:Hprep.
  - apply prepare_early in Hprep as (summary & err & w' & -> & Hflag).
    exists [], w'. split; [done|]. cbn [fst snd]. split; [by split|].
    right. by split.
  - destruct (ReconcileProofs.prepare_inr s deployment remove namespace targetName w p Hprep)
      as (Heval & Hfirst & _).
    unfold execute. rewrite <- Heval.
    pose proof (reconcileSteps_shape s (evaluated p) namespace targetName (previous p)
                  (observed p) (Steps (plan p))
                  (mkLoop (first p) ∅ 0 0 false
                     (MergeCollection (SolutionMetadata (evaluated p))
                        (InstanceMetadata (evaluated p))))
                  (mkRun (before p) [])) as Hloop.
    destruct (reconcileSteps _ _ _ _ _ _ _ _ _) as [v σ|summary err σ].
    + destruct Hloop as ((Hcount & _) & log & Hlog & Hev & Hplan).
      { split; [done|]. split; [by rewrite Hfirst|done]. }
      cbn [events app] in Hlog. unfold finish. cbn [fst snd].
      eexists log, _. split; [done|]. split.
      { exists []. by rewrite app_nil_r. }
      left. split; [done|]. split.
      { cbn. by apply Z.eqb_eq. }
      exists p. split; [done|]. by rewrite Hlog.
    + destruct Hloop as (Hflag & log & σ'' & -> & Hlog & Hev & rest & Hplan).
      { split; [done|]. split; [by rewrite Hfirst|done]. }
      cbn [events app] in Hlog. cbn [fst snd].
      exists log, (world σ''). split; [done|]. split.
      { exists rest. by split. }
      right. split; [done|]. split; [done|]. destruct σ''. cbn in *. by subst.
Qed.

Lemma processedSteps_tail (log tail : list Event) :
  Forall (fun ev => stepOf ev = None) tail →
  processedSteps (log ++ tail) = processedSteps log.
Proof.
  intros Htail. unfold processedSteps. rewrite omap_app.
  assert (omap stepOf tail = []) as ->; [|by rewrite app_nil_r].
  induction Htail as [|ev tail Hev _ IH]; [done|]. simpl. by rewrite Hev.
Qed.

(** [Reconcile] flags the summary it returns as [AllAssignedDeployed]
    exactly when it returns no error: the flag is false in every summary
    that is returned with an error, and true in every summary returned
    without, also when every step was skipped or left out. *)
Theorem Reconcile_deployed_flag :
  let r := Reconcile s deployment remove namespace targetName w in
  AllAssignedDeployed (fst (snd r)) = true ↔ snd (snd r) = None.
Proof.
  cbv zeta. destruct Reconcile_shape as (log & w' & _ & _ & Hshape).
  destruct Hshape as [(Herr & Hflag & _)|([e Herr] & Hflag & _)].
  - by rewrite Herr, Hflag.
  - rewrite Herr, Hflag. split; discriminate.
Qed.

(** On every path, the last thing [Reconcile] does is to save the
    summary that it returns: the last write to the state store is the
    [Upsert], under the id [summary-<instance>], of that summary with
    the generation of the deployment and the time of the write. *)
Theorem Reconcile_saves_returned_summary :
  let d' := fst (evaluate s deployment namespace) in
  let r := Reconcile s deployment remove namespace targetName w in
  last (events (fst r)) = Some (EvSaveSummary (fst (snd r)))
  ∧ ∃ w',
      world (fst r)
      = stateUpsert
          {| Value := mkStateEntry ("summary-" +:+ InstanceName d')
                        (boxSummaryResult
                           (mkSummaryResult (fst (snd r)) (Generation d') (now w')))
                        "";
             Metadata := namespaceMetadata namespace;
             Options := {| UpdateStateOnly := false |} |} w'.
Proof.
  cbv zeta. destruct Reconcile_shape as (log & w' & _ & _ & Hshape).
  destruct Hshape as [(_ & _ & p & _ & ->)|(_ & _ & ->)].
  - split; [apply last_snoc|]. by eexists.
  - split; [apply last_snoc|]. by eexists.
Qed.


(** Every [Apply] of a run receives the evaluated deployment with the
    target of its step as active target and, as instance metadata, the
    collection merged from the metadata of the solution and of the
    instance, in which [SYMPHONY_AGENT_ADDRESS] is the name of the agent
    component of that target, and is absent when the target has no
    agent: the address of the agent of an earlier step, or an address
    given in the metadata, does not reach the provider. *)
Theorem Reconcile_applies_step_deployment (step : DeploymentStep)
    (dep : DeploymentSpec) (err : option error) :
  let d' := fst (evaluate s deployment namespace) in
  let r := Reconcile s deployment remove namespace targetName w in
  let agent := findAgent (default zeroTargetState (Targets d' !! Target step)) in
  EvApply step dep err ∈ events (fst r) →
  dep = stepDeployment d' (Target step)
  ∧ ActiveTarget dep = Target step
  ∧ InstanceMetadata dep !! ENV_NAME = (if String.eqb agent "" then None else Some agent)
  ∧ ∀ k, k ≠ ENV_NAME →
      InstanceMetadata dep !! k
      = MergeCollection (SolutionMetadata d') (InstanceMetadata d') !! k.
Proof.
  cbv zeta. destruct Reconcile_shape as (log & w' & Hev & _ & Hshape).
  intros Hin.
  assert (EvApply step dep err ∈ log) as Hlog.
  { destruct Hshape as [(_ & _ & p & _ & Hrun)|(_ & _ & Hrun)];
      rewrite Hrun in Hin; cbn [saveSummary events] in Hin;
      rewrite !elem_of_app in Hin.
    - destruct Hin as [ [Hin|Hin]|Hin]; [done|..];
        by apply list_elem_of_singleton in Hin.
    - destruct Hin as [Hin|Hin]; [done|]. by apply list_elem_of_singleton in Hin. }
  rewrite Forall_forall in Hev. apply Hev in Hlog. cbn [stepEvent] in Hlog. subst dep.
  split; [done|]. split; [done|]. split.
  - cbn. unfold stepMetadata. destruct (String.eqb _ "").
    + by rewrite lookup_delete_eq.
    + by rewrite lookup_insert_eq.
  - intros k Hk. cbn. by apply stepMetadata_other.
Qed.

(** [Reconcile] goes through the planned steps (the steps of the plan
    that the allow-list and [targetName] do not leave out) in the order
    of the plan, applying or skipping each of them once: the steps of its
    run are a prefix of the planned steps, all of them when it returns
    no error.  No step that is left out is applied or skipped, and a run
    that returns before its plan goes through no step. *)
Theorem Reconcile_processes_planned_steps :
  let r := Reconcile s deployment remove namespace targetName w in
  match prepare s deployment remove namespace targetName w with
  | inl _ => processedSteps (events (fst r)) = [] ∧ is_Some (snd (snd r))
  | inr p =>
      ∃ rest,
        plannedSteps s targetName (Steps (plan p))
        = processedSteps (events (fst r)) ++ rest
        ∧ (snd (snd r) = None → rest = [])
  end
  ∧ ∀ step, step ∈ processedSteps (events (fst r)) → filteredOut s targetName step = false.
Proof.
  cbv zeta. destruct Reconcile_shape as (log & w' & _ & Hplan & Hshape).
  assert (processedSteps
            (events (fst (Reconcile s deployment remove namespace targetName w)))
          = processedSteps log) as ->.
  { destruct Hshape as [(_ & _ & p & _ & ->)|(_ & _ & ->)];
      cbn [saveSummary events].
    - rewrite <- app_assoc. apply processedSteps_tail.
      apply Forall_app. split; by apply Forall_singleton.
    - apply processedSteps_tail. by apply Forall_singleton. }
  destruct (prepare s deployment remove namespace targetName w) as [returned|p].
  - destruct Hplan as [-> Herr]. split; [done|].
    intros step Hin. by apply elem_of_nil in Hin.
  - destruct Hplan as (rest & Hplan & Hrest). split; [by exists rest|].
    intros step Hin.
    assert (step ∈ plannedSteps s targetName (Steps (plan p))) as Hplanned.
    { rewrite Hplan. apply elem_of_app. by left. }
    unfold plannedSteps in Hplanned. by apply list_elem_of_filter in Hplanned as [? _].
Qed.

End Calls.

Section Counts.
Context `{Collaborators}.
Variables (s : SolutionManager) (deployment : DeploymentSpec) (remove : bool)
          (namespace targetName : string) (w : World).

(** The sum of the results of targets that all succeeded. *)
Lemma sumResults_all_one (X : gset string) :
  sumResults (gset_to_gmap 1 X) = Z.of_nat (size X).
Proof.
  unfold sumResults. induction X as [|x X Hx IH] using set_ind_L.
  - by rewrite gset_to_gmap_empty, map_fold_empty.
  - rewrite gset_to_gmap_union_singleton, map_fold_insert_L.
    + rewrite IH, size_union, size_singleton by set_solver. lia.
    + intros. lia.
    + by apply lookup_gset_to_gmap_None.
Qed.

Lemma reconcileStep_results (d : DeploymentSpec)
    (previousDesiredState : option SolutionManagerDeploymentState)
    (currentState : DeploymentState) (step : DeploymentStep) (v : LoopVars) (σ : Run) :
  match reconcileStep s d namespace targetName previousDesiredState
          currentState step v σ with
  | Continue v' _ =>
      TargetCount (summary v') = TargetCount (summary v)
      ∧ targetResult v'
        = if filteredOut s targetName step then targetResult v
          else <[Target step := 1]> (targetResult v)
  | Return summary' _ _ => TargetCount summary' = TargetCount (summary v)
  end.
Proof.
  unfold reconcileStep.
  destruct (filteredOut s targetName step); [done|].
  destruct (match TargetProviders s !! Target step with
            | Some override => (world σ, inl override)
            | None => CreateProviderForTargetRole _ _ _
            end) as [w1 [provider|err] ]; [|done].
  destruct (match previousDesiredState with
            | Some previous => canSkipStep _ _ _ _ _
            | None => false
            end); [done|].
  rewrite ReconcileProofs.attempts_once. cbn [world events].
  by destruct (providerApply _ _ _ _ _) as [w2 [cr [e|] ] ].
Qed.

Lemma reconcileSteps_results (d : DeploymentSpec)
    (previousDesiredState : option SolutionManagerDeploymentState)
    (currentState : DeploymentState) (steps : list DeploymentStep) :
  ∀ (v : LoopVars) (σ : Run) (X : gset string),
  targetResult v = gset_to_gmap 1 X →
  match reconcileSteps s d namespace targetName previousDesiredState
          currentState steps v σ with
  | Continue v' _ =>
      TargetCount (summary v') = TargetCount (summary v)
      ∧ targetResult v'
        = gset_to_gmap 1 (targetsOf (plannedSteps s targetName steps) ∪ X)
  | Return summary' _ _ => TargetCount summary' = TargetCount (summary v)
  end.
Proof.
  induction steps as [|step rest IH]; intros v σ X HX; cbn [reconcileSteps].
  - split; [done|]. rewrite HX. f_equal. unfold targetsOf, plannedSteps. set_solver.
  - pose proof (reconcileStep_results d previousDesiredState currentState step v σ)
      as Hstep.
    destruct (reconcileStep _ _ _ _ _ _ _ _ _) as [v1 σ1|summary1 err σ1]; [|done].
    destruct Hstep as [Hcount Hresult].
    destruct (filteredOut s targetName step) eqn:Hout.
    + specialize (IH v1 σ1 X). rewrite Hresult in IH. specialize (IH HX).
      rewrite ReconcileProofs.plannedSteps_cons_out by done.
      destruct (reconcileSteps _ _ _ _ _ _ rest v1 σ1); by rewrite <- Hcount.
    + specialize (IH v1 σ1 ({[Target step]} ∪ X)). rewrite Hresult, HX in IH.
      specialize (IH (eq_sym (gset_to_gmap_union_singleton _ _ _))).
      rewrite ReconcileProofs.plannedSteps_cons_in by done.
      destruct (reconcileSteps _ _ _ _ _ _ rest v1 σ1) as [v2 σ2|summary2 err σ2];
        [|by rewrite <- Hcount].
      destruct IH as [Hcount2 ->]. split; [by rewrite <- Hcount|].
      f_equal. unfold targetsOf. rewrite fmap_cons. set_solver.
Qed.

(** [TargetCount] is the number of targets of the deployment as it was
    passed in.  [SuccessCount] is 0 when [Reconcile] returns before its
    plan; when it returns no error, [SuccessCount] is the number of
    distinct targets of the planned steps (the steps that the allow-list
    and [targetName] do not leave out), applied or skipped, whatever the
    number of targets of the deployment. *)
Theorem Reconcile_counts_planned_targets :
  let r := Reconcile s deployment remove namespace targetName w in
  TargetCount (fst (snd r)) = Z.of_nat (size (Targets deployment))
  ∧ match prepare s deployment remove namespace targetName w with
    | inl _ => SuccessCount (fst (snd r)) = 0
    | inr p =>
        snd (snd r) = None →
        SuccessCount (fst (snd r))
        = Z.of_nat (size (targetsOf (plannedSteps s targetName (Steps (plan p)))))
    end.
Proof.
  cbv zeta. unfold Reconcile.
  destruct (prepare s deployment remove namespace targetName w) as [returned|p] eqn:Hprep.
  - unfold prepare in Hprep.
    destruct (evaluate s deployment namespace) as [d' err].
    destruct (if remove then None else err) as [e|]; [by injection Hprep as <-|].
    destruct (NewDeploymentState d') as [cds [e|] ]; [by injection Hprep as <-|].
    destruct (Get s d' targetName w) as [w1 [ [cur comps] [e|] ] ];
      [by injection Hprep as <-|].
    destruct (PlanForDeployment d' _) as [pl [e|] ]; [by injection Hprep as <-|].
    done.
  - destruct (ReconcileProofs.prepare_inr s deployment remove namespace targetName w p Hprep)
      as (_ & Hfirst & _).
    unfold execute.
    pose proof (reconcileSteps_results (evaluated p) (previous p) (observed p)
                  (Steps (plan p))
                  (mkLoop (first p) ∅ 0 0 false
                     (MergeCollection (SolutionMetadata (evaluated p))
                        (InstanceMetadata (evaluated p))))
                  (mkRun (before p) []) ∅) as Hloop.
    cbn [targetResult summary] in Hloop. rewrite gset_to_gmap_empty in Hloop.
    specialize (Hloop eq_refl).
    destruct (reconcileSteps _ _ _ _ _ _ _ _ _) as [v σ|summary' err σ].
    + destruct Hloop as [Hcount Hresult]. rewrite Hfirst in Hcount.
      unfold finish. cbn [fst snd]. split.
      * cbn. destruct (negb (someStepsRan v)); cbn; by rewrite Hcount.
      * intros _. cbn. rewrite Hresult, (right_id_L ∅ (∪)). apply sumResults_all_one.
    + rewrite Hfirst in Hloop. cbn [fst snd]. split; [done|]. discriminate.
Qed.

Lemma prepare_early_skipped (returned : Run * (SummarySpec * option error)) :
  prepare s deployment remove namespace targetName w = inl returned →
  Skipped (fst (snd returned)) = false.
Proof.
  unfold prepare.
  destruct (evaluate s deployment namespace) as [d' err].
  destruct (if remove then None else err) as [e|]; [by intros [= <-]|].
  destruct (NewDeploymentState d') as [cds [e|] ]; [by intros [= <-]|].
  destruct (Get s d' targetName w) as [w1 [ [cur comps] [e|] ] ]; [by intros [= <-]|].
  destruct (PlanForDeployment d' _) as [pl [e|] ]; [by intros [= <-]|].
  done.
Qed.

Lemma appliedSteps_snoc (evs : list Event) (ev : Event) :
  appliedSteps (evs ++ [ev])
  = appliedSteps evs ++ match ev with EvApply step _ _ => [step] | _ => [] end.
Proof. unfold appliedSteps. rewrite omap_app. by destruct ev. Qed.

Lemma reconcileStep_ran (d : DeploymentSpec)
    (previousDesiredState : option SolutionManagerDeploymentState)
    (currentState : DeploymentState) (step : DeploymentStep) (v : LoopVars) (σ : Run) :
  Skipped (summary v) = false →
  (someStepsRan v = false ↔ appliedSteps (events σ) = []) →
  match reconcileStep s d namespace targetName previousDesiredState
          currentState step v σ with
  | Continue v' σ' =>
      Skipped (summary v') = false
      ∧ (someStepsRan v' = false ↔ appliedSteps (events σ') = [])
  | Return summary' _ _ => Skipped summary' = false
  end.
Proof.
  intros Hskipped Hran. unfold reconcileStep.
  destruct (filteredOut s targetName step); [done|].
  destruct (match TargetProviders s !! Target step with
            | Some override => (world σ, inl override)
            | None => CreateProviderForTargetRole _ _ _
            end) as [w1 [provider|err] ]; [|done].
  destruct (match previousDesiredState with
            | Some previous => canSkipStep _ _ _ _ _
            | None => false
            end).
  { split; [done|]. cbn [someStepsRan events]. rewrite appliedSteps_snoc.
    by rewrite app_nil_r. }
  rewrite ReconcileProofs.attempts_once. cbn [world events].
  destruct (providerApply _ _ _ _ _) as [w2 [cr [e|] ] ]; [done|].
  split; [done|]. cbn [someStepsRan events]. rewrite appliedSteps_snoc.
  split; [done|]. by destruct (appliedSteps (events σ)).
Qed.

Lemma reconcileSteps_ran (d : DeploymentSpec)
    (previousDesiredState : option SolutionManagerDeploymentState)
    (currentState : DeploymentState) (steps : list DeploymentStep) :
  ∀ (v : LoopVars) (σ : Run),
  Skipped (summary v) = false →
  (someStepsRan v = false ↔ appliedSteps (events σ) = []) →
  match reconcileSteps s d namespace targetName previousDesiredState
          currentState steps v σ with
  | Continue v' σ' =>
      Skipped (summary v') = false
      ∧ (someStepsRan v' = false ↔ appliedSteps (events σ') = [])
  | Return summary' _ _ => Skipped summary' = false
  end.
Proof.
  induction steps as [|step rest IH]; intros v σ Hskipped Hran; cbn [reconcileSteps];
    [done|].
  pose proof (reconcileStep_ran d previousDesiredState currentState step v σ
                Hskipped Hran) as Hstep.
  destruct (reconcileStep _ _ _ _ _ _ _ _ _) as [v1 σ1|summary1 err σ1]; [|done].
  destruct Hstep as [Hskipped1 Hran1]. by apply IH.
Qed.

(** The summary that [Reconcile] returns is flagged [Skipped] exactly
    when the run returns no error and has called [Apply] on no provider
    (every planned step was skipped, or there was none); a summary
    returned without error carries the [remove] flag of the call as
    [IsRemoval]. *)
Theorem Reconcile_skipped_flag :
  let r := Reconcile s deployment remove namespace targetName w in
  (Skipped (fst (snd r)) = true
   ↔ snd (snd r) = None ∧ appliedSteps (events (fst r)) = [])
  ∧ (snd (snd r) = None → IsRemoval (fst (snd r)) = remove).
Proof.
  cbv zeta. unfold Reconcile.
  destruct (prepare s deployment remove namespace targetName w) as [returned|p] eqn:Hprep.
  - pose proof (prepare_early_skipped returned Hprep) as Hskipped.
    apply (prepare_early s deployment remove namespace targetName w) in Hprep
      as (summary & err & w' & -> & _).
    cbn [fst snd] in *. rewrite Hskipped. split; [|done].
    split; [done|by intros [? _] ].
  - destruct (ReconcileProofs.prepare_inr s deployment remove namespace targetName w p Hprep)
      as (_ & Hfirst & _).
    unfold execute.
    pose proof (reconcileSteps_ran (evaluated p) (previous p) (observed p)
                  (Steps (plan p))
                  (mkLoop (first p) ∅ 0 0 false
                     (MergeCollection (SolutionMetadata (evaluated p))
                        (InstanceMetadata (evaluated p))))
                  (mkRun (before p) [])) as Hloop.
    cbn [summary someStepsRan events] in Hloop.
    assert (Skipped (first p) = false) as Hskipped by (by rewrite Hfirst).
    specialize (Hloop Hskipped (conj (fun _ => eq_refl) (fun _ => eq_refl))).
    destruct (reconcileSteps _ _ _ _ _ _ _ _ _) as [v σ|summary' err σ].
    + destruct Hloop as [_ Hran]. unfold finish. cbn [fst snd]. split.
      * cbn [saveSummary events]. rewrite !appliedSteps_snoc, !app_nil_r.
        assert (Skipped (set_AllAssignedDeployed (plannedCount v =? planSuccessCount v)
                   (set_SuccessCount (sumResults (targetResult v))
                      (set_IsRemoval remove
                         (if Skipped (set_Skipped (negb (someStepsRan v)) (summary v))
                          then set_SuccessCount
                                 (TargetCount (set_Skipped (negb (someStepsRan v))
                                                 (summary v)))
                                 (set_Skipped (negb (someStepsRan v)) (summary v))
                          else set_Skipped (negb (someStepsRan v)) (summary v)))))
                = negb (someStepsRan v)) as ->.
        { cbn. by destruct (negb (someStepsRan v)). }
        rewrite negb_true_iff, Hran. naive_solver.
      * intros _. cbn. by destruct (negb (someStepsRan v)).
    + cbn [fst snd]. rewrite Hloop. split; [|done]. split; [done|by intros [? _] ].
Qed.

End Counts.

Lemma Reconcile_applies_step_deployment_witness :
  Reference.depT1 = @stepDeployment Reference.reference Reference.deployment "T1"
  ∧ InstanceMetadata Reference.depT1 !! ENV_NAME = None.
Proof.
  destruct (Reconcile_applies_step_deployment Reference.manager Reference.deployment
              false "default" "T1" Reference.stuck Reference.stepT1 Reference.depT1
              (Some Reference.unreachableError))
    as (Hdep & _ & Hagent & _).
  { vm_compute. apply list_elem_of_here. }
  split; [exact Hdep|exact Hagent].
Defined.

End RunProofs.

(** ** The MQTT target provider: the other calls *)

Module MqttCallProofs.
Import Mqtt.

(** The handler passes a response on to the channel that its call
    context names, flagged OK exactly for the states OK and Accepted,
    with the state of the response, and with the body as a string when
    it is not OK. *)
Theorem onResponse_routes (decode : string → gval) (response : COAResponse)
    (channel : Channel) :
  RMetadata response !! "call-context" = Some (callContext channel) →
  ∃ resp,
    onResponse decode response = Some (channel, resp)
    ∧ PState resp = RState response
    ∧ (IsOK resp = true ↔ RState response = OK ∨ RState response = Accepted)
    ∧ (IsOK resp = false → Payload resp = GStr (RBody response)).
Proof.
  intros Hctx. unfold onResponse. rewrite Hctx.
  assert (State_eqb (RState response) OK || State_eqb (RState response) Accepted = true
          ↔ RState response = OK ∨ RState response = Accepted) as Hok.
  { rewrite orb_true_iff, !MqttProofs.State_eqb_eq. done. }
  destruct channel; cbn [callContext default]; eexists; (split; [reflexivity|]);
    cbn [PState IsOK Payload];
    destruct (State_eqb (RState response) OK || State_eqb (RState response) Accepted);
    cbn [PState IsOK Payload]; (split; [done|]); (split; [done|]); done.
Qed.

Lemma onResponse_routes_witness :
  ∃ resp,
    onResponse (fun _ => GNil) Reference.refused = Some (ApplyChan, resp)
    ∧ IsOK resp = false
    ∧ Payload resp = GStr "no such target".
Proof.
  destruct (onResponse_routes (fun _ => GNil) Reference.refused ApplyChan eq_refl)
    as (resp & Hresp & _ & Hok & Hbody).
  exists resp. split; [exact Hresp|].
  assert (IsOK resp = false) as Hnot.
  { destruct (IsOK resp); [|reflexivity].
    destruct (proj1 Hok eq_refl) as [Hs|Hs]; discriminate Hs. }
  split; [exact Hnot|]. exact (Hbody Hnot).
Defined.

(** [Remove] returns the error of a publish that fails; when the request
    is published and no response reaches the Remove channel before the
    deadline of 8 seconds, it returns the InternalError "didn't get
    response to Remove() call over MQTT"; on a response that arrives
    before the deadline it returns nil exactly when the response is OK,
    and otherwise the error that carries the state and the payload of
    the response. *)
Theorem Remove_answers_or_times_out `{Fmt} (resp : ProxyResponse) (t : Z) (pick : bool)
    (tokenError : error) (arrival : option (Z * ProxyResponse)) :
  Remove (Some tokenError) arrival pick = Some tokenError
  ∧ Remove None None pick = Some (NewCOAError removeTimeoutMessage InternalError)
  ∧ (deadline < t →
     Remove None (Some (t, resp)) pick
     = Some (NewCOAError removeTimeoutMessage InternalError))
  ∧ (t < deadline →
     Remove None (Some (t, resp)) pick
     = if IsOK resp then None
       else Some (NewCOAError (Sprint (Payload resp)) (PState resp))).
Proof.
  split; [done|]. split; [done|]. unfold Remove, awaitResponse. split.
  - intros Hlate. destruct (Z.ltb_spec t deadline); [lia|].
    destruct (Z.eqb_spec t deadline); [lia|done].
  - intros Hearly. by destruct (Z.ltb_spec t deadline); [|lia].
Qed.

(** [NeedsUpdate] and [NeedsRemove] return true only when the request is
    published and a response flagged OK arrives by the deadline; a
    publish that fails, a response that is not OK and a timeout all give
    false. *)
Theorem Needs_true_only_on_timely_ok (published : option error)
    (arrival : option (Z * ProxyResponse)) (pick : bool) :
  let timelyOK :=
    published = None
    ∧ ∃ t resp, arrival = Some (t, resp) ∧ IsOK resp = true
        ∧ (t < deadline ∨ (t = deadline ∧ pick = true)) in
  (NeedsUpdate published arrival pick = true ↔ timelyOK)
  ∧ (NeedsRemove published arrival pick = true ↔ timelyOK).
Proof.
  cbv zeta.
  assert (needs published arrival pick = true
          ↔ published = None
            ∧ ∃ t resp, arrival = Some (t, resp) ∧ IsOK resp = true
                ∧ (t < deadline ∨ (t = deadline ∧ pick = true))) as Hneeds;
    [|by split].
  unfold needs, awaitResponse.
  destruct published as [e|]; [split; [done|by intros [? _] ]|].
  destruct arrival as [ [t resp]|].
  2:{ split; [done|]. by intros (_ & t & resp & ? & _). }
  destruct (Z.ltb_spec t deadline) as [Hlt|Hge].
  { destruct (IsOK resp) eqn:Hok.
    - split; [|done]. intros _. split; [done|]. exists t, resp. by split; [|split; [|left] ].
    - split; [done|]. intros (_ & t' & resp' & [= <- <-] & Hok' & _). congruence. }
  destruct (Z.eqb_spec t deadline) as [Heq|Hne].
  - destruct pick.
    + destruct (IsOK resp) eqn:Hok.
      * split; [|done]. intros _. split; [done|]. exists t, resp.
        by split; [|split; [|right] ].
      * split; [done|]. intros (_ & t' & resp' & [= <- <-] & Hok' & _). congruence.
    + split; [done|]. intros (_ & t' & resp' & [= <- <-] & _ & [?|[_ ?] ]); [lia|done].
  - split; [done|]. intros (_ & t' & resp' & [= <- <-] & _ & [?|[? _] ]); lia.
Qed.

(** [MQTTTargetProviderConfigFromMap] returns no error exactly when the
    four properties [brokerAddress], [clientID], [requestTopic] and
    [responseTopic] are present, and the configuration then carries
    their values ([name] is optional); otherwise it returns a BadConfig
    error for the first of them that is missing, in that order. *)
Theorem MQTTTargetProviderConfigFromMap_requires (properties : gmap string string) :
  let r := MQTTTargetProviderConfigFromMap properties in
  (snd r = None
   ↔ is_Some (properties !! "brokerAddress") ∧ is_Some (properties !! "clientID")
     ∧ is_Some (properties !! "requestTopic") ∧ is_Some (properties !! "responseTopic"))
  ∧ (snd r = None →
     properties !! "brokerAddress" = Some (BrokerAddress (fst r))
     ∧ properties !! "clientID" = Some (ClientID (fst r))
     ∧ properties !! "requestTopic" = Some (RequestTopic (fst r))
     ∧ properties !! "responseTopic" = Some (ResponseTopic (fst r))
     ∧ ConfigName (fst r) = default "" (properties !! "name"))
  ∧ (snd r ≠ None →
     ∃ key, snd r = Some (missingConfig key)
       ∧ ((key = "brokerAdress" ∧ properties !! "brokerAddress" = None)
          ∨ (key = "clientID" ∧ properties !! "clientID" = None
             ∧ is_Some (properties !! "brokerAddress"))
          ∨ (key = "requestTopic" ∧ properties !! "requestTopic" = None
             ∧ is_Some (properties !! "brokerAddress")
             ∧ is_Some (properties !! "clientID"))
          ∨ (key = "responseTopic" ∧ properties !! "responseTopic" = None
             ∧ is_Some (properties !! "brokerAddress")
             ∧ is_Some (properties !! "clientID")
             ∧ is_Some (properties !! "requestTopic")))).
Proof.
  cbv zeta. unfold MQTTTargetProviderConfigFromMap.
  destruct (properties !! "brokerAddress") as [broker|].
  2:{ cbn. split; [split; [done|by intros ([? ?] & _)]|]. split; [done|].
      intros _. exists "brokerAdress". split; [done|]. by left. }
  destruct (properties !! "clientID") as [client|].
  2:{ cbn. split; [split; [done|by intros (_ & [? ?] & _)]|]. split; [done|].
      intros _. exists "clientID". split; [done|]. right. left. by eauto. }
  destruct (properties !! "requestTopic") as [request|].
  2:{ cbn. split; [split; [done|by intros (_ & _ & [? ?] & _)]|]. split; [done|].
      intros _. exists "requestTopic". split; [done|]. right. right. left. by eauto. }
  destruct (properties !! "responseTopic") as [response|].
  2:{ cbn. split; [split; [done|by intros (_ & _ & _ & [? ?])]|]. split; [done|].
      intros _. exists "responseTopic". split; [done|]. right. right. right. by eauto. }
  cbn. split; [split; [by eauto|done]|]. split; [done|]. done.
Qed.

End MqttCallProofs.

(** ** The instance reconciler: the two paths *)

Module InstancePathProofs.
Import Model InstanceReconciler.

(** The update path either returns no error and asks to be run again
    after 60 seconds, or returns an error and no delay. *)
Theorem updatePath_requeues_unless_error (fetched : SummaryResult * option error)
    (generation elapsed : Z) (env : Answers) :
  let result := snd (updatePath fetched generation elapsed env) in
  (snd result = None ∧ fst result = Some interval ∧ interval = 60 * 1000000000)
  ∨ (is_Some (snd result) ∧ fst result = None).
Proof.
  cbv zeta. unfold updatePath. destruct fetched as [summary err].
  destruct (match err with
            | Some e => if IsNotFound e then None else Some e
            | None => None
            end) as [e|].
  { right. destruct (updateReconciling env); by split. }
  destruct (generationMatch _ generation && (elapsed <=? interval)).
  { destruct (updateStatus env); [right|left]; by split. }
  destruct (queueJob env).
  { right. destruct (updateReconciling env); by split. }
  destruct (negb _); [|by left].
  destruct (updateReconciling env); [right|left]; by split.
Qed.

(** The calls of the update path. *)
Lemma updatePath_calls (summary : SummaryResult) (err : option error)
    (generation elapsed : Z) (env : Answers) :
  fst (updatePath (summary, err) generation elapsed env)
  = if match err with Some e => negb (IsNotFound e) | None => false end
    then match err with
         | Some e => [UpdateInstanceStatusToReconciling (Some e)]
         | None => []
         end
    else if generationMatch (SummaryGeneration summary) generation
            && (elapsed <=? interval)
         then [UpdateInstanceStatus (Summary summary)]
         else QueueJob ::
              match queueJob env with
              | Some e => [UpdateInstanceStatusToReconciling (Some e)]
              | None =>
                  if negb (generationMatch (SummaryGeneration summary) generation)
                  then [UpdateInstanceStatusToReconciling None]
                  else []
              end.
Proof.
  unfold updatePath.
  destruct err as [e|]; [destruct (IsNotFound e)|]; cbn [negb];
    try (by destruct (updateReconciling env));
    (destruct (generationMatch _ generation); cbn [andb negb];
     [destruct (elapsed <=? interval)|]);
    try (by destruct (updateStatus env));
    destruct (queueJob env); by destruct (updateReconciling env).
Qed.

(** The update path either writes the fetched summary to the status of
    the instance or queues a job, never both: it writes the summary
    when the fetch did not fail (NotFound apart), the generation
    matches and the summary is not older than 60 seconds; it queues a
    job when the fetch did not fail and the summary is stale or of
    another generation; when the fetch fails with another error than
    NotFound it does neither. *)
Theorem updatePath_applies_or_queues (summary : SummaryResult) (err : option error)
    (generation elapsed : Z) (env : Answers) :
  let calls := fst (updatePath (summary, err) generation elapsed env) in
  let failed := match err with Some e => negb (IsNotFound e) | None => false end in
  let fresh := generationMatch (SummaryGeneration summary) generation
               && (elapsed <=? interval) in
  (UpdateInstanceStatus (Summary summary) ∈ calls ↔ failed = false ∧ fresh = true)
  ∧ (QueueJob ∈ calls ↔ failed = false ∧ fresh = false)
  ∧ ((∃ s, UpdateInstanceStatus s ∈ calls) → QueueJob ∉ calls).
Proof.
  cbv zeta. rewrite updatePath_calls.
  destruct (match err with Some e => negb (IsNotFound e) | None => false end).
  { destruct err as [e|]; rewrite ?elem_of_cons, ?elem_of_nil;
      (split; [naive_solver|]); (split; [naive_solver|]);
      rewrite ?elem_of_cons, ?elem_of_nil; naive_solver. }
  destruct (generationMatch _ generation && (elapsed <=? interval)).
  { rewrite ?elem_of_cons, ?elem_of_nil. naive_solver. }
  split; [|split].
  - rewrite elem_of_cons. split; [|naive_solver]. intros [?|Hin]; [done|].
    destruct (queueJob env); [|destruct (negb _)];
      rewrite ?elem_of_cons, ?elem_of_nil in Hin; naive_solver.
  - rewrite elem_of_cons. naive_solver.
  - intros [s Hin]. apply elem_of_cons in Hin as [?|Hin]; [done|].
    destruct (queueJob env); [|destruct (negb _)];
      rewrite ?elem_of_cons, ?elem_of_nil in Hin; naive_solver.
Qed.

Lemma pollUntilRemoved_polls (answers : list (SummaryResult * option error)) :
  ∃ n, pollUntilRemoved answers = replicate n PollSummary
       ∧ (n ≤ length answers)%nat
       ∧ (∀ i answer, answers !! i = Some answer → (S i < n)%nat →
            confirmsRemoval answer = false).
Proof.
  induction answers as [|answer rest IH]; cbn [pollUntilRemoved].
  - exists 0%nat. split; [done|]. split; [done|].
    intros i answer Hi. by rewrite lookup_nil in Hi.
  - destruct (confirmsRemoval answer) eqn:Hconfirm.
    + exists 1%nat. split; [done|]. split; [cbn; lia|].
      intros i a _ Hlt. lia.
    + destruct IH as (n & -> & Hle & Hbefore).
      exists (S n). split; [done|]. split; [cbn; lia|].
      intros [|i] a Hi Hlt.
      * cbn in Hi. by injection Hi as <-.
      * cbn in Hi. apply (Hbefore i a Hi). lia.
Qed.

(** The removal path.  Without the finalizer it does nothing.  With it,
    a delete job is queued first; when that fails, the finalizer is
    kept, the status goes to reconciling, and the error is returned
    (the error of the status update when that fails too).  When the job
    is queued, the summary is polled on every tick until one confirms
    the removal or the timeout ends the wait, and then, confirmed or
    not, the finalizer is removed and the instance is updated; the
    only error is that of the update.  No path asks to be run again. *)
Theorem removalPath_releases_instance (hasFinalizer : bool) (env : RemovalAnswers) :
  let r := removalPath hasFinalizer env in
  fst (snd r) = None
  ∧ match hasFinalizer, deleteJob env with
    | false, _ => r = ([], (None, None))
    | true, Some err =>
        fst r = [QueueDeleteJob; ToReconciling err]
        ∧ snd (snd r) = Some (default err (toReconciling env))
    | true, None =>
        snd (snd r) = updateInstance env
        ∧ ∃ n, fst r = QueueDeleteJob :: replicate n PollSummary
                        ++ [RemoveFinalizer; UpdateInstance]
            ∧ (n ≤ length (polls env))%nat
            ∧ (∀ i answer, polls env !! i = Some answer → (S i < n)%nat →
                 confirmsRemoval answer = false)
    end.
Proof.
  cbv zeta. unfold removalPath. destruct hasFinalizer; [|done].
  destruct (deleteJob env) as [err|].
  { by destruct (toReconciling env). }
  destruct (pollUntilRemoved_polls (polls env)) as (n & -> & Hle & Hbefore).
  destruct (updateInstance env); (split; [done|]); (split; [done|]); by exists n.
Qed.

End InstancePathProofs.

(** ** Init of the solution manager *)

Module InitProofs.
Import Model Solution.

Section Manager.
Context `{Collaborators}.

Lemma Split_nonempty (v : string) : Strings.Split v "," ≠ [].
Proof. apply StringsFacts.splitFrom_nonempty. Qed.

(** After an [Init] that returns no error, a manager in target mode has
    a list of target names that is not empty.  With the four calls
    before it succeeding, [Init] fails, with "target mode is set but
    target name is not set", exactly when the manager is in target mode
    and neither the property [targetNames], nor the names it had, nor
    [SYMPHONY_TARGET_NAME] give a name; a [targetNames] property always
    gives one, be it the empty name of an empty property. *)
Theorem Init_target_mode (calls : InitCalls) (properties : gmap string string)
    (providers : gmap string (option Provider)) (env : string) (s : SolutionManager) :
  let r := Init calls properties providers env s in
  (snd r = None → IsTarget (fst r) = true → TargetNames (fst r) ≠ [])
  ∧ (managerInit calls = None → getStateProvider calls = None →
     getExtConfigProvider calls = None → getSecretProvider calls = None →
     (snd r = Some targetModeError
      ↔ IsTarget (fst r) = true ∧ properties !! "targetNames" = None
        ∧ TargetNames s = [] ∧ env = "")
     ∧ (snd r = None ∨ snd r = Some targetModeError)
     ∧ IsTarget (fst r)
       = default (IsTarget s) (properties !! "isTarget" ≫= Strconv.ParseBool)
     ∧ (properties !! "targetNames" = Some "" → TargetNames (fst r) = [""])).
Proof.
  cbv zeta. unfold Init.
  destruct (managerInit calls) as [e|].
  { split; [done|]. done. }
  destruct (getStateProvider calls) as [e|].
  { split; [done|]. done. }
  destruct (getExtConfigProvider calls) as [e|].
  { split; [done|]. done. }
  destruct (getSecretProvider calls) as [e|].
  { split; [done|]. done. }
  cbn [IsTarget TargetNames TargetProviders EvaluationContext].
  set (isTarget := match properties !! "isTarget" ≫= Strconv.ParseBool with
                   | Some b => b
                   | None => IsTarget s
                   end).
  assert (isTarget = default (IsTarget s) (properties !! "isTarget" ≫= Strconv.ParseBool))
    as HisTarget.
  { unfold isTarget. by destruct (properties !! "isTarget" ≫= Strconv.ParseBool). }
  destruct (properties !! "targetNames") as [v|] eqn:Hnames.
  - pose proof (Split_nonempty v) as Hv.
    assert ((length (Strings.Split v ",") =? 0)%nat = false) as Hlen.
    { apply Nat.eqb_neq. by destruct (Strings.Split v ","). }
    rewrite Hlen, !andb_false_r. cbn [andb]. cbv iota. rewrite Hlen, andb_false_r.
    cbn [fst snd IsTarget TargetNames]. split; [done|]. intros _ _ _ _.
    split; [split; [done|by intros (_ & ? & _)]|]. split; [by left|]. split; [done|].
    by intros [= ->].
  - destruct isTarget eqn:Htarget; cbn [andb].
    2:{ cbn [fst snd IsTarget TargetNames]. split; [done|]. intros _ _ _ _.
        split; [split; [done|by intros (? & _)]|]. split; [by left|]. done. }
    destruct (TargetNames s) as [|name names] eqn:Hold; cbn [length Nat.eqb andb].
    + destruct (String.eqb_spec env "") as [->|Henv]; cbn [negb].
      * cbn [length Nat.eqb fst snd IsTarget TargetNames]. split; [done|].
        intros _ _ _ _. split; [done|]. split; [by right|]. done.
      * pose proof (Split_nonempty env) as Hv.
        assert ((length (Strings.Split env ",") =? 0)%nat = false) as ->.
        { apply Nat.eqb_neq. by destruct (Strings.Split env ","). }
        cbn [fst snd IsTarget TargetNames]. split; [done|]. intros _ _ _ _.
        split; [split; [done|by intros (_ & _ & _ & ?)]|]. split; [by left|]. done.
    + cbn [fst snd IsTarget TargetNames]. split; [done|]. intros _ _ _ _.
      split; [split; [done|by intros (_ & _ & ? & _)]|]. split; [by left|]. done.
Qed.

End Manager.

End InitProofs.
